(** * Wire codec of cosmos/feegrant/v1beta1/tx.proto and the baseapp query router

    A shallow embedding of
    - the generated gogo-proto codec of [MsgGrantFeeAllowance],
      [MsgRevokeFeeAllowance] and their responses ([sovTx], [sozTx],
      [encodeVarintTx], [Size], [MarshalToSizedBuffer], [MarshalTo],
      [Marshal], [XXX_Marshal], [Unmarshal], [skipTx]),
    - the Msg service of the same file ([msgClient], the handlers,
      [_Msg_serviceDesc], [RegisterMsgServer]), and
    - [baseapp/queryrouter.go] ([QueryRouter], [AddRoute], [Route],
      [RegisterService], [QueryServiceTestHelper.Invoke]),
    followed by the properties proved about them.

    Conventions.  Go's [int] is the 64-bit two's-complement integer of the
    targets the SDK is built for; [uint64], [int32] and [uint8] are written
    out with their wrap-around.  A [[]byte] is a list of integers; a slice
    field of a message is an [option] of it, [None] being Go's [nil].  A Go
    function that returns [(T, error)] returns an [outcome T]. *)

From Stdlib Require Import ZArith Lia Bool Ascii.
From stdpp Require Import base option list strings gmap.

Local Open Scope Z_scope.

(** ** Go primitives *)

Module Go.

Definition wrap_uint64 (z : Z) : Z := z mod 2 ^ 64.
Definition wrap_uint8 (z : Z) : Z := z mod 2 ^ 8.
(** [int] and [int64]: signed, 64 bits. *)
Definition wrap_int (z : Z) : Z := (z + 2 ^ 63) mod 2 ^ 64 - 2 ^ 63.
Definition wrap_int32 (z : Z) : Z := (z + 2 ^ 31) mod 2 ^ 32 - 2 ^ 31.

(** [math/bits.Len64]: the number of bits needed to represent [x]. *)
Definition Len64 (x : Z) : Z := if x =? 0 then 0 else Z.log2 x + 1.

(** [len(s)] *)
Definition len {A} (s : list A) : Z := Z.of_nat (length s).

(** [s[i]] for an index already known to be in range (every read of the
    codec is guarded by an [iNdEx >= l] test). *)
Definition index (s : list Z) (i : Z) : Z := nth (Z.to_nat i) s 0.

(** [s[i:j]] and [s[i:]] for [0 <= i <= j <= len(s)]. *)
Definition slice (s : list Z) (i j : Z) : list Z :=
  take (Z.to_nat (j - i)) (drop (Z.to_nat i) s).
Definition slice_from (s : list Z) (i : Z) : list Z := drop (Z.to_nat i) s.

(** [make([]byte, n)] *)
Definition make (n : Z) : list Z := replicate (Z.to_nat n) 0.

(** [len] of a slice-typed field: [len(nil) = 0]. *)
Definition flen (s : option (list Z)) : Z :=
  match s with None => 0 | Some b => len b end.
Definition fdata (s : option (list Z)) : list Z :=
  match s with None => [] | Some b => b end.

End Go.

(** ** Errors and outcomes *)

(** The error values the two files create.  The comment gives the Go value
    and, after the arrow, the name the design document uses for it. *)
Inductive error : Type :=
| ErrUnexpectedEOF            (* io.ErrUnexpectedEOF          -> TruncatedInput *)
| ErrIntOverflowTx            (* "proto: integer overflow"    -> IntegerOverflow *)
| ErrInvalidLengthTx          (* "proto: negative length ..." -> NegativeLength *)
| ErrUnexpectedEndOfGroupTx   (* "proto: unexpected end of group" -> UnexpectedGroupEnd *)
| ErrEndGroupNonGroup (msg : string)
    (* "proto: <msg>: wiretype end group for non-group"         -> IllegalTag *)
| ErrIllegalTag (msg : string) (fieldNum wire : Z)
    (* "proto: <msg>: illegal tag %d (wire type %d)"            -> IllegalTag *)
| ErrWrongWireType (wireType : Z) (field : string)
    (* "proto: wrong wireType = %d for field <field>" *)
| ErrIllegalWireType (wireType : Z)
    (* "proto: illegal wireType %d" *)
| ErrUnexpectedMethodName (method : string)
    (* "unexpected method name %s"                              -> MalformedPath *)
| ErrHandlerNotFound (path1 : string)
    (* "handler not found for %s"                               -> HandlerNotFound *)
| ErrUnknownRequest (path0 : string)
    (* sdkerrors.ErrUnknownRequest, "unknown query path: %s"    -> UnknownPath *)
| ErrNotSupported
    (* "not supported"                                          -> Unsupported *)
| ErrExternal (text : string).
    (* an error made by code outside the two files: a handler, a codec *)

(** The panics of the two files. *)
Inductive panic : Type :=
| PanicNotAlphaNumeric                  (* -> InvalidPathCharacters *)
| PanicRouteInitialized (path : string) (* -> DuplicateRoute *)
| PanicIndexOutOfRange
| PanicSliceBounds
| PanicTypeAssertion.

Inductive outcome (A : Type) : Type :=
| Ok (a : A)          (* returned with a nil error *)
| Err (e : error)     (* returned a non-nil error *)
| Panic (p : panic)   (* the goroutine panicked *)
| OutOfFuel.          (* the bound of a loop of the embedding ran out;
                         the readers are shown never to end so *)
Arguments Ok {A} a.
Arguments Err {A} e.
Arguments Panic {A} p.
Arguments OutOfFuel {A}.

(** The outcomes of a call that comes back: no panic, and the bound of
    no loop exhausted. *)
Definition returns {A} (o : outcome A) : Prop :=
  match o with
  | Ok _ | Err _ => True
  | Panic _ | OutOfFuel => False
  end.

(** An arm of a switch of [Unmarshal] comes back, and with an index
    behind the tag it was entered for. *)
Definition arm_ok {Msg} (preIndex : Z) (x : Msg * outcome Z) : Prop :=
  returns (snd x) /\ forall i', snd x = Ok i' -> preIndex < i' < 2 ^ 63.

Definition obind {A B} (o : outcome A) (k : A -> outcome B) : outcome B :=
  match o with
  | Ok a => k a
  | Err e => Err e
  | Panic p => Panic p
  | OutOfFuel => OutOfFuel
  end.

Declare Scope outcome_scope.
Delimit Scope outcome_scope with outcome.
Notation "'do' p <-- o ;; k" := (obind o (fun p => k))
  (at level 10, p pattern, o at level 99, k at level 200,
   format "'[v' 'do'  p  <--  o  ;; '/' k ']'") : outcome_scope.
Local Open Scope outcome_scope.

(** The names of the design document's error taxonomy (its section 7). *)
Inductive ErrorKind : Type :=
| IntegerOverflow | NegativeLength | TruncatedInput | UnexpectedGroupEnd
| IllegalTag | DuplicateRoute | InvalidPathCharacters
| UnknownPath | MalformedPath | HandlerNotFound | Unsupported.

(** Modelled from the spec: the taxonomy of its section 7 is not in the
    code, which only has the Go error values; the table follows the
    document's sections 4.1 to 4.6 (both tag errors of [Unmarshal] are its
    [IllegalTag]). *)
Definition error_kind (e : error) : option ErrorKind :=
  match e with
  | ErrUnexpectedEOF => Some TruncatedInput
  | ErrIntOverflowTx => Some IntegerOverflow
  | ErrInvalidLengthTx => Some NegativeLength
  | ErrUnexpectedEndOfGroupTx => Some UnexpectedGroupEnd
  | ErrEndGroupNonGroup _ => Some IllegalTag
  | ErrIllegalTag _ _ _ => Some IllegalTag
  | ErrUnexpectedMethodName _ => Some MalformedPath
  | ErrHandlerNotFound _ => Some HandlerNotFound
  | ErrUnknownRequest _ => Some UnknownPath
  | ErrNotSupported => Some Unsupported
  | ErrWrongWireType _ _ | ErrIllegalWireType _ | ErrExternal _ => None
  end.

(** Modelled from the spec: the two failures of [AddRoute] in its
    section 4.5. *)
Definition panic_kind (p : panic) : option ErrorKind :=
  match p with
  | PanicNotAlphaNumeric => Some InvalidPathCharacters
  | PanicRouteInitialized _ => Some DuplicateRoute
  | PanicIndexOutOfRange | PanicSliceBounds | PanicTypeAssertion => None
  end.

(** ** The codec of tx.proto *)

Module Tx.
Import Go.

(** *** Reading a varint

    The loop
<<
    for shift := uint(0); ; shift += 7 {
      if shift >= 64 { return ErrIntOverflowTx }
      if iNdEx >= l { return io.ErrUnexpectedEOF }
      b := dAtA[iNdEx]
      iNdEx++
      wire |= uint64(b&0x7F) << shift
      if b < 0x80 { break }
    }
>>
    occurs once per tag and once per length in every [Unmarshal] and in
    [skipTx].  [varint_loop] is that loop from a given [shift] and
    accumulator; it returns the accumulator and the index after the
    last byte read.  The copies that accumulate into an [int]
    ([byteLen], [msglen], [length]) build the same 64 bits,
    [int(b&0x7F) << shift] dropping the bits shifted out like the
    [uint64] shift does, and read them as a signed number: they are
    [wrap_int] of the result.  The copy of [skipTx] for wire type 0 has
    no accumulator and only uses the index. *)
Fixpoint varint_loop (fuel : nat) (dAtA : list Z) (l iNdEx shift acc : Z)
  : outcome (Z * Z) :=
  if 64 <=? shift then Err ErrIntOverflowTx
  else if l <=? iNdEx then Err ErrUnexpectedEOF
  else
    let b := index dAtA iNdEx in
    let iNdEx := iNdEx + 1 in
    let acc := Z.lor acc (wrap_uint64 (Z.shiftl (Z.land b 0x7F) shift)) in
    if b <? 0x80 then Ok (acc, iNdEx)
    else match fuel with
         | O => OutOfFuel
         | S fuel => varint_loop fuel dAtA l iNdEx (shift + 7) acc
         end.

(** Ten rounds bring [shift] to 70, where the loop has returned. *)
Definition read_varint (dAtA : list Z) (l iNdEx : Z) : outcome (Z * Z) :=
  varint_loop 10 dAtA l iNdEx 0 0.

(** *** skipTx *)

(** One round of the [for iNdEx < l] loop of [skipTx] after the tag has
    been read: the [switch wireType].  Returns the new [iNdEx] and
    [depth]. *)
Definition skipTx_switch (dAtA : list Z) (l iNdEx depth wireType : Z)
  : outcome (Z * Z) :=
  if wireType =? 0 then
    do (_, iNdEx) <-- read_varint dAtA l iNdEx ;;
    Ok (iNdEx, depth)
  else if wireType =? 1 then
    Ok (wrap_int (iNdEx + 8), depth)
  else if wireType =? 2 then
    do (v, iNdEx) <-- read_varint dAtA l iNdEx ;;
    let length := wrap_int v in
    if length <? 0 then Err ErrInvalidLengthTx
    else Ok (wrap_int (iNdEx + length), depth)
  else if wireType =? 3 then
    Ok (iNdEx, wrap_int (depth + 1))
  else if wireType =? 4 then
    if depth =? 0 then Err ErrUnexpectedEndOfGroupTx
    else Ok (iNdEx, wrap_int (depth - 1))
  else if wireType =? 5 then
    Ok (wrap_int (iNdEx + 4), depth)
  else Err (ErrIllegalWireType wireType).

Fixpoint skipTx_loop (fuel : nat) (dAtA : list Z) (l iNdEx depth : Z)
  : outcome Z :=
  if l <=? iNdEx then Err ErrUnexpectedEOF
  else match fuel with
       | O => OutOfFuel
       | S fuel =>
         do (wire, iNdEx) <-- read_varint dAtA l iNdEx ;;
         let wireType := Z.land wire 0x7 in
         do (iNdEx, depth) <-- skipTx_switch dAtA l iNdEx depth wireType ;;
         if iNdEx <? 0 then Err ErrInvalidLengthTx
         else if depth =? 0 then Ok iNdEx
         else skipTx_loop fuel dAtA l iNdEx depth
       end.

(** Every round reads at least the byte of its tag. *)
Definition skipTx (dAtA : list Z) : outcome Z :=
  skipTx_loop (length dAtA) dAtA (len dAtA) 0 0.

(** *** The loop of Unmarshal

    The four [Unmarshal] methods are one loop around a [switch fieldNum]
    that differs per message.  [Unmarshal_loop] is the loop,
    parameterised by the message's name in the error texts and by its
    [switch]; the arms of the switches are built from [unmarshal_bytes]
    (a [bytes] field), and [unmarshal_skip] (the [default] arm). *)

(** An arm's result, with the destination left as it was on failure. *)
Definition arm {Msg A} (m : Msg) (o : outcome (A * Z)) (set : A -> Msg)
  : Msg * outcome Z :=
  match o with
  | Ok (a, iNdEx) => (set a, Ok iNdEx)
  | Err e => (m, Err e)
  | Panic p => (m, Panic p)
  | OutOfFuel => (m, OutOfFuel)
  end.

(** The length prefix of a length-delimited field and the bounds of its
    payload: returns [iNdEx] (start of the payload) and [postIndex]. *)
Definition read_length (dAtA : list Z) (l iNdEx : Z) : outcome (Z * Z) :=
  do (v, iNdEx) <-- read_varint dAtA l iNdEx ;;
  let byteLen := wrap_int v in
  if byteLen <? 0 then Err ErrInvalidLengthTx
  else
    let postIndex := wrap_int (iNdEx + byteLen) in
    if postIndex <? 0 then Err ErrInvalidLengthTx
    else if l <? postIndex then Err ErrUnexpectedEOF
    else Ok (iNdEx, postIndex).

(** [case] of a [bytes] field: the payload (which
    [append(m.F[:0], ...)] followed by the [nil] test makes a non-nil
    slice) and [postIndex]. *)
Definition unmarshal_bytes (field : string) (dAtA : list Z)
    (l iNdEx wireType : Z) : outcome (list Z * Z) :=
  if negb (wireType =? 2) then Err (ErrWrongWireType wireType field)
  else
    do (iNdEx, postIndex) <-- read_length dAtA l iNdEx ;;
    Ok (slice dAtA iNdEx postIndex, postIndex).

(** [default]: skip the field, tag included. *)
Definition unmarshal_skip (dAtA : list Z) (l preIndex : Z) : outcome Z :=
  let iNdEx := preIndex in
  do skippy <-- skipTx (slice_from dAtA iNdEx) ;;
  if skippy <? 0 then Err ErrInvalidLengthTx
  else if wrap_int (iNdEx + skippy) <? 0 then Err ErrInvalidLengthTx
  else if l <? wrap_int (iNdEx + skippy) then Err ErrUnexpectedEOF
  else Ok (wrap_int (iNdEx + skippy)).

Section Loop.
Context {Msg : Type}.
Variable name : string.
(** [switch m dAtA l preIndex iNdEx fieldNum wireType] *)
Variable switch : Msg -> list Z -> Z -> Z -> Z -> Z -> Z -> Msg * outcome Z.

Fixpoint Unmarshal_loop (fuel : nat) (m : Msg) (dAtA : list Z)
    (l iNdEx : Z) : Msg * outcome unit :=
  if l <=? iNdEx then
    (* after the loop *)
    if l <? iNdEx then (m, Err ErrUnexpectedEOF) else (m, Ok tt)
  else match fuel with
  | O => (m, OutOfFuel)
  | S fuel =>
    let preIndex := iNdEx in
    match read_varint dAtA l iNdEx with
    | Ok (wire, iNdEx) =>
      let fieldNum := wrap_int32 (Z.shiftr wire 3) in
      let wireType := Z.land wire 0x7 in
      if wireType =? 4 then (m, Err (ErrEndGroupNonGroup name))
      else if fieldNum <=? 0 then
        (m, Err (ErrIllegalTag name fieldNum wire))
      else
        match switch m dAtA l preIndex iNdEx fieldNum wireType with
        | (m, Ok iNdEx) => Unmarshal_loop fuel m dAtA l iNdEx
        | (m, Err e) => (m, Err e)
        | (m, Panic p) => (m, Panic p)
        | (m, OutOfFuel) => (m, OutOfFuel)
        end
    | Err e => (m, Err e)
    | Panic p => (m, Panic p)
    | OutOfFuel => (m, OutOfFuel)
    end
  end.

(** Every round reads at least the byte of its tag. *)
Definition Unmarshal_with (m : Msg) (dAtA : list Z) : Msg * outcome unit :=
  Unmarshal_loop (length dAtA) m dAtA (len dAtA) 0.
End Loop.

(** *** Writing *)

Definition sovTx (x : Z) : Z := (Len64 (Z.lor x 1) + 6) / 7.

(** [x << 1] is taken as a [uint64], [int64(x) >> 63] is the arithmetic
    shift of the signed reading of [x], taken as a [uint64] again. *)
Definition sozTx (x : Z) : Z :=
  sovTx (wrap_uint64 (Z.lxor (wrap_uint64 (Z.shiftl x 1))
                             (wrap_uint64 (Z.shiftr (wrap_int x) 63)))).

(** [dAtA[i] = b] *)
Definition store (dAtA : list Z) (i b : Z) : outcome (list Z) :=
  if (0 <=? i) && (i <? len dAtA) then Ok (<[Z.to_nat i := b]> dAtA)
  else Panic PanicIndexOutOfRange.

(** [copy(dAtA[i:], src)] *)
Definition copy_at (dAtA : list Z) (i : Z) (src : list Z) : outcome (list Z) :=
  if (0 <=? i) && (i <=? len dAtA) then
    let n := Z.min (len dAtA - i) (len src) in
    Ok (take (Z.to_nat i) dAtA ++ take (Z.to_nat n) src
          ++ drop (Z.to_nat (i + n)) dAtA)
  else Panic PanicSliceBounds.

(** [dAtA[:n]] *)
Definition prefix (dAtA : list Z) (n : Z) : outcome (list Z) :=
  if (0 <=? n) && (n <=? len dAtA) then Ok (take (Z.to_nat n) dAtA)
  else Panic PanicSliceBounds.

(** [make([]byte, size)] *)
Definition make_bytes (size : Z) : outcome (list Z) :=
  if size <? 0 then Panic PanicSliceBounds else Ok (make size).

(** The [for v >= 1<<7] loop of [encodeVarintTx] and the store after it. *)
Fixpoint encodeVarintTx_loop (fuel : nat) (dAtA : list Z) (offset v : Z)
  : outcome (list Z) :=
  if 128 <=? v then
    match fuel with
    | O => OutOfFuel
    | S fuel =>
      do dAtA <-- store dAtA offset (wrap_uint8 (Z.lor (Z.land v 0x7f) 0x80)) ;;
      encodeVarintTx_loop fuel dAtA (wrap_int (offset + 1)) (Z.shiftr v 7)
    end
  else store dAtA offset (wrap_uint8 v).

(** A [uint64] is below 128 after nine shifts by 7. *)
Definition encodeVarintTx (dAtA : list Z) (offset v : Z) : outcome (list Z * Z) :=
  let offset := wrap_int (offset - sovTx v) in
  let base := offset in
  do dAtA <-- encodeVarintTx_loop 9 dAtA offset v ;;
  Ok (dAtA, base).

(** The block
<<
    if len(m.F) > 0 {
      i -= len(m.F)
      copy(dAtA[i:], m.F)
      i = encodeVarintTx(dAtA, i, uint64(len(m.F)))
      i--
      dAtA[i] = tag
    }
>>
    of [MarshalToSizedBuffer], on the buffer and the cursor [i]. *)
Definition marshal_bytes (tag : Z) (f : option (list Z)) (dAtA : list Z) (i : Z)
  : outcome (list Z * Z) :=
  if flen f >? 0 then
    let i := wrap_int (i - flen f) in
    do dAtA <-- copy_at dAtA i (fdata f) ;;
    do (dAtA, i) <-- encodeVarintTx dAtA i (wrap_uint64 (flen f)) ;;
    let i := wrap_int (i - 1) in
    do dAtA <-- store dAtA i tag ;;
    Ok (dAtA, i)
  else Ok (dAtA, i).

(** The term one [bytes] field adds to [Size]. *)
Definition size_bytes (f : option (list Z)) (n : Z) : Z :=
  let l := flen f in
  if l >? 0 then wrap_int (n + (1 + l + sovTx (wrap_uint64 l))) else n.

End Tx.

(** *** MsgRevokeFeeAllowance *)

Module MsgRevokeFeeAllowance.
Import Go Tx.

Record t : Type := mk { Granter : option (list Z); Grantee : option (list Z) }.

(** [MsgRevokeFeeAllowance{}] *)
Definition zero : t := {| Granter := None; Grantee := None |}.

Definition Size (m : t) : Z :=
  let n := 0 in
  let n := size_bytes (Granter m) n in
  let n := size_bytes (Grantee m) n in
  n.

Definition MarshalToSizedBuffer (m : t) (dAtA : list Z) : outcome (list Z * Z) :=
  let i := len dAtA in
  do (dAtA, i) <-- marshal_bytes 0x12 (Grantee m) dAtA i ;;
  do (dAtA, i) <-- marshal_bytes 0xa (Granter m) dAtA i ;;
  Ok (dAtA, wrap_int (len dAtA - i)).

Definition Marshal (m : t) : outcome (list Z) :=
  let size := Size m in
  do dAtA <-- make_bytes size ;;
  do buf <-- prefix dAtA size ;;
  do (dAtA, n) <-- MarshalToSizedBuffer m buf ;;
  prefix dAtA n.

(** [XXX_Marshal].  With [deterministic] set the call goes to
    [proto.InternalMessageInfo], outside the two files: [info_Marshal].
    Otherwise the method works on [b[:cap(b)]]: [b] is given here with
    all the bytes up to its capacity. *)
Definition XXX_Marshal (info_Marshal : list Z -> t -> bool -> outcome (list Z))
    (m : t) (b : list Z) (deterministic : bool) : outcome (list Z) :=
  if deterministic then info_Marshal b m deterministic
  else
    do (b, n) <-- MarshalToSizedBuffer m b ;;
    prefix b n.

(** [MarshalTo] only uses [dAtA[:size]], which Go takes from the array
    behind the slice: [dAtA] is given here with all the bytes up to its
    capacity.  Returned are the array as the call leaves it and [n]. *)
Definition MarshalTo (m : t) (dAtA : list Z) : outcome (list Z * Z) :=
  let size := Size m in
  do buf <-- prefix dAtA size ;;
  do (buf, n) <-- MarshalToSizedBuffer m buf ;;
  Ok (buf ++ slice_from dAtA size, n).

Definition switch (m : t) (dAtA : list Z) (l preIndex iNdEx fieldNum wireType : Z)
  : t * outcome Z :=
  if fieldNum =? 1 then
    arm m (unmarshal_bytes "Granter" dAtA l iNdEx wireType)
        (fun b => {| Granter := Some b; Grantee := Grantee m |})
  else if fieldNum =? 2 then
    arm m (unmarshal_bytes "Grantee" dAtA l iNdEx wireType)
        (fun b => {| Granter := Granter m; Grantee := Some b |})
  else
    arm m (do i <-- unmarshal_skip dAtA l preIndex ;; Ok (tt, i)) (fun _ => m).

Definition Unmarshal (m : t) (dAtA : list Z) : t * outcome unit :=
  Unmarshal_with "MsgRevokeFeeAllowance" switch m dAtA.

End MsgRevokeFeeAllowance.

(** *** The two responses: messages without fields *)

Module MsgRevokeFeeAllowanceResponse.
Import Go Tx.

Record t : Type := mk { }.
Definition zero : t := mk.

Definition Size (m : t) : Z := 0.

Definition MarshalToSizedBuffer (m : t) (dAtA : list Z) : outcome (list Z * Z) :=
  let i := len dAtA in
  Ok (dAtA, wrap_int (len dAtA - i)).

Definition Marshal (m : t) : outcome (list Z) :=
  let size := Size m in
  do dAtA <-- make_bytes size ;;
  do buf <-- prefix dAtA size ;;
  do (dAtA, n) <-- MarshalToSizedBuffer m buf ;;
  prefix dAtA n.

Definition switch (m : t) (dAtA : list Z) (l preIndex iNdEx fieldNum wireType : Z)
  : t * outcome Z :=
  arm m (do i <-- unmarshal_skip dAtA l preIndex ;; Ok (tt, i)) (fun _ => m).

Definition Unmarshal (m : t) (dAtA : list Z) : t * outcome unit :=
  Unmarshal_with "MsgRevokeFeeAllowanceResponse" switch m dAtA.

End MsgRevokeFeeAllowanceResponse.

Module MsgGrantFeeAllowanceResponse.
Import Go Tx.

Record t : Type := mk { }.
Definition zero : t := mk.

Definition Size (m : t) : Z := 0.

Definition MarshalToSizedBuffer (m : t) (dAtA : list Z) : outcome (list Z * Z) :=
  let i := len dAtA in
  Ok (dAtA, wrap_int (len dAtA - i)).

Definition Marshal (m : t) : outcome (list Z) :=
  let size := Size m in
  do dAtA <-- make_bytes size ;;
  do buf <-- prefix dAtA size ;;
  do (dAtA, n) <-- MarshalToSizedBuffer m buf ;;
  prefix dAtA n.

Definition switch (m : t) (dAtA : list Z) (l preIndex iNdEx fieldNum wireType : Z)
  : t * outcome Z :=
  arm m (do i <-- unmarshal_skip dAtA l preIndex ;; Ok (tt, i)) (fun _ => m).

Definition Unmarshal (m : t) (dAtA : list Z) : t * outcome unit :=
  Unmarshal_with "MsgGrantFeeAllowanceResponse" switch m dAtA.

End MsgGrantFeeAllowanceResponse.

(** *** MsgGrantFeeAllowance *)

(** [types.Any] belongs to the package codec/types, outside the two files.
    The three methods the codec of [MsgGrantFeeAllowance] calls on it are
    the members of this interface.  [MarshalToSizedBuffer] gets the slice
    [dAtA[:i]] and returns it as it has left it, with the number of bytes
    written; [Unmarshal] returns the receiver as it has left it. *)
Class AnyMethods : Type := {
  Any : Type;
  Any_zero : Any;                                   (* types.Any{} *)
  Any_Size : Any -> Z;
  Any_MarshalToSizedBuffer : Any -> list Z -> outcome (list Z * Z);
  Any_Unmarshal : Any -> list Z -> Any * outcome unit;
}.

Module MsgGrantFeeAllowance.
Import Go Tx.

Section WithAny.
Context `{AnyMethods}.

Record t : Type := mk {
  Granter : option (list Z);
  Grantee : option (list Z);
  Allowance : option Any;       (* *types.Any, [None] the nil pointer *)
}.

Definition zero : t :=
  {| Granter := None; Grantee := None; Allowance := None |}.

Definition Size (m : t) : Z :=
  let n := 0 in
  let n := size_bytes (Granter m) n in
  let n := size_bytes (Grantee m) n in
  let n := match Allowance m with
           | Some a =>
             let l := Any_Size a in
             wrap_int (n + (1 + l + sovTx (wrap_uint64 l)))
           | None => n
           end in
  n.

(** The block of [Allowance] in [MarshalToSizedBuffer]. *)
Definition marshal_Allowance (f : option Any) (dAtA : list Z) (i : Z)
  : outcome (list Z * Z) :=
  match f with
  | Some a =>
    do head <-- prefix dAtA i ;;
    do (head, size) <-- Any_MarshalToSizedBuffer a head ;;
    let dAtA := head ++ slice_from dAtA i in
    let i := wrap_int (i - size) in
    do (dAtA, i) <-- encodeVarintTx dAtA i (wrap_uint64 size) ;;
    let i := wrap_int (i - 1) in
    do dAtA <-- store dAtA i 0x1a ;;
    Ok (dAtA, i)
  | None => Ok (dAtA, i)
  end.

Definition MarshalToSizedBuffer (m : t) (dAtA : list Z) : outcome (list Z * Z) :=
  let i := len dAtA in
  do (dAtA, i) <-- marshal_Allowance (Allowance m) dAtA i ;;
  do (dAtA, i) <-- marshal_bytes 0x12 (Grantee m) dAtA i ;;
  do (dAtA, i) <-- marshal_bytes 0xa (Granter m) dAtA i ;;
  Ok (dAtA, wrap_int (len dAtA - i)).

Definition Marshal (m : t) : outcome (list Z) :=
  let size := Size m in
  do dAtA <-- make_bytes size ;;
  do buf <-- prefix dAtA size ;;
  do (dAtA, n) <-- MarshalToSizedBuffer m buf ;;
  prefix dAtA n.

(** [MarshalTo], [dAtA] being given up to its capacity. *)
Definition MarshalTo (m : t) (dAtA : list Z) : outcome (list Z * Z) :=
  let size := Size m in
  do buf <-- prefix dAtA size ;;
  do (buf, n) <-- MarshalToSizedBuffer m buf ;;
  Ok (buf ++ slice_from dAtA size, n).

(** [case 3]: the destination keeps the [Any] it was given, or the new
    one, also when decoding it fails. *)
Definition unmarshal_Allowance (m : t) (dAtA : list Z) (l iNdEx wireType : Z)
  : t * outcome Z :=
  if negb (wireType =? 2) then (m, Err (ErrWrongWireType wireType "Allowance"))
  else
    match read_length dAtA l iNdEx with
    | Ok (iNdEx, postIndex) =>
      let a := match Allowance m with Some a => a | None => Any_zero end in
      let '(a, r) := Any_Unmarshal a (slice dAtA iNdEx postIndex) in
      let m := {| Granter := Granter m; Grantee := Grantee m;
                  Allowance := Some a |} in
      (m, do _ <-- r ;; Ok postIndex)
    | Err e => (m, Err e)
    | Panic p => (m, Panic p)
    | OutOfFuel => (m, OutOfFuel)
    end.

Definition switch (m : t) (dAtA : list Z) (l preIndex iNdEx fieldNum wireType : Z)
  : t * outcome Z :=
  if fieldNum =? 1 then
    arm m (unmarshal_bytes "Granter" dAtA l iNdEx wireType)
        (fun b => {| Granter := Some b; Grantee := Grantee m;
                     Allowance := Allowance m |})
  else if fieldNum =? 2 then
    arm m (unmarshal_bytes "Grantee" dAtA l iNdEx wireType)
        (fun b => {| Granter := Granter m; Grantee := Some b;
                     Allowance := Allowance m |})
  else if fieldNum =? 3 then
    unmarshal_Allowance m dAtA l iNdEx wireType
  else
    arm m (do i <-- unmarshal_skip dAtA l preIndex ;; Ok (tt, i)) (fun _ => m).

Definition Unmarshal (m : t) (dAtA : list Z) : t * outcome unit :=
  Unmarshal_with "MsgGrantFeeAllowance" switch m dAtA.

End WithAny.

Arguments t {_}.
Arguments mk {_} _ _ _.

End MsgGrantFeeAllowance.

(** ** baseapp/queryrouter.go *)

Module Baseapp.
Import Go.

(** [strings.Split(s, sep)] for a separator of one byte, the only use
    of it here being [strings.Split(method, "/")]. *)
Fixpoint Split (s : string) (sep : ascii) : list string :=
  match s with
  | EmptyString => [EmptyString]
  | String c s' =>
    if Ascii.eqb c sep then EmptyString :: Split s' sep
    else match Split s' sep with
         | [] => [String c EmptyString]
         | seg :: segs => String c seg :: segs
         end
  end.

Definition is_alnum (c : ascii) : bool :=
  let n := nat_of_ascii c in
  ((48 <=? n) && (n <=? 57) || (65 <=? n) && (n <=? 90)
   || (97 <=? n) && (n <=? 122))%nat.

(** Modelled from the spec: [isAlphaNumeric] is declared in another file
    of the package; the document says of it that a path which contains
    a non-alphanumeric character is refused. *)
Definition isAlphaNumeric (path : string) : bool :=
  forallb is_alnum (String.list_ascii_of_string path).

Section Router.
(** [sdk.Context], the values passed as [interface{}] (messages), and
    the service implementation handed to [RegisterService]. *)
Context {Ctx Iface Srv : Type}.
(** [protoCodec]: the codec of grpc's encoding registry.  [Unmarshal]
    returns the destination as it has left it. *)
Variable protoCodec_Marshal : Iface -> outcome (list Z).
Variable protoCodec_Unmarshal : list Z -> Iface -> Iface * outcome unit.

(** [sdk.Querier]; of [abci.RequestQuery] only [Data] is used. *)
Definition Querier : Type := Ctx -> list string -> list Z -> outcome (list Z).

(** [grpc.MethodDesc] and [grpc.ServiceDesc]; the handler gets the
    decoding function [dec] and a nil interceptor. *)
Record MethodDesc : Type := {
  MethodName : string;
  Handler : Srv -> Ctx -> (Iface -> Iface * outcome unit) -> outcome Iface;
}.
Record ServiceDesc : Type := {
  ServiceName : string;
  Methods : list MethodDesc;
}.

(** A [Querier] is a func value and may be nil: [None]. *)
Record QueryRouter : Type := { routes : gmap string (option Querier) }.

Definition NewQueryRouter : QueryRouter := {| routes := ∅ |}.

(** [qrt.routes[path]]: nil for a key that is not in the map. *)
Definition Route (qrt : QueryRouter) (path : string) : option Querier :=
  match routes qrt !! path with
  | Some q => q
  | None => None
  end.

Definition AddRoute (qrt : QueryRouter) (path : string) (q : option Querier)
  : outcome QueryRouter :=
  if negb (isAlphaNumeric path) then Panic PanicNotAlphaNumeric
  else match Route qrt path with
       | Some _ => Panic (PanicRouteInitialized path)
       | None => Ok {| routes := <[path := q]> (routes qrt) |}
       end.

(** The [for _, md := range sd.Methods] loop of the closure. *)
Fixpoint scan_methods (mds : list MethodDesc) (handler : Srv) (ctx : Ctx)
    (path0 : string) (req : list Z) : outcome (list Z) :=
  match mds with
  | [] => Err (ErrUnknownRequest path0)
  | md :: mds =>
    if negb (String.eqb (MethodName md) path0) then
      scan_methods mds handler ctx path0 req
    else
      do res <-- Handler md handler ctx (fun i => protoCodec_Unmarshal req i) ;;
      protoCodec_Marshal res
  end.

(** The closure [RegisterService] stores. *)
Definition service_querier (sd : ServiceDesc) (handler : Srv) : Querier :=
  fun ctx path req =>
    match path with
    | [] => Panic PanicIndexOutOfRange          (* path[0] *)
    | path0 :: _ => scan_methods (Methods sd) handler ctx path0 req
    end.

Definition RegisterService (qrt : QueryRouter) (sd : ServiceDesc) (handler : Srv)
  : QueryRouter :=
  {| routes := <[ServiceName sd := Some (service_querier sd handler)]> (routes qrt) |}.

Record QueryServiceTestHelper : Type := {
  router : QueryRouter;     (* the embedded *QueryRouter *)
  ctx : Ctx;
}.

Definition NewQueryServerTestHelper (ctx : Ctx) : QueryServiceTestHelper :=
  {| router := NewQueryRouter; ctx := ctx |}.

(** [x, err := o; if err != nil { return err }] in a function that
    returns [reply] as it has left it, and its error. *)
Definition or_return {A} (reply : Iface) (o : outcome A)
    (k : A -> Iface * outcome unit) : Iface * outcome unit :=
  match o with
  | Ok a => k a
  | Err e => (reply, Err e)
  | Panic p => (reply, Panic p)
  | OutOfFuel => (reply, OutOfFuel)
  end.

Definition Invoke (q : QueryServiceTestHelper) (method : string)
    (args reply : Iface) : Iface * outcome unit :=
  let path := Split method "/" in
  if negb (len path =? 3) then (reply, Err (ErrUnexpectedMethodName method))
  else
    let path1 := nth 1 path EmptyString in
    match Route (router q) path1 with
    | None => (reply, Err (ErrHandlerNotFound path1))
    | Some querier =>
      or_return reply (protoCodec_Marshal args) (fun reqBz =>
      or_return reply (querier (ctx q) (drop 2 path) reqBz) (fun resBz =>
      protoCodec_Unmarshal resBz reply))
    end.

Definition NewStream : outcome unit := Err ErrNotSupported.

End Router.

Arguments Querier : clear implicits.
Arguments MethodDesc : clear implicits.
Arguments ServiceDesc : clear implicits.
Arguments QueryRouter : clear implicits.
Arguments QueryServiceTestHelper : clear implicits.

End Baseapp.

(** ** The Msg service of tx.proto *)

Module Feegrant.
Import Go Tx Baseapp.

Section Service.
Context `{AnyMethods} {Ctx : Type}.

(** The values of [interface{}] that travel through the service: a
    pointer to one of the four messages. *)
Inductive message : Type :=
| Grant (m : MsgGrantFeeAllowance.t)
| GrantResponse (m : MsgGrantFeeAllowanceResponse.t)
| Revoke (m : MsgRevokeFeeAllowance.t)
| RevokeResponse (m : MsgRevokeFeeAllowanceResponse.t).

Record MsgServer : Type := {
  GrantFeeAllowance :
    Ctx -> MsgGrantFeeAllowance.t -> outcome MsgGrantFeeAllowanceResponse.t;
  RevokeFeeAllowance :
    Ctx -> MsgRevokeFeeAllowance.t -> outcome MsgRevokeFeeAllowanceResponse.t;
}.

(** The handlers with a nil interceptor, as the router calls them.
    [dec] fills the message it is given and keeps its type. *)
Definition _Msg_GrantFeeAllowance_Handler (srv : MsgServer) (ctx : Ctx)
    (dec : message -> message * outcome unit) : outcome message :=
  match dec (Grant MsgGrantFeeAllowance.zero) with
  | (Grant in_, Ok _) =>
    do out <-- GrantFeeAllowance srv ctx in_ ;; Ok (GrantResponse out)
  | (_, Ok _) => Panic PanicTypeAssertion
  | (_, Err e) => Err e
  | (_, Panic p) => Panic p
  | (_, OutOfFuel) => OutOfFuel
  end.

Definition _Msg_RevokeFeeAllowance_Handler (srv : MsgServer) (ctx : Ctx)
    (dec : message -> message * outcome unit) : outcome message :=
  match dec (Revoke MsgRevokeFeeAllowance.zero) with
  | (Revoke in_, Ok _) =>
    do out <-- RevokeFeeAllowance srv ctx in_ ;; Ok (RevokeResponse out)
  | (_, Ok _) => Panic PanicTypeAssertion
  | (_, Err e) => Err e
  | (_, Panic p) => Panic p
  | (_, OutOfFuel) => OutOfFuel
  end.

Definition _Msg_serviceDesc : ServiceDesc Ctx message MsgServer := {|
  ServiceName := "cosmos.feegrant.v1beta1.Msg";
  Methods := [
    {| MethodName := "GrantFeeAllowance";
       Handler := _Msg_GrantFeeAllowance_Handler |};
    {| MethodName := "RevokeFeeAllowance";
       Handler := _Msg_RevokeFeeAllowance_Handler |}
  ];
|}.

(** [protoCodec] at these messages: the proto codec of grpc marshals
    with the message's [Marshal] and unmarshals by resetting the
    destination and running its [Unmarshal]. *)
Definition protoCodec_Marshal (v : message) : outcome (list Z) :=
  match v with
  | Grant m => MsgGrantFeeAllowance.Marshal m
  | GrantResponse m => MsgGrantFeeAllowanceResponse.Marshal m
  | Revoke m => MsgRevokeFeeAllowance.Marshal m
  | RevokeResponse m => MsgRevokeFeeAllowanceResponse.Marshal m
  end.

Definition protoCodec_Unmarshal (data : list Z) (v : message)
  : message * outcome unit :=
  match v with
  | Grant _ =>
    let '(m, r) := MsgGrantFeeAllowance.Unmarshal MsgGrantFeeAllowance.zero data in
    (Grant m, r)
  | GrantResponse _ =>
    let '(m, r) := MsgGrantFeeAllowanceResponse.Unmarshal
                     MsgGrantFeeAllowanceResponse.zero data in
    (GrantResponse m, r)
  | Revoke _ =>
    let '(m, r) := MsgRevokeFeeAllowance.Unmarshal MsgRevokeFeeAllowance.zero data in
    (Revoke m, r)
  | RevokeResponse _ =>
    let '(m, r) := MsgRevokeFeeAllowanceResponse.Unmarshal
                     MsgRevokeFeeAllowanceResponse.zero data in
    (RevokeResponse m, r)
  end.

(** [RegisterMsgServer(s, srv)] on the router. *)
Definition RegisterMsgServer (s : QueryRouter Ctx) (srv : MsgServer)
  : QueryRouter Ctx :=
  RegisterService protoCodec_Marshal protoCodec_Unmarshal s _Msg_serviceDesc srv.

(** [grpc1.ClientConn], of which the client calls [Invoke] with the
    name of the method, [args] and [reply]; returned are [reply] as
    the call leaves it, and the error. *)
Definition ClientConn : Type :=
  string -> message -> message -> message * outcome unit.

(** The two methods of [msgClient].  [Invoke] fills the message behind
    [out] and cannot change its type. *)
Definition msgClient_GrantFeeAllowance (cc : ClientConn)
    (in_ : MsgGrantFeeAllowance.t) : outcome MsgGrantFeeAllowanceResponse.t :=
  let out := GrantResponse MsgGrantFeeAllowanceResponse.zero in
  match cc "/cosmos.feegrant.v1beta1.Msg/GrantFeeAllowance" (Grant in_) out with
  | (GrantResponse out, Ok _) => Ok out
  | (_, Ok _) => Panic PanicTypeAssertion
  | (_, Err e) => Err e
  | (_, Panic p) => Panic p
  | (_, OutOfFuel) => OutOfFuel
  end.

Definition msgClient_RevokeFeeAllowance (cc : ClientConn)
    (in_ : MsgRevokeFeeAllowance.t) : outcome MsgRevokeFeeAllowanceResponse.t :=
  let out := RevokeResponse MsgRevokeFeeAllowanceResponse.zero in
  match cc "/cosmos.feegrant.v1beta1.Msg/RevokeFeeAllowance" (Revoke in_) out with
  | (RevokeResponse out, Ok _) => Ok out
  | (_, Ok _) => Panic PanicTypeAssertion
  | (_, Err e) => Err e
  | (_, Panic p) => Panic p
  | (_, OutOfFuel) => OutOfFuel
  end.

End Service.

Arguments message {_}.
Arguments MsgServer {_} Ctx.

End Feegrant.

(** ** The wire format, as lists

    The byte sequences the writers are shown to produce and the readers to
    accept; nothing of the code is defined from them. *)

Module Wire.
Import Go Tx.

(** The number a sequence of seven-bit groups stands for, low group
    first; the top bit of each byte is not part of it. *)
Fixpoint le_groups (bs : list Z) : Z :=
  match bs with
  | [] => 0
  | b :: bs => Z.land b 0x7F + 2 ^ 7 * le_groups bs
  end.

(** The bytes of the varint of [v], for [v] below [2 ^ (7 * (n + 1))]. *)
Fixpoint varint (n : nat) (v : Z) : list Z :=
  if 128 <=? v then
    match n with
    | O => []
    | S n => (v mod 128 + 128) :: varint n (v / 128)
    end
  else [v].

(** A length-delimited field: tag byte, length, payload. *)
Definition field (tag : Z) (payload : list Z) : list Z :=
  tag :: varint 9 (len payload) ++ payload.

(** A [bytes] field, left out when it is empty. *)
Definition bytes_field (tag : Z) (f : option (list Z)) : list Z :=
  if flen f >? 0 then field tag (fdata f) else [].

(** [MsgRevokeFeeAllowance]: fields 1 and 2. *)
Definition MsgRevoke (m : MsgRevokeFeeAllowance.t) : list Z :=
  bytes_field 0xa (MsgRevokeFeeAllowance.Granter m)
  ++ bytes_field 0x12 (MsgRevokeFeeAllowance.Grantee m).

(** [MsgGrantFeeAllowance]: fields 1, 2 and, when the pointer is not
    nil, field 3 with the encoding [w] of the [Any]. *)
Definition MsgGrant `{AnyMethods} (w : list Z) (m : MsgGrantFeeAllowance.t)
  : list Z :=
  bytes_field 0xa (MsgGrantFeeAllowance.Granter m)
  ++ bytes_field 0x12 (MsgGrantFeeAllowance.Grantee m)
  ++ match MsgGrantFeeAllowance.Allowance m with
     | Some _ => field 0x1a w
     | None => []
     end.

(** The sizes of these encodings: one byte of tag, the varint of the
    length, the payload; nothing for a field that is left out. *)
Definition bytes_size (f : option (list Z)) : Z :=
  if flen f >? 0 then 1 + len (varint 9 (flen f)) + flen f else 0.

Definition MsgRevoke_size (m : MsgRevokeFeeAllowance.t) : Z :=
  bytes_size (MsgRevokeFeeAllowance.Granter m)
  + bytes_size (MsgRevokeFeeAllowance.Grantee m).

Definition MsgGrant_size `{AnyMethods} (m : MsgGrantFeeAllowance.t) : Z :=
  bytes_size (MsgGrantFeeAllowance.Granter m)
  + bytes_size (MsgGrantFeeAllowance.Grantee m)
  + match MsgGrantFeeAllowance.Allowance m with
    | Some a => 1 + len (varint 9 (Any_Size a)) + Any_Size a
    | None => 0
    end.

(** What the codec of [MsgGrantFeeAllowance] expects of the methods of
    an [Any] [a] whose encoding is [w]: [Size] is the length of [w],
    [MarshalToSizedBuffer] writes [w] over the end of the slice it is
    given, and [Unmarshal] of a new [Any] on [w] gives [a]. *)
Definition Any_writes `{AnyMethods} (a : Any) (w : list Z) : Prop :=
  Any_Size a = len w
  /\ forall head, len w <= len head ->
       Any_MarshalToSizedBuffer a head
       = Ok (take (Z.to_nat (len head - len w)) head ++ w, len w).

Definition Any_reads `{AnyMethods} (a : Any) (w : list Z) : Prop :=
  Any_Unmarshal Any_zero w = (a, Ok tt).

(** What a decoder makes of a [bytes] field after a round trip. *)
Definition absent_if_empty (f : option (list Z)) : option (list Z) :=
  match f with
  | Some [] => None
  | _ => f
  end.

(** *** Fields of every wire type

    A field as it lies on the wire: its number and, by wire type, a
    varint (0), eight bytes (1), a length and as many bytes (2), the
    fields of a group between its start and its end tag (3 and 4), or
    four bytes (5). *)
#[warnings="-register-all"] Inductive wfield : Type :=
| WVarint (num v : Z)
| WFixed64 (num : Z) (bs : list Z)
| WBytes (num : Z) (p : list Z)
| WGroup (num : Z) (fs : list wfield)
| WFixed32 (num : Z) (bs : list Z).

(** The tag: the varint of [num << 3 | wireType]. *)
Definition tag (num wireType : Z) : list Z :=
  varint 9 (Z.lor (Z.shiftl num 3) wireType).

Fixpoint wfield_bytes (f : wfield) : list Z :=
  match f with
  | WVarint num v => tag num 0 ++ varint 9 v
  | WFixed64 num bs => tag num 1 ++ bs
  | WBytes num p => tag num 2 ++ varint 9 (len p) ++ p
  | WGroup num fs =>
    tag num 3
    ++ (fix all (fs : list wfield) : list Z :=
          match fs with
          | [] => []
          | f :: fs => wfield_bytes f ++ all fs
          end) fs
    ++ tag num 4
  | WFixed32 num bs => tag num 5 ++ bs
  end.

Definition wfields_bytes (fs : list wfield) : list Z :=
  (fix all (fs : list wfield) : list Z :=
     match fs with
     | [] => []
     | f :: fs => wfield_bytes f ++ all fs
     end) fs.

(** The numbers fit the 61 bits a tag leaves them, a varint is a
    [uint64], and the fixed fields have their eight and four bytes. *)
Definition num_ok (num : Z) : Prop := 0 <= num < 2 ^ 61.

Fixpoint wfield_ok (f : wfield) : Prop :=
  match f with
  | WVarint num v => num_ok num /\ 0 <= v < 2 ^ 64
  | WFixed64 num bs => num_ok num /\ length bs = 8%nat
  | WBytes num p => num_ok num
  | WGroup num fs =>
    num_ok num
    /\ (fix all (fs : list wfield) : Prop :=
          match fs with
          | [] => True
          | f :: fs => wfield_ok f /\ all fs
          end) fs
  | WFixed32 num bs => num_ok num /\ length bs = 4%nat
  end.

Definition wfields_ok (fs : list wfield) : Prop :=
  (fix all (fs : list wfield) : Prop :=
     match fs with
     | [] => True
     | f :: fs => wfield_ok f /\ all fs
     end) fs.

(** The number of the field: that of its first tag. *)
Definition wfield_num (f : wfield) : Z :=
  match f with
  | WVarint num _ | WFixed64 num _ | WBytes num _ | WGroup num _
  | WFixed32 num _ => num
  end.

(** The tags of a field, those of the fields of its groups counted. *)
Fixpoint wfield_tags (f : wfield) : nat :=
  match f with
  | WGroup _ fs =>
    S (S ((fix all (fs : list wfield) : nat :=
             match fs with
             | [] => O
             | f :: fs => (wfield_tags f + all fs)%nat
             end) fs))
  | _ => 1%nat
  end.

Definition wfields_tags (fs : list wfield) : nat :=
  (fix all (fs : list wfield) : nat :=
     match fs with
     | [] => O
     | f :: fs => (wfield_tags f + all fs)%nat
     end) fs.

(** What the loop of [skipTx] does with the bytes of a field, or of a
    run of fields, that lie at its index: at depth 0 it returns the index
    behind them, inside a group it goes on from there. *)
Definition skips (bytes : list Z) (rounds : nat) : Prop :=
  forall pre rest d fuel,
    let dAtA := pre ++ bytes ++ rest in
    len dAtA < 2 ^ 63 -> 0 <= d -> d + len bytes < 2 ^ 63 ->
    skipTx_loop (rounds + fuel) dAtA (len dAtA) (len pre) d
    = if d =? 0 then Ok (len pre + len bytes)
      else skipTx_loop fuel dAtA (len dAtA) (len pre + len bytes) d.

(** The wire type of the tag a field starts with. *)
Definition wfield_wireType (f : wfield) : Z :=
  match f with
  | WVarint _ _ => 0
  | WFixed64 _ _ => 1
  | WBytes _ _ => 2
  | WGroup _ _ => 3
  | WFixed32 _ _ => 5
  end.

(** The number [Unmarshal] takes from the tag of a field:
    [int32(wire >> 3)]. *)
Definition wfield_fieldNum (f : wfield) : Z := wrap_int32 (wfield_num f).

(** A field [Unmarshal] reads: well formed, with a positive number. *)
Definition readable (f : wfield) : Prop := wfield_ok f /\ 0 < wfield_fieldNum f.






End Wire.

(** ** Instances used in the examples *)

Module Examples.
Import Go Tx Baseapp Feegrant.

(** An [Any] kept as the bytes of its encoding: its size is their
    number, marshalling copies them to the end of the buffer, and
    unmarshalling keeps the input. *)
#[export] Instance OpaqueAny : AnyMethods := {|
  Any := list Z;
  Any_zero := [];
  Any_Size := fun a => len a;
  Any_MarshalToSizedBuffer := fun a dAtA =>
    do dAtA <-- copy_at dAtA (len dAtA - len a) a ;;
    Ok (dAtA, len a);
  Any_Unmarshal := fun _ data => (data, Ok tt);
|}.

(** [UnimplementedMsgServer] of tx.proto. *)
Definition UnimplementedMsgServer : MsgServer unit := {|
  GrantFeeAllowance := fun _ _ =>
    Err (ErrExternal "method GrantFeeAllowance not implemented");
  RevokeFeeAllowance := fun _ _ =>
    Err (ErrExternal "method RevokeFeeAllowance not implemented");
|}.

(** A server that answers every call. *)
Definition AcceptingMsgServer : MsgServer unit := {|
  GrantFeeAllowance := fun _ _ => Ok MsgGrantFeeAllowanceResponse.zero;
  RevokeFeeAllowance := fun _ _ => Ok MsgRevokeFeeAllowanceResponse.zero;
|}.

(** A service with an alphanumeric name and one method. *)
Definition svc_serviceDesc : ServiceDesc unit message (MsgServer unit) := {|
  ServiceName := "svc";
  Methods := [ {| MethodName := "Do";
                  Handler := _Msg_RevokeFeeAllowance_Handler |} ];
|}.

Definition helper_with (sd : ServiceDesc unit message (MsgServer unit))
    (srv : MsgServer unit) : QueryServiceTestHelper unit :=
  {| router := RegisterService protoCodec_Marshal protoCodec_Unmarshal
                 NewQueryRouter sd srv;
     ctx := tt |}.

End Examples.

(** * Properties *)

(** Goals about lengths of concatenations, left to [lia]. *)
Ltac len_lia :=
  unfold Go.len in *; rewrite ?length_app in *; cbn [length] in *;
  rewrite ?length_app in *; cbn [length] in *; lia.

(** Equal lists up to the bracketing of [++] and [::]. *)
Ltac app_eq :=
  repeat (rewrite <- app_assoc || rewrite <- app_comm_cons || rewrite app_nil_r
          || rewrite app_nil_l);
  reflexivity.

(** ** Arithmetic *)

Section Arith.
Import Go.

Lemma wrap_int_small z : - 2 ^ 63 <= z < 2 ^ 63 -> wrap_int z = z.
Proof. intros Hz. unfold wrap_int. rewrite Z.mod_small; lia. Qed.

Lemma wrap_uint64_small z : 0 <= z < 2 ^ 64 -> wrap_uint64 z = z.
Proof. intros Hz. unfold wrap_uint64. now rewrite Z.mod_small. Qed.

Lemma wrap_uint8_small z : 0 <= z < 256 -> wrap_uint8 z = z.
Proof. intros Hz. unfold wrap_uint8. now rewrite Z.mod_small. Qed.

Lemma wrap_int_range z : - 2 ^ 63 <= wrap_int z < 2 ^ 63.
Proof. unfold wrap_int. pose proof (Z.mod_pos_bound (z + 2 ^ 63) (2 ^ 64)). lia. Qed.

(** Adding a non-negative offset to an index either moves it forward or
    makes it negative. *)
Lemma wrap_int_add_forward i k :
  0 <= i < 2 ^ 63 -> 0 <= k < 2 ^ 63 ->
  wrap_int (i + k) = i + k /\ i + k < 2 ^ 63 \/ wrap_int (i + k) < 0.
Proof.
  intros Hi Hk. destruct (Z_lt_ge_dec (i + k) (2 ^ 63)) as [Hlt|Hge].
  - left. split; [apply wrap_int_small|]; lia.
  - right. unfold wrap_int.
    replace (i + k + 2 ^ 63) with (i + k - 2 ^ 63 + 1 * 2 ^ 64) by lia.
    rewrite Z.mod_add by lia. rewrite Z.mod_small; lia.
Qed.

Lemma land_127 b : Z.land b 0x7F = b mod 128.
Proof. change 0x7F with (Z.ones 7). now rewrite Z.land_ones by lia. Qed.

Lemma land_7 b : Z.land b 0x7 = b mod 8.
Proof. change 0x7 with (Z.ones 3). now rewrite Z.land_ones by lia. Qed.

(** [a | m << s] adds when [a] fits below bit [s]. *)
Lemma lor_disjoint a m s :
  0 <= s -> 0 <= a < 2 ^ s -> Z.lor a (m * 2 ^ s) = a + m * 2 ^ s.
Proof.
  intros Hs Ha.
  assert (Hland : Z.land a (m * 2 ^ s) = 0).
  { apply Z.bits_inj'. intros n Hn. rewrite Z.land_spec, Z.bits_0.
    destruct (Z_lt_ge_dec n s) as [Hlt|Hge].
    - rewrite Z.mul_pow2_bits_low by lia. apply andb_false_r.
    - destruct (Z.eq_dec a 0) as [->|Hne]; [now rewrite Z.bits_0|].
      rewrite (Z.bits_above_log2 a n); [reflexivity | lia |].
      apply Z.log2_lt_pow2; [lia|].
      apply Z.lt_le_trans with (2 ^ s); [lia|].
      apply Z.pow_le_mono_r; lia. }
  rewrite <- Z.lxor_lor by exact Hland.
  symmetry. now apply Z.add_nocarry_lxor.
Qed.

(** The round of the reading loop, in arithmetic. *)
Lemma accumulate_group acc b shift :
  0 <= shift < 64 -> 0 <= acc < 2 ^ shift ->
  Z.lor acc (wrap_uint64 (Z.shiftl (Z.land b 0x7F) shift))
  = (acc + 2 ^ shift * (b mod 128)) mod 2 ^ 64.
Proof.
  intros Hs Ha. rewrite land_127, Z.shiftl_mul_pow2 by lia. unfold wrap_uint64.
  assert (H64 : 2 ^ 64 = 2 ^ (64 - shift) * 2 ^ shift).
  { rewrite <- Z.pow_add_r by lia. f_equal. lia. }
  assert (Hp : 0 < 2 ^ shift) by (apply Z.pow_pos_nonneg; lia).
  assert (Hq : 0 < 2 ^ (64 - shift)) by (apply Z.pow_pos_nonneg; lia).
  rewrite H64 at 1. rewrite Z.mul_mod_distr_r by lia.
  rewrite lor_disjoint by lia.
  pose proof (Z.mod_pos_bound (b mod 128) (2 ^ (64 - shift)) Hq) as Hb.
  symmetry.
  replace (acc + 2 ^ shift * (b mod 128))
    with (acc + (b mod 128) mod 2 ^ (64 - shift) * 2 ^ shift
          + ((b mod 128) / 2 ^ (64 - shift)) * 2 ^ 64).
  - rewrite Z.mod_add by lia. apply Z.mod_small. nia.
  - rewrite H64.
    pose proof (Z.div_mod (b mod 128) (2 ^ (64 - shift))). nia.
Qed.

End Arith.

(** ** Reading a varint *)

Section ReadVarint.
Import Go Tx Wire.

Lemma len_app {A} (a b : list A) : len (a ++ b) = len a + len b.
Proof. unfold len. rewrite length_app. lia. Qed.

Lemma len_cons {A} (a : A) (b : list A) : len (a :: b) = 1 + len b.
Proof. unfold len. simpl length. lia. Qed.

Lemma len_nonneg {A} (a : list A) : 0 <= len a.
Proof. unfold len. lia. Qed.

Lemma index_app pre c rest : index (pre ++ c :: rest) (len pre) = c.
Proof.
  unfold index, len. rewrite Nat2Z.id.
  rewrite app_nth2 by lia. now rewrite Nat.sub_diag.
Qed.

(** One round of the loop. *)
Lemma varint_loop_eq fuel dAtA l iNdEx shift acc :
  varint_loop fuel dAtA l iNdEx shift acc =
  if 64 <=? shift then Err ErrIntOverflowTx
  else if l <=? iNdEx then Err ErrUnexpectedEOF
  else
    let b := index dAtA iNdEx in
    let acc := Z.lor acc (wrap_uint64 (Z.shiftl (Z.land b 0x7F) shift)) in
    if b <? 0x80 then Ok (acc, iNdEx + 1)
    else match fuel with
         | O => OutOfFuel
         | S fuel => varint_loop fuel dAtA l (iNdEx + 1) (shift + 7) acc
         end.
Proof. destruct fuel; reflexivity. Qed.

(** The loop runs through bytes that have the continuation bit. *)
Lemma varint_loop_continue cs : forall fuel pre rest shift acc,
  Forall (fun c => 128 <= c) cs ->
  (length cs <= fuel)%nat ->
  0 <= shift -> shift + 7 * len cs < 71 ->
  exists acc',
    varint_loop fuel (pre ++ cs ++ rest) (len (pre ++ cs ++ rest)) (len pre) shift acc
    = varint_loop (fuel - length cs) (pre ++ cs ++ rest) (len (pre ++ cs ++ rest))
        (len pre + len cs) (shift + 7 * len cs) acc'
    /\ (0 <= acc < 2 ^ shift -> shift + 7 * len cs <= 63 ->
        acc' = acc + 2 ^ shift * le_groups cs
        /\ 0 <= acc' < 2 ^ (shift + 7 * len cs)).
Proof.
  induction cs as [|c cs IH]; intros fuel pre rest shift acc Hcs Hfuel Hs Hbound.
  - exists acc. change (len (@nil Z)) with 0. rewrite Nat.sub_0_r, !Z.add_0_r.
    split; [reflexivity|]. intros Ha _. simpl le_groups. split; lia.
  - inversion Hcs as [|? ? Hc Hcs']; subst.
    rewrite len_cons in Hbound. pose proof (len_nonneg cs) as Hn.
    destruct fuel as [|fuel]; [simpl in Hfuel; lia|].
    simpl in Hfuel.
    destruct (IH fuel (pre ++ [c]) rest (shift + 7)
                (Z.lor acc (wrap_uint64 (Z.shiftl (Z.land c 0x7F) shift))))
      as (acc' & Heq & Hacc); [assumption | lia | lia | lia |].
    exists acc'. split.
    + rewrite varint_loop_eq.
      replace (64 <=? shift) with false by (symmetry; apply Z.leb_gt; lia).
      replace (len (pre ++ (c :: cs) ++ rest) <=? len pre) with false
        by (symmetry; apply Z.leb_gt; rewrite !len_app, len_cons;
            pose proof (len_nonneg rest); lia).
      cbv zeta. change ((c :: cs) ++ rest) with (c :: cs ++ rest).
      rewrite index_app.
      replace (c <? 128) with false by (symmetry; apply Z.ltb_ge; lia).
      change (pre ++ c :: cs ++ rest) with (pre ++ [c] ++ cs ++ rest).
      rewrite app_assoc. 
      replace (len pre + 1) with (len (pre ++ [c]))
        by (rewrite len_app; reflexivity).
      rewrite Heq. simpl Nat.sub. f_equal.
      * rewrite len_app, len_cons. change (len (@nil Z)) with 0.
        rewrite len_cons. lia.
      * rewrite len_cons. lia.
    + intros Ha Hle. rewrite len_cons in Hle |- *.
      assert (Hstep : Z.lor acc (wrap_uint64 (Z.shiftl (Z.land c 0x7F) shift))
                      = acc + 2 ^ shift * (c mod 128)).
      { rewrite accumulate_group by lia. apply Z.mod_small.
        pose proof (Z.mod_pos_bound c 128 ltac:(lia)) as Hm.
        assert (2 ^ shift * 2 ^ 7 <= 2 ^ 64).
        { rewrite <- Z.pow_add_r by lia. apply Z.pow_le_mono_r; lia. }
        assert (0 < 2 ^ shift) by (apply Z.pow_pos_nonneg; lia). nia. }
      rewrite Hstep in Hacc.
      assert (Hp7 : 2 ^ (shift + 7) = 2 ^ shift * 2 ^ 7)
        by (rewrite Z.pow_add_r by lia; reflexivity).
      destruct Hacc as [-> Hr].
      * pose proof (Z.mod_pos_bound c 128 ltac:(lia)) as Hm.
        assert (0 < 2 ^ shift) by (apply Z.pow_pos_nonneg; lia). nia.
      * lia.
      * simpl le_groups. rewrite land_127.
        replace (shift + 7 + 7 * len cs) with (shift + 7 * (1 + len cs)) in Hr by lia.
        split; [|exact Hr]. rewrite Hp7. ring.
Qed.

End ReadVarint.

Section ReadVarintCases.
Import Go Tx Wire.

Lemma le_groups_app a b :
  le_groups (a ++ b) = le_groups a + 2 ^ (7 * len a) * le_groups b.
Proof.
  induction a as [|c a IH].
  - simpl. change (len (@nil Z)) with 0. simpl. lia.
  - simpl app. simpl le_groups. rewrite IH, len_cons.
    replace (7 * (1 + len a)) with (7 + 7 * len a) by lia.
    rewrite Z.pow_add_r by (pose proof (len_nonneg a); lia). ring.
Qed.

Lemma read_varint_overflow pre cs rest :
  Forall (fun c => 128 <= c) cs -> length cs = 10%nat ->
  read_varint (pre ++ cs ++ rest) (len (pre ++ cs ++ rest)) (len pre)
  = Err ErrIntOverflowTx.
Proof.
  intros Hcs Hlen. unfold read_varint.
  destruct (varint_loop_continue cs 10 pre rest 0 0) as (acc' & -> & _);
    [assumption | lia | lia | unfold len; lia |].
  rewrite varint_loop_eq.
  replace (64 <=? 0 + 7 * len cs) with true; [reflexivity|].
  symmetry. apply Z.leb_le. unfold len. lia.
Qed.

Lemma read_varint_truncated pre cs :
  Forall (fun c => 128 <= c) cs -> (length cs < 10)%nat ->
  read_varint (pre ++ cs) (len (pre ++ cs)) (len pre) = Err ErrUnexpectedEOF.
Proof.
  intros Hcs Hlen. unfold read_varint.
  destruct (varint_loop_continue cs 10 pre [] 0 0) as (acc' & Heq & _);
    [assumption | lia | lia | unfold len; lia |].
  rewrite app_nil_r in Heq. rewrite Heq, varint_loop_eq.
  replace (64 <=? 0 + 7 * len cs) with false
    by (symmetry; apply Z.leb_gt; unfold len; lia).
  replace (len (pre ++ cs) <=? len pre + len cs) with true; [reflexivity|].
  symmetry. apply Z.leb_le. rewrite len_app. lia.
Qed.

Lemma read_varint_value pre cs b rest :
  Forall (fun c => 128 <= c) cs -> (length cs < 10)%nat -> b < 128 ->
  read_varint (pre ++ cs ++ b :: rest) (len (pre ++ cs ++ b :: rest)) (len pre)
  = Ok (le_groups (cs ++ [b]) mod 2 ^ 64, len pre + len cs + 1).
Proof.
  intros Hcs Hlen Hb. unfold read_varint.
  destruct (varint_loop_continue cs 10 pre (b :: rest) 0 0) as (acc' & -> & Hacc);
    [assumption | lia | lia | unfold len; lia |].
  destruct Hacc as [-> Hr]; [simpl; lia | unfold len; lia |].
  rewrite varint_loop_eq.
  replace (64 <=? 0 + 7 * len cs) with false
    by (symmetry; apply Z.leb_gt; unfold len; lia).
  replace (len (pre ++ cs ++ b :: rest) <=? len pre + len cs) with false
    by (symmetry; apply Z.leb_gt; rewrite !len_app, len_cons;
        pose proof (len_nonneg rest); lia).
  cbv zeta. rewrite app_assoc. replace (len pre + len cs) with (len (pre ++ cs))
    by apply len_app.
  rewrite index_app.
  replace (b <? 128) with true by (symmetry; apply Z.ltb_lt; lia).
  rewrite accumulate_group by (unfold len in *; lia).
  rewrite le_groups_app. simpl le_groups. rewrite land_127.
  replace (0 + 7 * len cs) with (7 * len cs) by lia.
  rewrite len_app. f_equal. f_equal. f_equal. ring.
Qed.

(** C6.  Reading a varint at [iNdEx = len pre], where [cs] are the bytes
    with the continuation bit that come first (at most ten of them
    matter): ten of them are an integer overflow, whatever follows;
    fewer than ten up to the end of the buffer are an unexpected end of
    input; fewer than ten followed by a byte [b] without the bit give
    the number whose seven-bit groups they are, low group first, cut to
    64 bits, and the index after [b]. *)
Theorem read_varint_cases (pre cs rest : list Z) :
  Forall (fun c => 128 <= c) cs ->
  let dAtA := pre ++ cs ++ rest in
  ((length cs = 10)%nat ->
     read_varint dAtA (len dAtA) (len pre) = Err ErrIntOverflowTx
     /\ error_kind ErrIntOverflowTx = Some IntegerOverflow)
  /\ ((length cs < 10)%nat -> rest = [] ->
     read_varint dAtA (len dAtA) (len pre) = Err ErrUnexpectedEOF
     /\ error_kind ErrUnexpectedEOF = Some TruncatedInput)
  /\ (forall b rest', (length cs < 10)%nat -> rest = b :: rest' -> b < 128 ->
     read_varint dAtA (len dAtA) (len pre)
     = Ok (le_groups (cs ++ [b]) mod 2 ^ 64, len pre + len cs + 1)).
Proof.
  intros Hcs dAtA. subst dAtA. repeat split.
  - now apply read_varint_overflow.
  - subst rest. rewrite app_nil_r. now apply read_varint_truncated.
  - intros b rest' Hlen -> Hb. now apply read_varint_value.
Qed.

Lemma read_varint_cases_witness :
  Forall (fun c => 128 <= c) [172] /\
  read_varint [8; 172; 2; 9] 4 1 = Ok (300, 3).
Proof.
  assert (H : Forall (fun c => 128 <= c) [172]) by (repeat constructor; lia).
  split; [exact H|].
  destruct (read_varint_cases [8] [172] [2; 9] H) as (_ & _ & Hv).
  exact (Hv 2 [9] ltac:(simpl; lia) eq_refl ltac:(lia)).
Defined.

End ReadVarintCases.

(** ** skipTx *)

Section SkipTx.
Import Go Tx Wire.

Lemma wrap_int_idem z : wrap_int (wrap_int z) = wrap_int z.
Proof. apply wrap_int_small, wrap_int_range. Qed.

(** A varint can only be read from inside the buffer, and reading it
    moves the index forward. *)
Lemma varint_loop_progress fuel : forall dAtA l iNdEx shift acc v j,
  varint_loop fuel dAtA l iNdEx shift acc = Ok (v, j) ->
  iNdEx < l /\ iNdEx < j <= l.
Proof.
  induction fuel as [|fuel IH]; intros dAtA l iNdEx shift acc v j;
    rewrite varint_loop_eq;
    destruct (64 <=? shift); try discriminate;
    destruct (l <=? iNdEx) eqn:Hl; try discriminate;
    apply Z.leb_gt in Hl; cbv zeta;
    destruct (index dAtA iNdEx <? 128); try discriminate.
  - intros [= <- <-]. lia.
  - intros [= <- <-]. lia.
  - intros H. apply IH in H. lia.
Qed.

Lemma read_varint_progress dAtA l iNdEx v j :
  read_varint dAtA l iNdEx = Ok (v, j) -> iNdEx < l /\ iNdEx < j <= l.
Proof. apply varint_loop_progress. Qed.

(** One round of the loop of [skipTx]. *)
Lemma skipTx_loop_eq fuel dAtA l iNdEx depth :
  skipTx_loop (S fuel) dAtA l iNdEx depth =
  if l <=? iNdEx then Err ErrUnexpectedEOF
  else
    do (wire, iNdEx) <-- read_varint dAtA l iNdEx ;;
    do (iNdEx, depth) <-- skipTx_switch dAtA l iNdEx depth (Z.land wire 0x7) ;;
    if iNdEx <? 0 then Err ErrInvalidLengthTx
    else if depth =? 0 then Ok iNdEx
    else skipTx_loop fuel dAtA l iNdEx depth.
Proof. reflexivity. Qed.

(** C3, as the code has it.  On a buffer that starts with the tag of a
    length-delimited field (wire type 2) whose length varint is [v]:
    [skipTx] fails with [ErrInvalidLengthTx] when the length read as a
    signed number is negative, and when adding it to the cursor wraps
    to a negative number; otherwise it succeeds and returns the cursor
    moved by the length, be that position inside the buffer or past
    its end.  The end of the buffer is checked by the caller: the
    [default] arm of [Unmarshal] answers a position past the end with
    [io.ErrUnexpectedEOF]. *)
Theorem skipTx_length_delimited (dAtA : list Z) (wire i v j : Z) :
  read_varint dAtA (len dAtA) 0 = Ok (wire, i) ->
  Z.land wire 0x7 = 2 ->
  read_varint dAtA (len dAtA) i = Ok (v, j) ->
  let length := wrap_int v in
  (length < 0 -> skipTx dAtA = Err ErrInvalidLengthTx)
  /\ (0 <= length -> wrap_int (j + length) < 0 ->
      skipTx dAtA = Err ErrInvalidLengthTx)
  /\ (0 <= length -> 0 <= wrap_int (j + length) ->
      skipTx dAtA = Ok (wrap_int (j + length))
      /\ (len dAtA < wrap_int (j + length) ->
          unmarshal_skip dAtA (len dAtA) 0 = Err ErrUnexpectedEOF)).
Proof.
  intros Htag Hwt Hlen length.
  pose proof (read_varint_progress _ _ _ _ _ Htag) as [Hl _].
  assert (Hstep : skipTx dAtA =
            if length <? 0 then Err ErrInvalidLengthTx
            else if wrap_int (j + length) <? 0 then Err ErrInvalidLengthTx
            else Ok (wrap_int (j + length))).
  { unfold skipTx. destruct (List.length dAtA) as [|fuel] eqn:Hfuel.
    { unfold len in Hl. lia. }
    rewrite skipTx_loop_eq.
    replace (len dAtA <=? 0) with false by (symmetry; apply Z.leb_gt; lia).
    rewrite Htag. cbn [obind]. rewrite Hwt. unfold skipTx_switch.
    cbn [Z.eqb Pos.eqb]. rewrite Hlen. cbn [obind]. fold length.
    destruct (length <? 0); [reflexivity|]. cbn [obind].
    destruct (wrap_int (j + length) <? 0); reflexivity. }
  assert (Hlt : forall a b, a < b -> (a <? b) = true) by (intros; now apply Z.ltb_lt).
  assert (Hge : forall a b, b <= a -> (a <? b) = false) by (intros; now apply Z.ltb_ge).
  split; [|split].
  - intros H. now rewrite Hstep, Hlt.
  - intros H1 H2. now rewrite Hstep, Hge, Hlt.
  - intros H1 H2. rewrite Hstep, !Hge by assumption. split; [reflexivity|].
    intros Hpast. unfold unmarshal_skip, slice_from. change (drop (Z.to_nat 0) dAtA) with dAtA.
    rewrite Hstep, !Hge by assumption.
    cbn [obind]. rewrite Z.add_0_l, wrap_int_idem.
    now rewrite !Hge, Hlt by assumption.
Qed.

Lemma skipTx_length_delimited_witness :
  read_varint [10; 5] (len [10; 5]) 0 = Ok (10, 1)
  /\ Z.land 10 0x7 = 2
  /\ read_varint [10; 5] (len [10; 5]) 1 = Ok (5, 2)
  /\ skipTx [10; 5] = Ok 7
  /\ unmarshal_skip [10; 5] (len [10; 5]) 0 = Err ErrUnexpectedEOF.
Proof.
  assert (H1 : read_varint [10; 5] (len [10; 5]) 0 = Ok (10, 1)) by reflexivity.
  assert (H2 : Z.land 10 0x7 = 2) by reflexivity.
  assert (H3 : read_varint [10; 5] (len [10; 5]) 1 = Ok (5, 2)) by reflexivity.
  destruct (skipTx_length_delimited [10; 5] 10 1 5 2 H1 H2 H3) as (_ & _ & H).
  destruct (H ltac:(vm_compute; discriminate) ltac:(vm_compute; discriminate))
    as [Hs Hu].
  exact (conj H1 (conj H2 (conj H3 (conj Hs (Hu eq_refl))))).
Defined.

(** The sentence of the design document does not hold: a length that exceeds the
    rest of the buffer is not answered with [ErrInvalidLengthTx], and
    [skipTx] returns a position past the end. *)
Lemma skipTx_past_end :
  let dAtA := [10; 5] in
  read_varint dAtA (len dAtA) 0 = Ok (10, 1)   (* tag: field 1, wire type 2 *)
  /\ read_varint dAtA (len dAtA) 1 = Ok (5, 2) (* length 5, no byte left *)
  /\ skipTx dAtA = Ok 7
  /\ skipTx dAtA <> Err ErrInvalidLengthTx
  /\ len dAtA < 7.
Proof. vm_compute. repeat split; congruence. Qed.

End SkipTx.

(** ** The loop of Unmarshal *)

Section UnmarshalLoop.
Import Go Tx Wire.

Lemma index_app_l pre rest i :
  0 <= i < len pre -> index (pre ++ rest) i = index pre i.
Proof.
  intros Hi. unfold index. apply app_nth1. unfold len in Hi. lia.
Qed.

(** Reading a varint only looks at the bytes it consumes: bytes added
    behind the buffer do not change it. *)
Lemma varint_loop_extend fuel : forall pre rest iNdEx shift acc v j,
  0 <= iNdEx ->
  varint_loop fuel pre (len pre) iNdEx shift acc = Ok (v, j) ->
  varint_loop fuel (pre ++ rest) (len (pre ++ rest)) iNdEx shift acc = Ok (v, j).
Proof.
  induction fuel as [|fuel IH]; intros pre rest iNdEx shift acc v j Hi;
    rewrite !varint_loop_eq;
    destruct (64 <=? shift); try discriminate;
    destruct (len pre <=? iNdEx) eqn:Hl; try discriminate;
    apply Z.leb_gt in Hl;
    (replace (len (pre ++ rest) <=? iNdEx) with false
      by (symmetry; apply Z.leb_gt; rewrite len_app;
          pose proof (len_nonneg rest); lia));
    cbv zeta; rewrite index_app_l by lia;
    destruct (index pre iNdEx <? 128); try discriminate; try (intros H; exact H).
  intros H. apply IH; [lia | exact H].
Qed.

Lemma read_varint_extend pre rest iNdEx v j :
  0 <= iNdEx ->
  read_varint pre (len pre) iNdEx = Ok (v, j) ->
  read_varint (pre ++ rest) (len (pre ++ rest)) iNdEx = Ok (v, j).
Proof. apply varint_loop_extend. Qed.

Context {Msg : Type}.
Variable name : string.
Variable switch : Msg -> list Z -> Z -> Z -> Z -> Z -> Z -> Msg * outcome Z.

(** One round of the loop. *)
Lemma Unmarshal_loop_eq fuel m dAtA l iNdEx :
  Unmarshal_loop name switch (S fuel) m dAtA l iNdEx =
  if l <=? iNdEx then
    if l <? iNdEx then (m, Err ErrUnexpectedEOF) else (m, Ok tt)
  else
    match read_varint dAtA l iNdEx with
    | Ok (wire, next) =>
      let fieldNum := wrap_int32 (Z.shiftr wire 3) in
      let wireType := Z.land wire 0x7 in
      if wireType =? 4 then (m, Err (ErrEndGroupNonGroup name))
      else if fieldNum <=? 0 then (m, Err (ErrIllegalTag name fieldNum wire))
      else
        match switch m dAtA l iNdEx next fieldNum wireType with
        | (m, Ok iNdEx) => Unmarshal_loop name switch fuel m dAtA l iNdEx
        | (m, Err e) => (m, Err e)
        | (m, Panic p) => (m, Panic p)
        | (m, OutOfFuel) => (m, OutOfFuel)
        end
    | Err e => (m, Err e)
    | Panic p => (m, Panic p)
    | OutOfFuel => (m, OutOfFuel)
    end.
Proof. reflexivity. Qed.

(** C8.  [pre] is the buffer up to the last byte of a tag that starts at
    [iNdEx]; [rest] is whatever follows it.  When the tag has wire type
    4, or a field number that is not positive, the loop of [Unmarshal]
    returns an error of the kind [IllegalTag] (the end-group error for
    wire type 4, which is tested first, the illegal-tag error
    otherwise), with the destination as it was at the start of the
    round and the same for every [rest]: no byte behind the tag is
    looked at.  With [iNdEx = 0] this is the whole call. *)
Theorem Unmarshal_illegal_tag (fuel : nat) (m : Msg) (pre rest : list Z)
    (iNdEx wire : Z) :
  0 <= iNdEx ->
  read_varint pre (len pre) iNdEx = Ok (wire, len pre) ->
  let fieldNum := wrap_int32 (Z.shiftr wire 3) in
  let wireType := Z.land wire 0x7 in
  wireType = 4 \/ fieldNum <= 0 ->
  let e := if wireType =? 4 then ErrEndGroupNonGroup name
           else ErrIllegalTag name fieldNum wire in
  error_kind e = Some IllegalTag
  /\ Unmarshal_loop name switch (S fuel) m (pre ++ rest) (len (pre ++ rest)) iNdEx
     = (m, Err e)
  /\ (iNdEx = 0 -> Unmarshal_with name switch m (pre ++ rest) = (m, Err e)).
Proof.
  intros Hi Htag fieldNum wireType Hbad e.
  pose proof (read_varint_progress _ _ _ _ _ Htag) as [Hlt _].
  assert (Hloop : forall fuel',
    Unmarshal_loop name switch (S fuel') m (pre ++ rest) (len (pre ++ rest)) iNdEx
    = (m, Err e)).
  { intros fuel'. rewrite Unmarshal_loop_eq.
    replace (len (pre ++ rest) <=? iNdEx) with false
      by (symmetry; apply Z.leb_gt; rewrite len_app;
          pose proof (len_nonneg rest); lia).
    rewrite (read_varint_extend pre rest iNdEx wire (len pre) Hi Htag).
    cbv zeta. fold wireType fieldNum. subst e.
    destruct (wireType =? 4) eqn:Hw; [reflexivity|].
    destruct Hbad as [Hbad|Hbad]; [apply Z.eqb_neq in Hw; contradiction|].
    now replace (fieldNum <=? 0) with true by (symmetry; apply Z.leb_le; lia). }
  split; [|split].
  - subst e. now destruct (wireType =? 4).
  - apply Hloop.
  - intros ->. unfold Unmarshal_with.
    destruct (length (pre ++ rest)) as [|n] eqn:Hn.
    + rewrite length_app in Hn. unfold len in Hlt. lia.
    + apply Hloop.
Qed.

End UnmarshalLoop.


Lemma Unmarshal_illegal_tag_witness :
  let m := MsgRevokeFeeAllowance.mk (Some [65]) None in
  Tx.read_varint [4] 1 0 = Ok (4, 1)
  /\ MsgRevokeFeeAllowance.Unmarshal m ([4] ++ [1; 2; 3])
     = (m, Err (ErrEndGroupNonGroup "MsgRevokeFeeAllowance"))
  /\ MsgRevokeFeeAllowance.Unmarshal m ([0] ++ [1; 2; 3])
     = (m, Err (ErrIllegalTag "MsgRevokeFeeAllowance" 0 0)).
Proof.
  intros m. split; [reflexivity|].
  assert (Hf : Go.wrap_int32 (Z.shiftr 0 3) <= 0) by (vm_compute; discriminate).
  pose proof (Unmarshal_illegal_tag "MsgRevokeFeeAllowance"
       MsgRevokeFeeAllowance.switch 0 m [4] [1; 2; 3] 0 4
       ltac:(lia) eq_refl (or_introl eq_refl)) as H4.
  pose proof (Unmarshal_illegal_tag "MsgRevokeFeeAllowance"
       MsgRevokeFeeAllowance.switch 0 m [0] [1; 2; 3] 0 0
       ltac:(lia) eq_refl (or_intror Hf)) as H0.
  cbv zeta in H4, H0.
  destruct H4 as (_ & _ & H4). destruct H0 as (_ & _ & H0).
  specialize (H4 eq_refl). specialize (H0 eq_refl).
  vm_compute in H4, H0. vm_compute. exact (conj H4 H0).
Defined.

(** C9.  Decoding is not atomic.  On the bytes [0a 01 41 04] (field 1 with
    the payload [41], then a tag of wire type 4) [Unmarshal] of
    [MsgRevokeFeeAllowance] returns an error, and the destination, empty
    before the call, keeps the [Granter] decoded from the well-formed
    prefix. *)
Theorem Unmarshal_not_atomic :
  exists (dAtA : list Z) (e : error) (m' : MsgRevokeFeeAllowance.t),
    MsgRevokeFeeAllowance.Unmarshal MsgRevokeFeeAllowance.zero dAtA = (m', Err e)
    /\ MsgRevokeFeeAllowance.Unmarshal MsgRevokeFeeAllowance.zero (take 3 dAtA)
       = (m', Ok tt)
    /\ MsgRevokeFeeAllowance.Granter m' = Some [65]
    /\ m' <> MsgRevokeFeeAllowance.zero.
Proof.
  exists [10; 1; 65; 4], (ErrEndGroupNonGroup "MsgRevokeFeeAllowance"),
    (MsgRevokeFeeAllowance.mk (Some [65]) None).
  split; [vm_compute; reflexivity|].
  split; [vm_compute; reflexivity|].
  split; [reflexivity|]. discriminate.
Qed.

(** ** The query router *)

Section RouterFacts.
Import Go Baseapp.
Context {Ctx Iface Srv : Type}.
Variable protoCodec_Marshal : Iface -> outcome (list Z).
Variable protoCodec_Unmarshal : list Z -> Iface -> Iface * outcome unit.

Local Abbreviation RegisterService := (RegisterService protoCodec_Marshal protoCodec_Unmarshal).
Local Abbreviation service_querier := (service_querier protoCodec_Marshal protoCodec_Unmarshal).
Local Abbreviation scan_methods := (scan_methods protoCodec_Marshal protoCodec_Unmarshal).
Local Abbreviation Invoke := (Invoke protoCodec_Marshal protoCodec_Unmarshal).

Lemma Route_insert (qrt : QueryRouter Ctx) path q path' :
  Route {| routes := <[path := q]> (routes qrt) |} path'
  = if decide (path = path') then q else Route qrt path'.
Proof.
  unfold Route. cbn [routes]. rewrite lookup_insert.
  destruct (decide (path = path')); reflexivity.
Qed.

(** C1, as the code has it.  [RegisterService] writes the map itself and
    does not go through [AddRoute]: whatever the service name and
    whatever the table holds, the entry of the service name becomes the
    closure of the descriptor and every other entry stays as it was; no
    check can fail.  [AddRoute] with the same name and closure panics
    when the name is not alphanumeric or is routed already, and makes
    the same table otherwise. *)
Theorem RegisterService_writes_route (qrt : QueryRouter Ctx)
    (sd : ServiceDesc Ctx Iface Srv) (handler : Srv) :
  let qrt' := RegisterService qrt sd handler in
  let q := service_querier sd handler in
  Route qrt' (ServiceName sd) = Some q
  /\ (forall path, path <> ServiceName sd -> Route qrt' path = Route qrt path)
  /\ (isAlphaNumeric (ServiceName sd) = false ->
      AddRoute qrt (ServiceName sd) (Some q) = Panic PanicNotAlphaNumeric)
  /\ (isAlphaNumeric (ServiceName sd) = true ->
      Route qrt (ServiceName sd) <> None ->
      AddRoute qrt (ServiceName sd) (Some q)
      = Panic (PanicRouteInitialized (ServiceName sd)))
  /\ (isAlphaNumeric (ServiceName sd) = true ->
      Route qrt (ServiceName sd) = None ->
      AddRoute qrt (ServiceName sd) (Some q) = Ok qrt').
Proof.
  intros qrt' q. subst qrt'. unfold RegisterService.
  split; [|split; [|split; [|split]]].
  - rewrite Route_insert. now rewrite decide_True.
  - intros path Hne. rewrite Route_insert. now rewrite decide_False.
  - intros Halnum. unfold AddRoute. now rewrite Halnum.
  - intros Halnum Hroute. unfold AddRoute. rewrite Halnum. cbn [negb].
    destruct (Route qrt (ServiceName sd)); [reflexivity | contradiction].
  - intros Halnum Hroute. unfold AddRoute. rewrite Halnum, Hroute. reflexivity.
Qed.

(** The scan of the method list. *)
Lemma scan_methods_none (mds : list (MethodDesc Ctx Iface Srv)) handler ctx path0 req :
  (forall md, In md mds -> MethodName md <> path0) ->
  scan_methods mds handler ctx path0 req = Err (ErrUnknownRequest path0).
Proof.
  induction mds as [|md mds IH]; intros Hno; [reflexivity|].
  cbn [Baseapp.scan_methods].
  destruct (String.eqb (MethodName md) path0) eqn:Heq.
  - apply String.eqb_eq in Heq. exfalso. apply (Hno md); [now left | exact Heq].
  - cbn [negb]. apply IH. intros md' Hin. apply Hno. now right.
Qed.

Lemma scan_methods_first (mds1 : list (MethodDesc Ctx Iface Srv)) md mds2 handler
    ctx path0 req :
  (forall md', In md' mds1 -> MethodName md' <> path0) ->
  MethodName md = path0 ->
  scan_methods (mds1 ++ md :: mds2) handler ctx path0 req
  = (do res <-- Handler md handler ctx (fun i => protoCodec_Unmarshal req i) ;;
     protoCodec_Marshal res).
Proof.
  induction mds1 as [|md1 mds1 IH]; intros Hno Hmd.
  - cbn [app Baseapp.scan_methods].
    now replace (String.eqb (MethodName md) path0) with true
      by (symmetry; now apply String.eqb_eq).
  - cbn [app Baseapp.scan_methods].
    destruct (String.eqb (MethodName md1) path0) eqn:Heq.
    + apply String.eqb_eq in Heq. exfalso. apply (Hno md1); [now left | exact Heq].
    + cbn [negb]. apply IH; [|exact Hmd]. intros md' Hin. apply Hno. now right.
Qed.

(** [Invoke] on a name of three segments. *)
Lemma Invoke_three (q : QueryServiceTestHelper Ctx) method args reply p0 p1 p2 :
  Split method "/" = [p0; p1; p2] ->
  Invoke q method args reply =
  match Route (router q) p1 with
  | None => (reply, Err (ErrHandlerNotFound p1))
  | Some querier =>
    or_return reply (protoCodec_Marshal args) (fun reqBz =>
    or_return reply (querier (ctx q) [p2] reqBz) (fun resBz =>
    protoCodec_Unmarshal resBz reply))
  end.
Proof. intros Hsplit. unfold Baseapp.Invoke. rewrite Hsplit. reflexivity. Qed.

(** C7.  [Invoke] on a method name and arguments whose encoding is
    [reqBz]: a name that does not split on "/" into three segments is
    refused as an unexpected method name; with three segments and no
    route under the second, the handler is not found; with the route of
    a registered service there and no method of the descriptor named
    like the third segment, the query path is unknown; and with such a
    method, the first of them is called with a decoder of [reqBz], its
    error returned, or its response encoded, and that encoding decoded
    into [reply]. *)
Theorem Invoke_cases (q : QueryServiceTestHelper Ctx) (method : string)
    (args reply : Iface) :
  (length (Split method "/") <> 3%nat ->
     Invoke q method args reply = (reply, Err (ErrUnexpectedMethodName method)))
  /\ (forall p0 p1 p2,
     Split method "/" = [p0; p1; p2] -> Route (router q) p1 = None ->
     Invoke q method args reply = (reply, Err (ErrHandlerNotFound p1)))
  /\ (forall p0 p1 p2 (sd : ServiceDesc Ctx Iface Srv) handler reqBz,
     Split method "/" = [p0; p1; p2] ->
     Route (router q) p1 = Some (service_querier sd handler) ->
     protoCodec_Marshal args = Ok reqBz ->
     (forall md, In md (Methods sd) -> MethodName md <> p2) ->
     Invoke q method args reply = (reply, Err (ErrUnknownRequest p2)))
  /\ (forall p0 p1 p2 (sd : ServiceDesc Ctx Iface Srv) handler reqBz mds1 md mds2,
     Split method "/" = [p0; p1; p2] ->
     Route (router q) p1 = Some (service_querier sd handler) ->
     protoCodec_Marshal args = Ok reqBz ->
     Methods sd = mds1 ++ md :: mds2 ->
     (forall md', In md' mds1 -> MethodName md' <> p2) ->
     MethodName md = p2 ->
     Invoke q method args reply =
     or_return reply
       (do res <-- Handler md handler (ctx q)
                     (fun i => protoCodec_Unmarshal reqBz i) ;;
        protoCodec_Marshal res)
       (fun resBz => protoCodec_Unmarshal resBz reply)).
Proof.
  split; [|split; [|split]].
  - intros Hlen. unfold Baseapp.Invoke.
    replace (len (Split method "/") =? 3) with false; [reflexivity|].
    symmetry. apply Z.eqb_neq. unfold len. lia.
  - intros p0 p1 p2 Hsplit Hroute.
    now rewrite (Invoke_three _ _ _ _ _ _ _ Hsplit), Hroute.
  - intros p0 p1 p2 sd handler reqBz Hsplit Hroute Hreq Hno.
    rewrite (Invoke_three _ _ _ _ _ _ _ Hsplit), Hroute, Hreq.
    cbn [or_return]. unfold Baseapp.service_querier.
    now rewrite scan_methods_none.
  - intros p0 p1 p2 sd handler reqBz mds1 md mds2 Hsplit Hroute Hreq Hm Hno Hmd.
    rewrite (Invoke_three _ _ _ _ _ _ _ Hsplit), Hroute, Hreq.
    cbn [or_return]. unfold Baseapp.service_querier.
    rewrite Hm. now rewrite scan_methods_first.
Qed.

(** C10.  Of a method name of three segments [Invoke] uses the second
    as the key of the route and the third as the method: two names that
    differ in the first segment only are dispatched alike. *)
Theorem Invoke_ignores_first_segment (q : QueryServiceTestHelper Ctx)
    (method method' : string) (args reply : Iface) (p0 p0' p1 p2 : string) :
  Split method "/" = [p0; p1; p2] ->
  Split method' "/" = [p0'; p1; p2] ->
  Invoke q method args reply = Invoke q method' args reply
  /\ Invoke q method args reply =
     match Route (router q) p1 with
     | None => (reply, Err (ErrHandlerNotFound p1))
     | Some querier =>
       or_return reply (protoCodec_Marshal args) (fun reqBz =>
       or_return reply (querier (ctx q) [p2] reqBz) (fun resBz =>
       protoCodec_Unmarshal resBz reply))
     end.
Proof.
  intros H H'. split.
  - now rewrite (Invoke_three _ _ _ _ _ _ _ H), (Invoke_three _ _ _ _ _ _ _ H').
  - apply (Invoke_three _ _ _ _ _ _ _ H).
Qed.

End RouterFacts.

Section RouterExamples.
Import Go Baseapp Feegrant Examples.

Local Abbreviation M := (@protoCodec_Marshal OpaqueAny).
Local Abbreviation U := (@protoCodec_Unmarshal OpaqueAny).
Local Abbreviation revoke_args :=
  (Revoke (MsgRevokeFeeAllowance.mk (Some [65]) (Some [66]))).
Local Abbreviation empty_reply := (RevokeResponse MsgRevokeFeeAllowanceResponse.zero).

Lemma RegisterService_writes_route_witness :
  let sd := @_Msg_serviceDesc OpaqueAny unit in
  let q := service_querier M U sd UnimplementedMsgServer in
  isAlphaNumeric (ServiceName sd) = false
  /\ Route (RegisterService M U NewQueryRouter sd UnimplementedMsgServer)
       (ServiceName sd) = Some q
  /\ AddRoute NewQueryRouter (ServiceName sd) (Some q) = Panic PanicNotAlphaNumeric.
Proof.
  intros sd q.
  assert (Hname : isAlphaNumeric (ServiceName sd) = false) by (vm_compute; reflexivity).
  destruct (RegisterService_writes_route M U NewQueryRouter sd UnimplementedMsgServer)
    as (Hroute & _ & Hpanic & _).
  exact (conj Hname (conj Hroute (Hpanic Hname))).
Defined.

(** The sentence of the design document does not hold on the descriptor of
    tx.proto itself: its name has dots, [AddRoute] would panic on it,
    and [RegisterService] enters it in the table; and a second
    registration under a name that is routed already, on which
    [AddRoute] would panic, replaces the first closure by one that
    answers differently. *)
Lemma RegisterService_not_AddRoute :
  let sd := @_Msg_serviceDesc OpaqueAny unit in
  let q := service_querier M U sd UnimplementedMsgServer in
  let q1 := service_querier M U svc_serviceDesc UnimplementedMsgServer in
  let q2 := service_querier M U svc_serviceDesc AcceptingMsgServer in
  let qrt1 := RegisterService M U NewQueryRouter svc_serviceDesc UnimplementedMsgServer in
  let qrt2 := RegisterService M U qrt1 svc_serviceDesc AcceptingMsgServer in
  ServiceName sd = "cosmos.feegrant.v1beta1.Msg"
  /\ AddRoute NewQueryRouter (ServiceName sd) (Some q) = Panic PanicNotAlphaNumeric
  /\ Route (RegisterService M U NewQueryRouter sd UnimplementedMsgServer)
       (ServiceName sd) = Some q
  /\ Route qrt1 "svc" = Some q1
  /\ AddRoute qrt1 "svc" (Some q2) = Panic (PanicRouteInitialized "svc")
  /\ Route qrt2 "svc" = Some q2
  /\ q1 tt ["Do"] [] = Err (ErrExternal "method RevokeFeeAllowance not implemented")
  /\ q2 tt ["Do"] [] = Ok [].
Proof.
  intros sd q q1 q2 qrt1 qrt2.
  split; [reflexivity|].
  split; [reflexivity|].
  split; [unfold Route, RegisterService; cbn [routes]; now rewrite lookup_insert_eq|].
  assert (H1 : Route qrt1 "svc" = Some q1)
    by (unfold Route, qrt1, RegisterService; cbn [routes];
        now rewrite lookup_insert_eq).
  split; [exact H1|].
  split; [unfold AddRoute; rewrite H1; reflexivity|].
  split; [unfold Route, qrt2, RegisterService; cbn [routes];
          now rewrite lookup_insert_eq|].
  split; vm_compute; reflexivity.
Qed.

Lemma Invoke_cases_witness :
  let q := helper_with svc_serviceDesc AcceptingMsgServer in
  Invoke M U q "badpath" revoke_args empty_reply
    = (empty_reply, Err (ErrUnexpectedMethodName "badpath"))
  /\ Invoke M U q "/nosuch/Do" revoke_args empty_reply
    = (empty_reply, Err (ErrHandlerNotFound "nosuch"))
  /\ Invoke M U q "/svc/NoSuchMethod" revoke_args empty_reply
    = (empty_reply, Err (ErrUnknownRequest "NoSuchMethod"))
  /\ Invoke M U q "/svc/Do" revoke_args empty_reply = (empty_reply, Ok tt).
Proof.
  intros q.
  assert (Hroute : Route (router q) "svc"
            = Some (service_querier M U svc_serviceDesc AcceptingMsgServer))
    by (unfold Route, q, helper_with, RegisterService; cbn [router routes];
        now rewrite lookup_insert_eq).
  assert (Hnone : Route (router q) "nosuch" = None)
    by (unfold Route, q, helper_with, RegisterService, NewQueryRouter;
        cbn [router routes];
        rewrite lookup_insert_ne by discriminate; now rewrite lookup_empty).
  assert (Hreq : M revoke_args = Ok [10; 1; 65; 18; 1; 66]) by (vm_compute; reflexivity).
  split; [|split; [|split]].
  - apply (proj1 (Invoke_cases (Srv := MsgServer unit) M U q "badpath" revoke_args empty_reply)).
    vm_compute. discriminate.
  - apply (proj1 (proj2 (Invoke_cases (Srv := MsgServer unit) M U q "/nosuch/Do" revoke_args empty_reply))
             "" "nosuch" "Do" eq_refl Hnone).
  - apply (proj1 (proj2 (proj2
             (Invoke_cases (Srv := MsgServer unit) M U q "/svc/NoSuchMethod" revoke_args empty_reply)))
             "" "svc" "NoSuchMethod" svc_serviceDesc AcceptingMsgServer
             _ eq_refl Hroute Hreq).
    intros md [<-|[]]. discriminate.
  - pose proof (proj2 (proj2 (proj2
             (Invoke_cases (Srv := MsgServer unit) M U q "/svc/Do" revoke_args empty_reply)))
             "" "svc" "Do" svc_serviceDesc AcceptingMsgServer
             _ [] _ [] eq_refl Hroute Hreq eq_refl
             ltac:(intros ? []) eq_refl) as H.
    rewrite H. vm_compute. reflexivity.
Defined.

Lemma Invoke_ignores_first_segment_witness :
  let q := helper_with svc_serviceDesc AcceptingMsgServer in
  Split "x/svc/Do" "/" = ["x"; "svc"; "Do"]
  /\ Split "/svc/Do" "/" = [""; "svc"; "Do"]
  /\ Invoke M U q "x/svc/Do" revoke_args empty_reply
     = Invoke M U q "/svc/Do" revoke_args empty_reply.
Proof.
  intros q. split; [reflexivity|]. split; [reflexivity|].
  exact (proj1 (Invoke_ignores_first_segment M U q "x/svc/Do" "/svc/Do"
                  revoke_args empty_reply "x" "" "svc" "Do" eq_refl eq_refl)).
Defined.

End RouterExamples.

(** ** Writing into the sized buffer *)

Section WriteFacts.
Import Go Tx Wire.

Lemma len_nil {A} : len (@nil A) = 0.
Proof. reflexivity. Qed.

Lemma store_app pre x suf b :
  store (pre ++ x :: suf) (len pre) b = Ok (pre ++ b :: suf).
Proof.
  unfold store.
  replace ((0 <=? len pre) && (len pre <? len (pre ++ x :: suf))) with true.
  - f_equal. unfold len. rewrite Nat2Z.id.
    rewrite insert_app_r_alt by lia. now rewrite Nat.sub_diag.
  - symmetry. apply andb_true_iff. split.
    + apply Z.leb_le, len_nonneg.
    + apply Z.ltb_lt. rewrite len_app, len_cons. pose proof (len_nonneg suf). lia.
Qed.

Lemma copy_at_app pre old suf src :
  length old = length src ->
  copy_at (pre ++ old ++ suf) (len pre) src = Ok (pre ++ src ++ suf).
Proof.
  intros Hlen. unfold copy_at.
  assert (Hold : len old = len src) by (unfold len; lia).
  pose proof (len_nonneg pre). pose proof (len_nonneg suf). pose proof (len_nonneg src).
  replace ((0 <=? len pre) && (len pre <=? len (pre ++ old ++ suf))) with true
    by (symmetry; apply andb_true_iff; split; apply Z.leb_le;
        rewrite ?len_app; lia).
  rewrite !len_app, Hold.
  replace (Z.min (len pre + (len src + len suf) - len pre) (len src)) with (len src)
    by lia.
  f_equal. unfold len. rewrite <- Nat2Z.inj_add, !Nat2Z.id.
  rewrite take_app_length, firstn_all.
  do 2 f_equal. rewrite <- Hlen, app_assoc, <- length_app.
  apply drop_app_length.
Qed.

Lemma prefix_all dAtA : prefix dAtA (len dAtA) = Ok dAtA.
Proof.
  unfold prefix. pose proof (len_nonneg dAtA).
  replace ((0 <=? len dAtA) && (len dAtA <=? len dAtA)) with true
    by (symmetry; apply andb_true_iff; split; apply Z.leb_le; lia).
  f_equal. unfold len. rewrite Nat2Z.id. apply firstn_all.
Qed.

Lemma len_make n : 0 <= n -> len (make n) = n.
Proof. intros Hn. unfold len, make. rewrite length_replicate. lia. Qed.

(** The byte the loop of [encodeVarintTx] stores for a group. *)
Lemma group_byte v :
  wrap_uint8 (Z.lor (Z.land v 0x7f) 0x80) = v mod 128 + 128.
Proof.
  rewrite land_127. pose proof (Z.mod_pos_bound v 128 ltac:(lia)).
  change 128 with (1 * 2 ^ 7) at 2. rewrite lor_disjoint by (simpl; lia).
  apply wrap_uint8_small. simpl. lia.
Qed.

Lemma pow7_succ n : 2 ^ (7 * (Z.of_nat (S n) + 1)) = 128 * 2 ^ (7 * (Z.of_nat n + 1)).
Proof.
  replace (7 * (Z.of_nat (S n) + 1)) with (7 + 7 * (Z.of_nat n + 1)) by lia.
  now rewrite Z.pow_add_r by lia.
Qed.

(** [sovTx] is the number of bytes of the varint. *)
Lemma sovTx_small v : 0 <= v < 128 -> sovTx v = 1.
Proof.
  intros Hv. unfold sovTx, Len64.
  assert (Hpos : 0 < Z.lor v 1).
  { assert (0 <= Z.lor v 1) by (apply Z.lor_nonneg; lia).
    assert (Z.lor v 1 <> 0); [|lia].
    intros H0. apply Z.lor_eq_0_iff in H0. lia. }
  assert (Hlog : Z.log2 (Z.lor v 1) < 7).
  { rewrite Z.log2_lor by lia. change (Z.log2 1) with 0.
    destruct (Z.eq_dec v 0) as [->|Hne]; [reflexivity|].
    assert (Z.log2 v < 7) by (apply Z.log2_lt_pow2; [lia | simpl; lia]).
    pose proof (Z.log2_nonneg v). lia. }
  replace (Z.lor v 1 =? 0) with false by (symmetry; apply Z.eqb_neq; lia).
  assert (0 <= Z.log2 (Z.lor v 1)) by apply Z.log2_nonneg.
  assert (7 * 1 <= Z.log2 (Z.lor v 1) + 1 + 6 < 7 * 2) by lia.
  symmetry. apply Z.div_unique with (Z.log2 (Z.lor v 1) + 1 + 6 - 7); lia.
Qed.

Lemma sovTx_step v : 128 <= v -> sovTx v = 1 + sovTx (v / 128).
Proof.
  intros Hv. unfold sovTx, Len64.
  assert (Hdiv : 1 <= v / 128) by (apply Z.div_le_lower_bound; lia).
  assert (Hlor : forall x, 1 <= x -> Z.log2 (Z.lor x 1) = Z.log2 x /\ Z.lor x 1 <> 0).
  { intros x Hx. split.
    - rewrite Z.log2_lor by lia. change (Z.log2 1) with 0.
      pose proof (Z.log2_nonneg x). lia.
    - intros H0. apply Z.lor_eq_0_iff in H0. lia. }
  destruct (Hlor v ltac:(lia)) as [-> Hnz].
  destruct (Hlor (v / 128) Hdiv) as [-> Hnz'].
  replace (Z.lor v 1 =? 0) with false by (symmetry; now apply Z.eqb_neq).
  replace (Z.lor (v / 128) 1 =? 0) with false by (symmetry; now apply Z.eqb_neq).
  change 128 with (2 ^ 7). rewrite <- Z.shiftr_div_pow2 by lia.
  rewrite Z.log2_shiftr by lia.
  assert (7 <= Z.log2 v) by (apply Z.log2_le_pow2; simpl; lia).
  rewrite Z.max_r by lia.
  replace (Z.log2 v + 1 + 6) with (Z.log2 v - 7 + 1 + 6 + 1 * 7) by lia.
  rewrite Z.div_add by lia. lia.
Qed.

Lemma sovTx_varint n : forall v,
  0 <= v < 2 ^ (7 * (Z.of_nat n + 1)) -> len (varint n v) = sovTx v.
Proof.
  induction n as [|n IH]; intros v Hv.
  - change (2 ^ (7 * (Z.of_nat 0 + 1))) with 128 in Hv.
    cbn [varint]. replace (128 <=? v) with false by (symmetry; apply Z.leb_gt; lia).
    now rewrite sovTx_small.
  - cbn [varint]. destruct (128 <=? v) eqn:Hc.
    + apply Z.leb_le in Hc. rewrite len_cons, sovTx_step by lia.
      rewrite IH; [reflexivity|]. rewrite pow7_succ in Hv.
      split; [apply Z.div_pos; lia | apply Z.div_lt_upper_bound; lia].
    + apply Z.leb_gt in Hc. now rewrite sovTx_small by lia.
Qed.

Lemma pow2_64_70 : 2 ^ 64 < 2 ^ (7 * (Z.of_nat 9 + 1)).
Proof. reflexivity. Qed.

Lemma sovTx_varint9 v : 0 <= v < 2 ^ 64 -> len (varint 9 v) = sovTx v.
Proof. intros Hv. apply sovTx_varint. pose proof pow2_64_70. lia. Qed.

Lemma sovTx_bound v : 0 <= v < 2 ^ 64 -> 1 <= sovTx v <= 10.
Proof.
  intros Hv. rewrite <- sovTx_varint9 by assumption.
  assert (forall n x, 0 <= x < 2 ^ (7 * (Z.of_nat n + 1)) ->
            (1 <= length (varint n x) <= S n)%nat) as Hlen.
  { induction n as [|n IH]; intros x Hx; cbn [varint];
      destruct (128 <=? x) eqn:Hc; simpl length; try lia.
    apply Z.leb_le in Hc. rewrite pow7_succ in Hx.
      assert (0 <= x / 128 < 2 ^ (7 * (Z.of_nat n + 1)))
        by (split; [apply Z.div_pos; lia | apply Z.div_lt_upper_bound; lia]).
      specialize (IH (x / 128) ltac:(assumption)). lia. }
  specialize (Hlen 9%nat v ltac:(pose proof pow2_64_70; lia)). unfold len. lia.
Qed.

(** The loop of [encodeVarintTx] writes the varint over the bytes at
    its offset. *)
Lemma encodeVarintTx_loop_app fuel : forall pre old suf v,
  0 <= v < 2 ^ (7 * (Z.of_nat fuel + 1)) ->
  length old = length (varint fuel v) ->
  len (pre ++ old ++ suf) < 2 ^ 63 ->
  encodeVarintTx_loop fuel (pre ++ old ++ suf) (len pre) v
  = Ok (pre ++ varint fuel v ++ suf).
Proof.
  assert (Hlast : forall pre old suf v, 0 <= v < 128 -> length old = 1%nat ->
            store (pre ++ old ++ suf) (len pre) (wrap_uint8 v) = Ok (pre ++ [v] ++ suf)).
  { intros pre old suf v Hv Hold.
    destruct old as [|o [|]]; try discriminate.
    rewrite wrap_uint8_small by lia. apply store_app. }
  induction fuel as [|fuel IH]; intros pre old suf v Hv Hold Hlen.
  - change (2 ^ (7 * (Z.of_nat 0 + 1))) with 128 in Hv.
    cbn [encodeVarintTx_loop varint] in *.
    replace (128 <=? v) with false in * by (symmetry; apply Z.leb_gt; lia).
    now apply Hlast.
  - cbn [encodeVarintTx_loop varint] in *. destruct (128 <=? v) eqn:Hc.
    + apply Z.leb_le in Hc. destruct old as [|o old]; [discriminate|].
      simpl in Hold. injection Hold as Hold.
      change ((o :: old) ++ suf) with (o :: old ++ suf).
      rewrite group_byte, store_app. cbn [obind].
      change 128 with (2 ^ 7) at 3. rewrite Z.shiftr_div_pow2 by lia.
      change (2 ^ 7) with 128.
      assert (Hpre : wrap_int (len pre + 1) = len (pre ++ [v mod 128 + 128])).
      { rewrite len_app, len_cons, len_nil. apply wrap_int_small. len_lia. }
      rewrite Hpre.
      change (pre ++ v mod 128 + 128 :: old ++ suf)
        with (pre ++ [v mod 128 + 128] ++ old ++ suf).
      rewrite app_assoc, IH.
      * now rewrite <- app_assoc.
      * rewrite pow7_succ in Hv.
        split; [apply Z.div_pos; lia | apply Z.div_lt_upper_bound; lia].
      * exact Hold.
      * len_lia.
    + apply Z.leb_gt in Hc. apply Hlast; [lia | exact Hold].
Qed.

Lemma encodeVarintTx_app pre old suf v :
  0 <= v < 2 ^ 64 ->
  length old = length (varint 9 v) ->
  len (pre ++ old ++ suf) < 2 ^ 63 ->
  encodeVarintTx (pre ++ old ++ suf) (len pre + len old) v
  = Ok (pre ++ varint 9 v ++ suf, len pre).
Proof.
  intros Hv Hold Hlen. unfold encodeVarintTx.
  assert (Hs : len old = sovTx v)
    by (rewrite <- sovTx_varint9 by assumption; unfold len; lia).
  replace (wrap_int (len pre + len old - sovTx v)) with (len pre).
  - rewrite encodeVarintTx_loop_app; [reflexivity | | assumption..].
    pose proof pow2_64_70. lia.
  - symmetry. rewrite Hs. replace (len pre + sovTx v - sovTx v) with (len pre) by lia.
    apply wrap_int_small. len_lia.
Qed.

End WriteFacts.

Section MarshalFacts.
Import Go Tx Wire.

Lemma flen_fdata f : flen f = len (fdata f).
Proof. now destruct f. Qed.

Lemma len_field tag p : len (field tag p) = 1 + len (varint 9 (len p)) + len p.
Proof. unfold field. rewrite len_cons, len_app. lia. Qed.

(** The block of a [bytes] field writes the field in front of what has
    been written, over the bytes that were there. *)
Lemma marshal_bytes_app tag f pre old suf :
  length old = length (bytes_field tag f) ->
  len (pre ++ old ++ suf) < 2 ^ 63 ->
  marshal_bytes tag f (pre ++ old ++ suf) (len pre + len old)
  = Ok (pre ++ bytes_field tag f ++ suf, len pre).
Proof.
  intros Hold Hlen. unfold marshal_bytes, bytes_field in *.
  destruct (flen f >? 0) eqn:Hf.
  - rewrite flen_fdata in *. set (p := fdata f) in *.
    unfold field in *.
    destruct old as [|o old]; [discriminate|].
    cbn [length] in Hold. apply Nat.succ_inj in Hold. rewrite length_app in Hold.
    set (n := length (varint 9 (len p))) in *.
    rewrite <- (take_drop n old).
    set (ov := take n old). set (op := drop n old).
    assert (Hov : length ov = n) by (subst ov; rewrite length_take; lia).
    assert (Hop : length op = length p) by (subst op; rewrite length_drop; lia).
    assert (Hp : 0 <= len p < 2 ^ 63).
    { split; [apply len_nonneg|]. rewrite <- (take_drop n old) in Hlen.
      fold ov op in Hlen. len_lia. }
    assert (Hlen' : len (pre ++ (o :: ov ++ op) ++ suf) < 2 ^ 63).
    { rewrite <- (take_drop n old) in Hlen. exact Hlen. }
    clear Hlen.
    (* i -= len(m.F); copy(dAtA[i:], m.F) *)
    replace (wrap_int (len pre + len (o :: ov ++ op) - len p))
      with (len (pre ++ o :: ov))
      by (symmetry; rewrite wrap_int_small; len_lia).
    replace (pre ++ (o :: ov ++ op) ++ suf) with ((pre ++ o :: ov) ++ op ++ suf)
      by app_eq.
    rewrite copy_at_app by exact Hop. cbn [obind].
    (* i = encodeVarintTx(dAtA, i, uint64(len(m.F))) *)
    rewrite wrap_uint64_small by lia.
    replace ((pre ++ o :: ov) ++ p ++ suf) with ((pre ++ [o]) ++ ov ++ p ++ suf)
      by app_eq.
    replace (len (pre ++ o :: ov)) with (len (pre ++ [o]) + len ov) by len_lia.
    rewrite encodeVarintTx_app;
      [| lia | exact Hov | revert Hlen'; len_lia].
    cbn [obind].
    (* i--; dAtA[i] = tag *)
    replace (wrap_int (len (pre ++ [o]) - 1)) with (len pre)
      by (symmetry; rewrite wrap_int_small; len_lia).
    rewrite <- app_assoc. cbn [app].
    rewrite store_app. cbn [obind]. do 2 f_equal. app_eq.
  - destruct old; [|discriminate]. rewrite len_nil, Z.add_0_r. reflexivity.
Qed.

Lemma size_bytes_len tag f n :
  0 <= n -> n + len (bytes_field tag f) < 2 ^ 63 ->
  size_bytes f n = n + len (bytes_field tag f).
Proof.
  intros Hn Hlen. unfold size_bytes, bytes_field in *.
  destruct (flen f >? 0) eqn:Hf; [|rewrite len_nil; lia].
  rewrite len_field in *. rewrite flen_fdata in *.
  set (l := len (fdata f)) in *.
  assert (0 <= l) by apply len_nonneg.
  pose proof (len_nonneg (varint 9 l)).
  rewrite wrap_uint64_small by lia.
  rewrite <- sovTx_varint9 by lia.
  rewrite wrap_int_small; lia.
Qed.

End MarshalFacts.

Section RevokeMarshal.
Import Go Tx Wire MsgRevokeFeeAllowance.

Lemma Revoke_Size m :
  len (MsgRevoke m) < 2 ^ 63 -> Size m = len (MsgRevoke m).
Proof.
  unfold MsgRevoke, Size. rewrite len_app. intros Hlen.
  pose proof (len_nonneg (bytes_field 10 (Granter m))).
  pose proof (len_nonneg (bytes_field 18 (Grantee m))).
  cbv zeta.
  rewrite (size_bytes_len 0xa (Granter m) 0) by lia.
  rewrite (size_bytes_len 0x12 (Grantee m)) by lia. lia.
Qed.

(** [MarshalToSizedBuffer] writes the encoding over the end of the
    buffer. *)
Lemma Revoke_MarshalToSizedBuffer m pre old :
  length old = length (MsgRevoke m) ->
  len (pre ++ old) < 2 ^ 63 ->
  MarshalToSizedBuffer m (pre ++ old)
  = Ok (pre ++ MsgRevoke m, len (MsgRevoke m)).
Proof.
  intros Hold Hlen. unfold MarshalToSizedBuffer, MsgRevoke in *.
  rewrite length_app in Hold.
  set (n1 := length (bytes_field 10 (Granter m))) in *.
  rewrite <- (take_drop n1 old) in Hlen |- *.
  set (o1 := take n1 old) in *. set (o2 := drop n1 old) in *.
  assert (Ho1 : length o1 = n1) by (subst o1; rewrite length_take; lia).
  assert (Ho2 : length o2 = length (bytes_field 18 (Grantee m)))
    by (subst o2; rewrite length_drop; lia).
  replace (len (pre ++ o1 ++ o2)) with (len (pre ++ o1) + len o2) by len_lia.
  replace (pre ++ o1 ++ o2) with ((pre ++ o1) ++ o2 ++ []) at 1
    by app_eq.
  rewrite marshal_bytes_app;
    [| exact Ho2 | rewrite app_nil_r, <- app_assoc; exact Hlen].
  cbn [obind]. rewrite app_nil_r.
  replace (len (pre ++ o1)) with (len pre + len o1) by len_lia.
  rewrite <- app_assoc.
  rewrite marshal_bytes_app; [| exact Ho1 | revert Hlen; len_lia].
  cbn [obind]. do 2 f_equal.
  rewrite wrap_int_small; revert Hlen; len_lia.
Qed.

Lemma Revoke_Marshal m :
  len (MsgRevoke m) < 2 ^ 63 -> Marshal m = Ok (MsgRevoke m).
Proof.
  intros Hlen. unfold Marshal. rewrite Revoke_Size by assumption.
  pose proof (len_nonneg (MsgRevoke m)) as Hn.
  unfold make_bytes.
  replace (len (MsgRevoke m) <? 0) with false by (symmetry; apply Z.ltb_ge; lia).
  cbn [obind].
  rewrite <- (len_make (len (MsgRevoke m))) at 2 by lia.
  rewrite prefix_all. cbn [obind].
  rewrite <- (app_nil_l (make _)).
  rewrite Revoke_MarshalToSizedBuffer.
  - cbn [obind app]. apply prefix_all.
  - unfold make. rewrite length_replicate. unfold len. lia.
  - rewrite app_nil_l, len_make; lia.
Qed.

End RevokeMarshal.

(** ** Reading what was written *)

Section ReadBack.
Import Go Tx Wire.

(** The varint of [v] is a run of bytes with the continuation bit and a
    last byte without it, and its groups make [v]. *)
Lemma varint_split n : forall v,
  0 <= v < 2 ^ (7 * (Z.of_nat n + 1)) ->
  exists cs b,
    varint n v = cs ++ [b] /\ Forall (fun c => 128 <= c) cs /\ b < 128
    /\ (length cs <= n)%nat /\ le_groups (cs ++ [b]) = v.
Proof.
  assert (Hsmall : forall (k : nat) v, 0 <= v < 128 ->
    exists cs b,
      [v] = cs ++ [b] /\ Forall (fun c => 128 <= c) cs /\ b < 128
      /\ (length cs <= k)%nat /\ le_groups (cs ++ [b]) = v).
  { intros k v Hv. exists [], v.
    split; [reflexivity|]. split; [apply Forall_nil_2|]. split; [lia|].
    split; [simpl; lia|].
    cbn [app le_groups]. rewrite land_127, Z.mod_small; lia. }
  induction n as [|n IH]; intros v Hv.
  - change (2 ^ (7 * (Z.of_nat 0 + 1))) with 128 in Hv.
    cbn [varint].
    replace (128 <=? v) with false by (symmetry; apply Z.leb_gt; lia).
    now apply Hsmall.
  - cbn [varint]. destruct (128 <=? v) eqn:Hc.
    + apply Z.leb_le in Hc. rewrite pow7_succ in Hv.
      destruct (IH (v / 128)) as (cs & b & Heq & Hcs & Hb & Hlen & Hval).
      { split; [apply Z.div_pos; lia | apply Z.div_lt_upper_bound; lia]. }
      exists ((v mod 128 + 128) :: cs), b. rewrite Heq.
      pose proof (Z.mod_pos_bound v 128 ltac:(lia)) as Hm.
      split; [reflexivity|].
      split; [apply Forall_cons_2; [lia | exact Hcs]|].
      split; [exact Hb|]. split; [simpl; lia|].
      cbn [app le_groups]. rewrite Hval, land_127.
      replace ((v mod 128 + 128) mod 128) with (v mod 128).
      * change (2 ^ 7) with 128. pose proof (Z.div_mod v 128). lia.
      * replace (v mod 128 + 128) with (v mod 128 + 1 * 128) by lia.
        rewrite Z.mod_add by lia. symmetry. apply Z.mod_small. lia.
    + apply Z.leb_gt in Hc. apply Hsmall. lia.
Qed.

Lemma read_varint_varint pre v rest :
  0 <= v < 2 ^ 64 ->
  read_varint (pre ++ varint 9 v ++ rest) (len (pre ++ varint 9 v ++ rest)) (len pre)
  = Ok (v, len pre + len (varint 9 v)).
Proof.
  intros Hv.
  destruct (varint_split 9 v) as (cs & b & -> & Hcs & Hb & Hlen & Hval).
  { pose proof pow2_64_70. lia. }
  rewrite <- app_assoc. cbn [app].
  rewrite read_varint_value by (assumption || lia).
  rewrite Hval, Z.mod_small by lia. do 2 f_equal. len_lia.
Qed.

Lemma read_varint_tag pre tag rest :
  0 <= tag < 128 ->
  read_varint (pre ++ tag :: rest) (len (pre ++ tag :: rest)) (len pre)
  = Ok (tag, len pre + 1).
Proof.
  intros Ht.
  pose proof (read_varint_value pre [] tag rest) as H. cbn [app] in H.
  rewrite H by first [apply Forall_nil_2 | simpl; lia].
  cbn [le_groups]. rewrite land_127, (@len_nil Z).
  rewrite (Z.mod_small tag 128) by lia.
  rewrite Z.mul_0_r, !Z.add_0_r. rewrite Z.mod_small by lia. reflexivity.
Qed.

Lemma slice_app pre p rest :
  slice (pre ++ p ++ rest) (len pre) (len pre + len p) = p.
Proof.
  unfold slice, len.
  replace (Z.of_nat (length pre) + Z.of_nat (length p) - Z.of_nat (length pre))
    with (Z.of_nat (length p)) by lia.
  rewrite !Nat2Z.id, drop_app_length. apply take_app_length.
Qed.

(** The length and the payload of a field that follows its tag. *)
Lemma read_length_field pre p rest :
  let dAtA := pre ++ varint 9 (len p) ++ p ++ rest in
  len dAtA < 2 ^ 63 ->
  read_length dAtA (len dAtA) (len pre)
  = Ok (len pre + len (varint 9 (len p)),
        len pre + len (varint 9 (len p)) + len p).
Proof.
  intros dAtA Hlen. subst dAtA. unfold read_length.
  assert (Hp : 0 <= len p < 2 ^ 63) by (split; [apply len_nonneg | len_lia]).
  rewrite read_varint_varint by lia. cbn [obind].
  rewrite (wrap_int_small (len p)) by lia.
  replace (len p <? 0) with false by (symmetry; apply Z.ltb_ge; lia).
  rewrite wrap_int_small by len_lia.
  replace (len pre + len (varint 9 (len p)) + len p <? 0) with false
    by (symmetry; apply Z.ltb_ge; len_lia).
  replace (len (pre ++ varint 9 (len p) ++ p ++ rest)
           <? len pre + len (varint 9 (len p)) + len p) with false
    by (symmetry; apply Z.ltb_ge; len_lia).
  reflexivity.
Qed.

Lemma unmarshal_bytes_field name pre p rest :
  let dAtA := pre ++ varint 9 (len p) ++ p ++ rest in
  len dAtA < 2 ^ 63 ->
  unmarshal_bytes name dAtA (len dAtA) (len pre) 2
  = Ok (p, len pre + len (varint 9 (len p)) + len p).
Proof.
  intros dAtA Hlen. unfold unmarshal_bytes. cbn [Z.eqb Pos.eqb negb].
  subst dAtA. rewrite read_length_field by exact Hlen. cbn [obind].
  do 2 f_equal.
  replace (pre ++ varint 9 (len p) ++ p ++ rest)
    with ((pre ++ varint 9 (len p)) ++ p ++ rest) by app_eq.
  replace (len pre + len (varint 9 (len p))) with (len (pre ++ varint 9 (len p)))
    by len_lia.
  apply slice_app.
Qed.

Context {Msg : Type}.
Variable name : string.
Variable switch : Msg -> list Z -> Z -> Z -> Z -> Z -> Z -> Msg * outcome Z.

(** The loop has nothing to do at the end of the buffer. *)
Lemma Unmarshal_loop_end fuel m dAtA :
  Unmarshal_loop name switch fuel m dAtA (len dAtA) (len dAtA) = (m, Ok tt).
Proof.
  destruct fuel; cbn [Unmarshal_loop];
    rewrite Z.leb_refl, Z.ltb_irrefl; reflexivity.
Qed.

(** A round on a well-formed field that the switch accepts. *)
Lemma Unmarshal_loop_step fuel m m' pre tag rest next :
  0 <= tag < 128 ->
  Z.land tag 0x7 <> 4 ->
  0 < wrap_int32 (Z.shiftr tag 3) ->
  let dAtA := pre ++ tag :: rest in
  switch m dAtA (len dAtA) (len pre) (len pre + 1)
    (wrap_int32 (Z.shiftr tag 3)) (Z.land tag 0x7) = (m', Ok next) ->
  Unmarshal_loop name switch (S fuel) m dAtA (len dAtA) (len pre)
  = Unmarshal_loop name switch fuel m' dAtA (len dAtA) next.
Proof.
  intros Ht Hwt Hfn dAtA Hsw. rewrite Unmarshal_loop_eq.
  replace (len dAtA <=? len pre) with false
    by (symmetry; apply Z.leb_gt; subst dAtA; len_lia).
  subst dAtA. rewrite read_varint_tag by exact Ht. cbv zeta.
  replace (Z.land tag 7 =? 4) with false by (symmetry; now apply Z.eqb_neq).
  replace (wrap_int32 (Z.shiftr tag 3) <=? 0) with false
    by (symmetry; apply Z.leb_gt; lia).
  now rewrite Hsw.
Qed.

(** More fuel does not change a result. *)
Lemma Unmarshal_loop_fuel fuel : forall fuel' m dAtA l iNdEx m' r,
  Unmarshal_loop name switch fuel m dAtA l iNdEx = (m', r) ->
  r <> OutOfFuel -> (fuel <= fuel')%nat ->
  Unmarshal_loop name switch fuel' m dAtA l iNdEx = (m', r).
Proof.
  induction fuel as [|fuel IH]; intros fuel' m dAtA l iNdEx m' r Hrun Hr Hle.
  - cbn [Unmarshal_loop] in Hrun. destruct fuel' as [|fuel'].
    + exact Hrun.
    + rewrite Unmarshal_loop_eq. destruct (l <=? iNdEx); [exact Hrun|].
      injection Hrun as _ <-. contradiction.
  - destruct fuel' as [|fuel']; [lia|].
    rewrite Unmarshal_loop_eq in *.
    destruct (l <=? iNdEx); [exact Hrun|].
    destruct (read_varint dAtA l iNdEx) as [[wire next]| | |]; try exact Hrun.
    cbv zeta in *.
    destruct (Z.land wire 7 =? 4); [exact Hrun|].
    destruct (wrap_int32 (Z.shiftr wire 3) <=? 0); [exact Hrun|].
    destruct (switch m dAtA l iNdEx next (wrap_int32 (Z.shiftr wire 3))
                (Z.land wire 7)) as [m1 [i1| | |]]; try exact Hrun.
    apply IH; [exact Hrun | exact Hr | lia].
Qed.

End ReadBack.

(** ** The round trip of MsgRevokeFeeAllowance *)

Section RevokeRoundTrip.
Import Go Tx Wire MsgRevokeFeeAllowance.

(** A [bytes] field is left out, and read back as absent, or written
    as a field and read back as it was. *)
Lemma bytes_field_cases tag f :
  (bytes_field tag f = [] /\ absent_if_empty f = None /\ flen f = 0)
  \/ (exists p, f = Some p /\ p <> [] /\ bytes_field tag f = field tag p
                /\ absent_if_empty f = Some p).
Proof.
  unfold bytes_field. destruct f as [[|b p]|]; cbn.
  - left. now repeat split.
  - right. exists (b :: p). repeat split; discriminate.
  - left. now repeat split.
Qed.

Lemma tag_0xa : Z.land 0xa 0x7 = 2 /\ wrap_int32 (Z.shiftr 0xa 3) = 1.
Proof. split; reflexivity. Qed.

Lemma tag_0x12 : Z.land 0x12 0x7 = 2 /\ wrap_int32 (Z.shiftr 0x12 3) = 2.
Proof. split; reflexivity. Qed.

Lemma tag_0x1a : Z.land 0x1a 0x7 = 2 /\ wrap_int32 (Z.shiftr 0x1a 3) = 3.
Proof. split; reflexivity. Qed.

Lemma unmarshal_bytes_after_tag name pre tag p rest :
  let dAtA := pre ++ field tag p ++ rest in
  len dAtA < 2 ^ 63 ->
  unmarshal_bytes name dAtA (len dAtA) (len pre + 1) 2
  = Ok (p, len pre + len (field tag p)).
Proof.
  intros dAtA Hlen. subst dAtA. unfold field in *.
  replace (pre ++ (tag :: varint 9 (len p) ++ p) ++ rest)
    with ((pre ++ [tag]) ++ varint 9 (len p) ++ p ++ rest) in * by app_eq.
  replace (len pre + 1) with (len (pre ++ [tag])) by len_lia.
  rewrite unmarshal_bytes_field by exact Hlen.
  do 2 f_equal. len_lia.
Qed.

Lemma Revoke_round fuel m pre tag p rest :
  let dAtA := pre ++ field tag p ++ rest in
  len dAtA < 2 ^ 63 ->
  (tag = 0xa \/ tag = 0x12) ->
  Unmarshal_loop "MsgRevokeFeeAllowance" switch (S fuel) m dAtA (len dAtA) (len pre)
  = Unmarshal_loop "MsgRevokeFeeAllowance" switch fuel
      (if tag =? 0xa then mk (Some p) (Grantee m) else mk (Granter m) (Some p))
      dAtA (len dAtA) (len pre + len (field tag p)).
Proof.
  intros dAtA Hlen Htag.
  pose proof (unmarshal_bytes_after_tag "Granter" pre tag p rest Hlen) as HG.
  pose proof (unmarshal_bytes_after_tag "Grantee" pre tag p rest Hlen) as HE.
  assert (HD : dAtA = pre ++ tag :: ((varint 9 (len p) ++ p) ++ rest)) by reflexivity.
  cbv zeta in HG, HE. fold dAtA in HG, HE.
  clearbody dAtA. subst dAtA.
  destruct Htag as [-> | ->].
  - apply Unmarshal_loop_step; [lia | now rewrite (proj1 tag_0xa)
                               | rewrite (proj2 tag_0xa); lia |].
    rewrite (proj1 tag_0xa), (proj2 tag_0xa). unfold switch.
    cbn [Z.eqb Pos.eqb]. rewrite HG. reflexivity.
  - apply Unmarshal_loop_step; [lia | now rewrite (proj1 tag_0x12)
                               | rewrite (proj2 tag_0x12); lia |].
    rewrite (proj1 tag_0x12), (proj2 tag_0x12). unfold switch.
    cbn [Z.eqb Pos.eqb]. rewrite HE. reflexivity.
Qed.

(** Decoding the encoding of [m] into an empty message. *)
Lemma Revoke_Unmarshal_wire m :
  len (MsgRevoke m) < 2 ^ 63 ->
  Unmarshal zero (MsgRevoke m)
  = (mk (absent_if_empty (Granter m)) (absent_if_empty (Grantee m)), Ok tt).
Proof.
  intros Hlen. unfold Unmarshal, Unmarshal_with, MsgRevoke in *.
  destruct (bytes_field_cases 0xa (Granter m))
    as [(Hg & -> & _) | (g & _ & _ & Hg & ->)];
  destruct (bytes_field_cases 0x12 (Grantee m))
    as [(He & -> & _) | (e & _ & _ & He & ->)];
  rewrite Hg, He in *; clear Hg He.
  - reflexivity.
  - cbn [app] in *.
    apply Unmarshal_loop_fuel with (fuel := 1%nat);
      [| discriminate | unfold field; cbn [length]; lia].
    pose proof (Revoke_round 0 zero [] 0x12 e []) as H. cbv zeta in H.
    rewrite app_nil_r in H. cbn [app] in H. change (len []) with 0 in H.
    rewrite H by first [exact Hlen | now right]. cbn [Z.eqb Pos.eqb Granter zero].
    rewrite Z.add_0_l. apply Unmarshal_loop_end.
  - rewrite app_nil_r in *.
    apply Unmarshal_loop_fuel with (fuel := 1%nat);
      [| discriminate | unfold field; cbn [length]; lia].
    pose proof (Revoke_round 0 zero [] 0xa g []) as H. cbv zeta in H.
    rewrite app_nil_r in H. cbn [app] in H. change (len []) with 0 in H.
    rewrite H by first [exact Hlen | now left]. cbn [Z.eqb Pos.eqb Grantee zero].
    rewrite Z.add_0_l. apply Unmarshal_loop_end.
  - apply Unmarshal_loop_fuel with (fuel := 2%nat);
      [| discriminate | unfold field; rewrite length_app; cbn [length]; lia].
    pose proof (Revoke_round 1 zero [] 0xa g (field 0x12 e)) as H1. cbv zeta in H1.
    cbn [app] in H1. change (len []) with 0 in H1.
    rewrite H1 by first [exact Hlen | now left]. cbn [Z.eqb Pos.eqb Grantee zero].
    pose proof (Revoke_round 0 (mk (Some g) None) (field 0xa g) 0x12 e []) as H2.
    cbv zeta in H2. rewrite app_nil_r in H2. rewrite Z.add_0_l.
    rewrite H2 by first [exact Hlen | now right]. cbn [Z.eqb Pos.eqb Granter].
    rewrite <- len_app. apply Unmarshal_loop_end.
Qed.

(** Marshal, then unmarshal into an empty message. *)
Lemma Revoke_round_trip m :
  len (MsgRevoke m) < 2 ^ 63 ->
  Marshal m = Ok (MsgRevoke m)
  /\ Unmarshal zero (MsgRevoke m)
     = (mk (absent_if_empty (Granter m)) (absent_if_empty (Grantee m)), Ok tt).
Proof.
  intros Hlen. split; [now apply Revoke_Marshal | now apply Revoke_Unmarshal_wire].
Qed.

End RevokeRoundTrip.

(** ** MsgGrantFeeAllowance *)

Section GrantMarshal.
Import Go Tx Wire MsgGrantFeeAllowance.
Context `{AnyMethods}.

Lemma len_bytes_field tag f : len (bytes_field tag f) = bytes_size f.
Proof.
  unfold bytes_field, bytes_size. destruct (flen f >? 0); [|reflexivity].
  rewrite len_field, <- flen_fdata. reflexivity.
Qed.

Lemma bytes_size_nonneg f : 0 <= bytes_size f.
Proof. rewrite <- (len_bytes_field 0 f). apply len_nonneg. Qed.

Lemma len_MsgGrant w m :
  (forall a, Allowance m = Some a -> Any_Size a = len w) ->
  len (MsgGrant w m) = MsgGrant_size m.
Proof.
  intros Hw. unfold MsgGrant, MsgGrant_size.
  rewrite !len_app, !len_bytes_field.
  destruct (Allowance m) as [a|]; [|rewrite len_nil; lia].
  rewrite (Hw a eq_refl), len_field. lia.
Qed.

Lemma Grant_Size m :
  (forall a, Allowance m = Some a -> 0 <= Any_Size a) ->
  MsgGrant_size m < 2 ^ 63 ->
  Size m = MsgGrant_size m.
Proof.
  unfold MsgGrant_size, Size. intros Ha Hlen. cbv zeta.
  pose proof (bytes_size_nonneg (Granter m)).
  pose proof (bytes_size_nonneg (Grantee m)).
  assert (Hany : 0 <= match Allowance m with
                      | Some a => 1 + len (varint 9 (Any_Size a)) + Any_Size a
                      | None => 0
                      end).
  { destruct (Allowance m) as [a|]; [|lia].
    specialize (Ha a eq_refl). pose proof (len_nonneg (varint 9 (Any_Size a))). lia. }
  rewrite (size_bytes_len 0xa (Granter m) 0) by (rewrite ?len_bytes_field; lia).
  rewrite (size_bytes_len 0x12 (Grantee m)) by (rewrite ?len_bytes_field; lia).
  rewrite !len_bytes_field.
  destruct (Allowance m) as [a|]; [|lia].
  specialize (Ha a eq_refl). pose proof (len_nonneg (varint 9 (Any_Size a))).
  rewrite wrap_uint64_small by lia.
  rewrite <- sovTx_varint9 by lia.
  rewrite wrap_int_small; lia.
Qed.

(** The block of [Allowance] writes field 3 at the end of the buffer. *)
Lemma marshal_Allowance_app a w pre old :
  Any_writes a w ->
  length old = length (field 0x1a w) ->
  len (pre ++ old) < 2 ^ 63 ->
  marshal_Allowance (Some a) (pre ++ old) (len (pre ++ old))
  = Ok (pre ++ field 0x1a w, len pre).
Proof.
  intros [Hsize Hwrite] Hold Hlen. unfold marshal_Allowance, field in *.
  destruct old as [|o old]; [discriminate|].
  cbn [length] in Hold. apply Nat.succ_inj in Hold. rewrite length_app in Hold.
  set (n := length (varint 9 (len w))) in *.
  rewrite <- (take_drop n old) in Hlen |- *.
  set (ov := take n old) in *. set (ow := drop n old) in *.
  assert (Hov : length ov = n) by (subst ov; rewrite length_take; lia).
  assert (How : length ow = length w) by (subst ow; rewrite length_drop; lia).
  assert (Hw : 0 <= len w < 2 ^ 63) by (split; [apply len_nonneg | len_lia]).
  rewrite prefix_all. cbn [obind].
  rewrite Hwrite by len_lia.
  replace (take (Z.to_nat (len (pre ++ o :: ov ++ ow) - len w)) (pre ++ o :: ov ++ ow))
    with (pre ++ o :: ov).
  2:{ replace (pre ++ o :: ov ++ ow) with ((pre ++ o :: ov) ++ ow) by app_eq.
      replace (Z.to_nat (len ((pre ++ o :: ov) ++ ow) - len w))
        with (length (pre ++ o :: ov)) by len_lia.
      now rewrite take_app_length. }
  cbn [obind]. unfold slice_from. unfold len at 1. rewrite Nat2Z.id, drop_all.
  rewrite wrap_uint64_small by lia.
  replace (wrap_int (len (pre ++ o :: ov ++ ow) - len w))
    with (len (pre ++ [o]) + len ov)
    by (symmetry; rewrite wrap_int_small; len_lia).
  replace (((pre ++ o :: ov) ++ w) ++ []) with ((pre ++ [o]) ++ ov ++ w) by app_eq.
  rewrite encodeVarintTx_app; [| lia | exact Hov | len_lia].
  cbn [obind].
  replace (wrap_int (len (pre ++ [o]) - 1)) with (len pre)
    by (symmetry; rewrite wrap_int_small; len_lia).
  rewrite <- app_assoc. cbn [app]. rewrite store_app. reflexivity.
Qed.

(** [MarshalToSizedBuffer] writes the encoding over the end of the
    buffer. *)
Lemma Grant_MarshalToSizedBuffer m w pre old :
  (forall a, Allowance m = Some a -> Any_writes a w) ->
  length old = length (MsgGrant w m) ->
  len (pre ++ old) < 2 ^ 63 ->
  MarshalToSizedBuffer m (pre ++ old)
  = Ok (pre ++ MsgGrant w m, len (MsgGrant w m)).
Proof.
  intros Hany Hold Hlen. unfold MarshalToSizedBuffer, MsgGrant in *.
  rewrite !length_app in Hold.
  set (f1 := bytes_field 10 (Granter m)) in *.
  set (f2 := bytes_field 18 (Grantee m)) in *.
  set (f3 := match Allowance m with Some _ => field 26 w | None => [] end) in *.
  rewrite <- (take_drop (length f1) old) in Hlen |- *.
  set (o1 := take (length f1) old) in *.
  rewrite <- (take_drop (length f2) (drop (length f1) old)) in Hlen |- *.
  set (o2 := take (length f2) (drop (length f1) old)) in *.
  set (o3 := drop (length f2) (drop (length f1) old)) in *.
  assert (Ho1 : length o1 = length f1) by (subst o1; rewrite length_take; lia).
  assert (Ho2 : length o2 = length f2)
    by (subst o2; rewrite length_take, length_drop; lia).
  assert (Ho3 : length o3 = length f3)
    by (subst o3; rewrite !length_drop; lia).
  assert (HA : marshal_Allowance (Allowance m) (pre ++ o1 ++ o2 ++ o3)
                 (len (pre ++ o1 ++ o2 ++ o3))
               = Ok ((pre ++ o1 ++ o2) ++ f3, len (pre ++ o1) + len o2)).
  { subst f3. destruct (Allowance m) as [a|].
    - replace (pre ++ o1 ++ o2 ++ o3) with ((pre ++ o1 ++ o2) ++ o3) in * by app_eq.
      rewrite (marshal_Allowance_app a w) by (auto || assumption).
      do 2 f_equal. len_lia.
    - destruct o3; [|discriminate]. cbn [marshal_Allowance].
      do 2 f_equal; [app_eq | len_lia]. }
  rewrite HA. cbn [obind].
  replace ((pre ++ o1 ++ o2) ++ f3) with ((pre ++ o1) ++ o2 ++ f3) by app_eq.
  rewrite marshal_bytes_app; [| exact Ho2 | revert Hlen; len_lia].
  cbn [obind].
  replace (len (pre ++ o1)) with (len pre + len o1) by len_lia.
  rewrite <- app_assoc.
  rewrite marshal_bytes_app; [| exact Ho1 | fold f2; revert Hlen; len_lia].
  cbn [obind]. fold f1 f2. do 2 f_equal.
  rewrite wrap_int_small; revert Hlen; len_lia.
Qed.

Lemma Grant_Marshal m w :
  (forall a, Allowance m = Some a -> Any_writes a w) ->
  MsgGrant_size m < 2 ^ 63 ->
  Marshal m = Ok (MsgGrant w m).
Proof.
  intros Hany Hlen. unfold Marshal.
  assert (Hw : forall a, Allowance m = Some a -> Any_Size a = len w)
    by (intros a Ha; apply (Hany a Ha)).
  rewrite Grant_Size;
    [| intros a Ha; rewrite (Hw a Ha); apply len_nonneg | exact Hlen].
  rewrite <- (len_MsgGrant w m Hw) in *.
  pose proof (len_nonneg (MsgGrant w m)) as Hn.
  unfold make_bytes.
  replace (len (MsgGrant w m) <? 0) with false by (symmetry; apply Z.ltb_ge; lia).
  cbn [obind].
  rewrite <- (len_make (len (MsgGrant w m))) at 2 by lia.
  rewrite prefix_all. cbn [obind].
  rewrite <- (app_nil_l (make _)).
  rewrite (Grant_MarshalToSizedBuffer m w).
  - cbn [obind app]. apply prefix_all.
  - exact Hany.
  - unfold make. rewrite length_replicate. unfold len. lia.
  - rewrite app_nil_l, len_make; lia.
Qed.

(** An error of the [Any] is the error of [Marshal]. *)
Lemma Grant_Marshal_error m a e :
  Allowance m = Some a -> 0 <= Any_Size a ->
  MsgGrant_size m < 2 ^ 63 ->
  Any_MarshalToSizedBuffer a (make (Size m)) = Err e ->
  Marshal m = Err e.
Proof.
  intros Ha Hsize Hlen Herr. unfold Marshal.
  assert (Hn : 0 <= Size m).
  { rewrite Grant_Size; [| intros a' Ha'; congruence | exact Hlen].
    unfold MsgGrant_size. rewrite Ha.
    pose proof (bytes_size_nonneg (Granter m)).
    pose proof (bytes_size_nonneg (Grantee m)).
    pose proof (len_nonneg (varint 9 (Any_Size a))). lia. }
  unfold make_bytes.
  replace (Size m <? 0) with false by (symmetry; apply Z.ltb_ge; lia).
  cbn [obind].
  rewrite <- (len_make (Size m)) at 2 by lia.
  rewrite prefix_all. cbn [obind].
  unfold MarshalToSizedBuffer, marshal_Allowance. rewrite Ha.
  rewrite prefix_all. cbn [obind]. rewrite Herr. reflexivity.
Qed.

End GrantMarshal.

Section OptionalRound.
Import Go Tx Wire.
Context {Msg : Type}.
Variable name : string.
Variable switch : Msg -> list Z -> Z -> Z -> Z -> Z -> Z -> Msg * outcome Z.

(** A field of the encoding that may have been left out: the loop gets
    past its bytes on as many rounds as they are, at the most. *)
Lemma Unmarshal_loop_chunk fuel m m' pre chunk rest mr r :
  let dAtA := pre ++ chunk ++ rest in
  (chunk = [] /\ m' = m)
  \/ (exists tag body,
        chunk = tag :: body /\ 0 <= tag < 128 /\ Z.land tag 0x7 <> 4
        /\ 0 < wrap_int32 (Z.shiftr tag 3)
        /\ switch m dAtA (len dAtA) (len pre) (len pre + 1)
             (wrap_int32 (Z.shiftr tag 3)) (Z.land tag 0x7)
           = (m', Ok (len pre + len chunk))) ->
  Unmarshal_loop name switch fuel m' dAtA (len dAtA) (len pre + len chunk) = (mr, r) ->
  r <> OutOfFuel ->
  Unmarshal_loop name switch (length chunk + fuel) m dAtA (len dAtA) (len pre) = (mr, r).
Proof.
  intros dAtA [[-> ->] | (tag & body & -> & Ht & Hwt & Hfn & Hsw)] Hrun Hr.
  - rewrite len_nil, Z.add_0_r in Hrun. exact Hrun.
  - cbn [length Nat.add].
    subst dAtA. change ((tag :: body) ++ rest) with (tag :: body ++ rest) in *.
    rewrite (Unmarshal_loop_step name switch _ m m' pre tag (body ++ rest)
               (len pre + len (tag :: body)) Ht Hwt Hfn Hsw).
    apply Unmarshal_loop_fuel with (fuel := fuel); [exact Hrun | exact Hr | lia].
Qed.

End OptionalRound.

Section GrantRoundTrip.
Import Go Tx Wire MsgGrantFeeAllowance.
Context `{AnyMethods}.

Local Abbreviation loop := (Unmarshal_loop "MsgGrantFeeAllowance" switch).

Lemma Grant_chunk_Granter fuel m pre rest mr r :
  let dAtA := pre ++ bytes_field 0xa (Granter m) ++ rest in
  forall m0 : t,
  len dAtA < 2 ^ 63 ->
  loop fuel (mk (absent_if_empty (Granter m)) (Grantee m0) (Allowance m0)) dAtA
    (len dAtA) (len pre + len (bytes_field 0xa (Granter m))) = (mr, r) ->
  r <> OutOfFuel -> Granter m0 = None ->
  loop (length (bytes_field 0xa (Granter m)) + fuel) m0 dAtA (len dAtA) (len pre)
  = (mr, r).
Proof.
  intros dAtA m0 Hlen Hrun Hr Hm0. subst dAtA.
  apply Unmarshal_loop_chunk
    with (m' := mk (absent_if_empty (Granter m)) (Grantee m0) (Allowance m0));
    [| exact Hrun | exact Hr].
  destruct (bytes_field_cases 0xa (Granter m))
    as [(Hf & Ha & _) | (g & _ & _ & Hf & Ha)]; rewrite Hf, Ha in *.
  - left. split; [reflexivity|]. destruct m0; cbn in *; congruence.
  - right. exists 0xa, (varint 9 (len g) ++ g).
    split; [reflexivity|]. split; [lia|].
    split; [now rewrite (proj1 tag_0xa)|].
    split; [rewrite (proj2 tag_0xa); lia|].
    rewrite (proj1 tag_0xa), (proj2 tag_0xa). unfold switch.
    cbn [Z.eqb Pos.eqb].
    now rewrite (unmarshal_bytes_after_tag "Granter" pre 0xa g rest Hlen).
Qed.

Lemma Grant_chunk_Grantee fuel m pre rest mr r :
  let dAtA := pre ++ bytes_field 0x12 (Grantee m) ++ rest in
  forall m0 : t,
  len dAtA < 2 ^ 63 ->
  loop fuel (mk (Granter m0) (absent_if_empty (Grantee m)) (Allowance m0)) dAtA
    (len dAtA) (len pre + len (bytes_field 0x12 (Grantee m))) = (mr, r) ->
  r <> OutOfFuel -> Grantee m0 = None ->
  loop (length (bytes_field 0x12 (Grantee m)) + fuel) m0 dAtA (len dAtA) (len pre)
  = (mr, r).
Proof.
  intros dAtA m0 Hlen Hrun Hr Hm0. subst dAtA.
  apply Unmarshal_loop_chunk
    with (m' := mk (Granter m0) (absent_if_empty (Grantee m)) (Allowance m0));
    [| exact Hrun | exact Hr].
  destruct (bytes_field_cases 0x12 (Grantee m))
    as [(Hf & Ha & _) | (g & _ & _ & Hf & Ha)]; rewrite Hf, Ha in *.
  - left. split; [reflexivity|]. destruct m0; cbn in *; congruence.
  - right. exists 0x12, (varint 9 (len g) ++ g).
    split; [reflexivity|]. split; [lia|].
    split; [now rewrite (proj1 tag_0x12)|].
    split; [rewrite (proj2 tag_0x12); lia|].
    rewrite (proj1 tag_0x12), (proj2 tag_0x12). unfold switch.
    cbn [Z.eqb Pos.eqb].
    now rewrite (unmarshal_bytes_after_tag "Grantee" pre 0x12 g rest Hlen).
Qed.

Lemma unmarshal_Allowance_field m0 a w pre rest :
  let dAtA := pre ++ field 0x1a w ++ rest in
  len dAtA < 2 ^ 63 ->
  Allowance m0 = None -> Any_reads a w ->
  unmarshal_Allowance m0 dAtA (len dAtA) (len pre + 1) 2
  = (mk (Granter m0) (Grantee m0) (Some a), Ok (len pre + len (field 0x1a w))).
Proof.
  intros dAtA Hlen Hm0 Hread. subst dAtA. unfold unmarshal_Allowance, field in *.
  cbn [Z.eqb Pos.eqb negb].
  replace (pre ++ (26 :: varint 9 (len w) ++ w) ++ rest)
    with ((pre ++ [26]) ++ varint 9 (len w) ++ w ++ rest) in * by app_eq.
  replace (len pre + 1) with (len (pre ++ [26])) by len_lia.
  rewrite read_length_field by exact Hlen.
  rewrite Hm0.
  replace ((pre ++ [26]) ++ varint 9 (len w) ++ w ++ rest)
    with (((pre ++ [26]) ++ varint 9 (len w)) ++ w ++ rest) by app_eq.
  replace (len (pre ++ [26]) + len (varint 9 (len w)))
    with (len ((pre ++ [26]) ++ varint 9 (len w))) by len_lia.
  rewrite slice_app. unfold Any_reads in Hread. rewrite Hread.
  cbn [obind]. f_equal. f_equal. len_lia.
Qed.

Lemma Grant_chunk_Allowance fuel m w pre mr r :
  let chunk := match Allowance m with Some _ => field 0x1a w | None => [] end in
  let dAtA := pre ++ chunk ++ [] in
  forall m0 : t,
  len dAtA < 2 ^ 63 ->
  (forall a, Allowance m = Some a -> Any_reads a w) ->
  loop fuel (mk (Granter m0) (Grantee m0) (Allowance m)) dAtA
    (len dAtA) (len pre + len chunk) = (mr, r) ->
  r <> OutOfFuel -> Allowance m0 = None ->
  loop (length chunk + fuel) m0 dAtA (len dAtA) (len pre) = (mr, r).
Proof.
  intros chunk dAtA m0 Hlen Hread Hrun Hr Hm0. subst dAtA.
  apply Unmarshal_loop_chunk
    with (m' := mk (Granter m0) (Grantee m0) (Allowance m));
    [| exact Hrun | exact Hr].
  subst chunk. destruct (Allowance m) as [a|].
  - right. exists 0x1a, (varint 9 (len w) ++ w).
    split; [reflexivity|]. split; [lia|].
    split; [now rewrite (proj1 tag_0x1a)|].
    split; [rewrite (proj2 tag_0x1a); lia|].
    rewrite (proj1 tag_0x1a), (proj2 tag_0x1a). unfold switch.
    cbn [Z.eqb Pos.eqb].
    now rewrite (unmarshal_Allowance_field m0 a w pre [] Hlen Hm0 (Hread a eq_refl)).
  - left. split; [reflexivity|]. destruct m0; cbn in *; congruence.
Qed.

(** Decoding the encoding of [m] into an empty message. *)
Lemma Grant_Unmarshal_wire m w :
  len (MsgGrant w m) < 2 ^ 63 ->
  (forall a, Allowance m = Some a -> Any_reads a w) ->
  Unmarshal zero (MsgGrant w m)
  = (mk (absent_if_empty (Granter m)) (absent_if_empty (Grantee m)) (Allowance m),
     Ok tt).
Proof.
  intros Hlen Hread. unfold Unmarshal, Unmarshal_with.
  set (f1 := bytes_field 0xa (Granter m)).
  set (f2 := bytes_field 0x12 (Grantee m)).
  set (f3 := match Allowance m with Some _ => field 0x1a w | None => [] end).
  assert (HD : MsgGrant w m = [] ++ f1 ++ f2 ++ f3) by reflexivity.
  assert (Hfuel : length (MsgGrant w m)
                  = (length f1 + (length f2 + (length f3 + 0)))%nat)
    by (rewrite HD; cbn [app]; rewrite !length_app; lia).
  rewrite Hfuel. rewrite HD in Hlen |- *.
  change 0 with (len (@nil Z)) at 1.
  apply (Grant_chunk_Granter _ m [] (f2 ++ f3) _ _ zero);
    [exact Hlen | | discriminate | reflexivity].
  fold f1. cbn [Grantee Allowance zero].
  replace ([] ++ f1 ++ f2 ++ f3) with (([] ++ f1) ++ f2 ++ f3) in * by app_eq.
  rewrite <- len_app.
  apply (Grant_chunk_Grantee _ m ([] ++ f1) f3 _ _
           (mk (absent_if_empty (Granter m)) None None));
    [exact Hlen | | discriminate | reflexivity].
  fold f2. cbn [Granter Allowance].
  replace (([] ++ f1) ++ f2 ++ f3) with ((([] ++ f1) ++ f2) ++ f3 ++ []) in * by app_eq.
  rewrite <- len_app.
  apply (Grant_chunk_Allowance _ m w (([] ++ f1) ++ f2) _ _
           (mk (absent_if_empty (Granter m)) (absent_if_empty (Grantee m)) None));
    [exact Hlen | exact Hread | | discriminate | reflexivity].
  fold f3. cbn [Granter Grantee].
  replace (len (([] ++ f1) ++ f2) + len f3)
    with (len ((([] ++ f1) ++ f2) ++ f3 ++ [])) by len_lia.
  apply Unmarshal_loop_end.
Qed.

End GrantRoundTrip.

(** ** Size, Marshal and the round trip *)

Section CodecTheorems.
Import Go Tx Wire.

Lemma len_MsgRevoke m : len (MsgRevoke m) = MsgRevoke_size m.
Proof.
  unfold MsgRevoke, MsgRevoke_size. now rewrite len_app, !len_bytes_field.
Qed.

(** C5.  [Marshal] of [MsgRevokeFeeAllowance] does not fail, and
    [Marshal] of [MsgGrantFeeAllowance] fails only with the error its
    [Allowance] returns; the bytes returned are [Size] many, and [Size]
    is the sum over the fields of nothing for an empty field (a nil
    pointer for [Allowance]) and of one byte of tag, the bytes of the
    varint of the length and the payload for any other.  The sizes are
    taken to fit in an [int], and the [Any] to write as many bytes as
    its [Size] says. *)
Theorem Marshal_length_is_Size :
  (forall m : MsgRevokeFeeAllowance.t,
     MsgRevoke_size m < 2 ^ 63 ->
     MsgRevokeFeeAllowance.Size m
     = bytes_size (MsgRevokeFeeAllowance.Granter m)
       + bytes_size (MsgRevokeFeeAllowance.Grantee m)
     /\ exists bs,
          MsgRevokeFeeAllowance.Marshal m = Ok bs
          /\ len bs = MsgRevokeFeeAllowance.Size m)
  /\ (forall (H : AnyMethods) (m : MsgGrantFeeAllowance.t),
     (forall a, MsgGrantFeeAllowance.Allowance m = Some a -> 0 <= Any_Size a) ->
     MsgGrant_size m < 2 ^ 63 ->
     MsgGrantFeeAllowance.Size m
     = bytes_size (MsgGrantFeeAllowance.Granter m)
       + bytes_size (MsgGrantFeeAllowance.Grantee m)
       + match MsgGrantFeeAllowance.Allowance m with
         | Some a => 1 + len (varint 9 (Any_Size a)) + Any_Size a
         | None => 0
         end
     /\ (forall w,
          (forall a, MsgGrantFeeAllowance.Allowance m = Some a -> Any_writes a w) ->
          exists bs,
            MsgGrantFeeAllowance.Marshal m = Ok bs
            /\ len bs = MsgGrantFeeAllowance.Size m)
     /\ (forall a e,
          MsgGrantFeeAllowance.Allowance m = Some a ->
          Any_MarshalToSizedBuffer a (make (MsgGrantFeeAllowance.Size m)) = Err e ->
          MsgGrantFeeAllowance.Marshal m = Err e)).
Proof.
  split.
  - intros m Hlen. rewrite <- len_MsgRevoke in Hlen. split.
    + rewrite Revoke_Size by exact Hlen. apply len_MsgRevoke.
    + exists (MsgRevoke m). split; [now apply Revoke_Marshal|].
      now rewrite Revoke_Size.
  - intros H m Hsize Hlen. split; [|split].
    + now apply Grant_Size.
    + intros w Hany. exists (MsgGrant w m).
      split; [now apply Grant_Marshal|].
      rewrite Grant_Size by assumption. apply len_MsgGrant.
      intros a Ha. apply (Hany a Ha).
    + intros a e Ha Herr.
      apply (Grant_Marshal_error m a e Ha (Hsize a Ha) Hlen Herr).
Qed.

(** C4.  A message whose fields are all set and not empty is read back
    as it was: [Unmarshal] of a new message on the bytes of [Marshal]
    succeeds and gives the message.  For [MsgGrantFeeAllowance] the
    [Any] is taken to be read back by its own [Unmarshal]. *)
Theorem round_trip_nonempty :
  (forall g e : list Z,
     g <> [] -> e <> [] ->
     let m := MsgRevokeFeeAllowance.mk (Some g) (Some e) in
     MsgRevoke_size m < 2 ^ 63 ->
     exists bs,
       MsgRevokeFeeAllowance.Marshal m = Ok bs
       /\ MsgRevokeFeeAllowance.Unmarshal MsgRevokeFeeAllowance.zero bs = (m, Ok tt))
  /\ (forall (H : AnyMethods) (g e : list Z) (a : Any) (w : list Z),
     g <> [] -> e <> [] ->
     let m := MsgGrantFeeAllowance.mk (Some g) (Some e) (Some a) in
     Any_writes a w -> Any_reads a w ->
     MsgGrant_size m < 2 ^ 63 ->
     exists bs,
       MsgGrantFeeAllowance.Marshal m = Ok bs
       /\ MsgGrantFeeAllowance.Unmarshal MsgGrantFeeAllowance.zero bs = (m, Ok tt)).
Proof.
  assert (Hne : forall p : list Z, p <> [] -> absent_if_empty (Some p) = Some p)
    by (intros [|? ?] Hp; [contradiction | reflexivity]).
  split.
  - intros g e Hg He m Hlen. rewrite <- len_MsgRevoke in Hlen.
    exists (MsgRevoke m). split; [now apply Revoke_Marshal|].
    rewrite Revoke_Unmarshal_wire by exact Hlen. subst m.
    cbn [MsgRevokeFeeAllowance.Granter MsgRevokeFeeAllowance.Grantee].
    now rewrite !Hne.
  - intros H g e a w Hg He m Hwrite Hread Hlen.
    assert (Hw : forall a', MsgGrantFeeAllowance.Allowance m = Some a' ->
                            Any_writes a' w) by (intros a' [= <-]; exact Hwrite).
    assert (Hr : forall a', MsgGrantFeeAllowance.Allowance m = Some a' ->
                            Any_reads a' w) by (intros a' [= <-]; exact Hread).
    exists (MsgGrant w m). split; [now apply Grant_Marshal|].
    rewrite Grant_Unmarshal_wire; [| | exact Hr].
    + subst m.
      cbn [MsgGrantFeeAllowance.Granter MsgGrantFeeAllowance.Grantee
           MsgGrantFeeAllowance.Allowance].
      now rewrite !Hne.
    + rewrite len_MsgGrant; [exact Hlen|]. intros a' Ha'. apply (Hw a' Ha').
Qed.

(** C2, as the code has it.  A [bytes] field that is set to an empty
    slice is not written: the bytes of [Marshal] are those of the
    message with the field absent, and [Unmarshal] of a new message on
    them leaves the field absent (nil), the other fields as in C4. *)
Theorem empty_bytes_read_back_absent :
  (forall m : MsgRevokeFeeAllowance.t,
     MsgRevoke_size m < 2 ^ 63 ->
     exists bs m',
       MsgRevokeFeeAllowance.Marshal m = Ok bs
       /\ MsgRevokeFeeAllowance.Unmarshal MsgRevokeFeeAllowance.zero bs = (m', Ok tt)
       /\ (MsgRevokeFeeAllowance.Granter m = Some [] ->
           MsgRevokeFeeAllowance.Granter m' = None
           /\ MsgRevokeFeeAllowance.Marshal
                (MsgRevokeFeeAllowance.mk None (MsgRevokeFeeAllowance.Grantee m))
              = Ok bs)
       /\ (MsgRevokeFeeAllowance.Grantee m = Some [] ->
           MsgRevokeFeeAllowance.Grantee m' = None
           /\ MsgRevokeFeeAllowance.Marshal
                (MsgRevokeFeeAllowance.mk (MsgRevokeFeeAllowance.Granter m) None)
              = Ok bs))
  /\ (forall (H : AnyMethods) (m : MsgGrantFeeAllowance.t) (w : list Z),
     (forall a, MsgGrantFeeAllowance.Allowance m = Some a ->
                Any_writes a w /\ Any_reads a w) ->
     MsgGrant_size m < 2 ^ 63 ->
     exists bs m',
       MsgGrantFeeAllowance.Marshal m = Ok bs
       /\ MsgGrantFeeAllowance.Unmarshal MsgGrantFeeAllowance.zero bs = (m', Ok tt)
       /\ (MsgGrantFeeAllowance.Granter m = Some [] ->
           MsgGrantFeeAllowance.Granter m' = None)
       /\ (MsgGrantFeeAllowance.Grantee m = Some [] ->
           MsgGrantFeeAllowance.Grantee m' = None)).
Proof.
  split.
  - intros m Hlen. pose proof Hlen as Hsz. rewrite <- len_MsgRevoke in Hlen.
    exists (MsgRevoke m),
      (MsgRevokeFeeAllowance.mk
         (absent_if_empty (MsgRevokeFeeAllowance.Granter m))
         (absent_if_empty (MsgRevokeFeeAllowance.Grantee m))).
    split; [now apply Revoke_Marshal|].
    split; [now apply Revoke_Unmarshal_wire|].
    destruct m as [G E]. cbn [MsgRevokeFeeAllowance.Granter
                               MsgRevokeFeeAllowance.Grantee] in *.
    split; intros ->; (split; [reflexivity|]).
    + rewrite Revoke_Marshal; [reflexivity|].
      rewrite len_MsgRevoke. exact Hsz.
    + rewrite Revoke_Marshal; [reflexivity|].
      rewrite len_MsgRevoke. exact Hsz.
  - intros H m w Hany Hlen.
    exists (MsgGrant w m),
      (MsgGrantFeeAllowance.mk
         (absent_if_empty (MsgGrantFeeAllowance.Granter m))
         (absent_if_empty (MsgGrantFeeAllowance.Grantee m))
         (MsgGrantFeeAllowance.Allowance m)).
    split; [apply Grant_Marshal; [intros a Ha; apply (Hany a Ha) | exact Hlen]|].
    split.
    + apply Grant_Unmarshal_wire; [| intros a Ha; apply (Hany a Ha)].
      rewrite len_MsgGrant; [exact Hlen|].
      intros a Ha. apply (Hany a Ha).
    + cbn [MsgGrantFeeAllowance.Granter MsgGrantFeeAllowance.Grantee].
      split; intros ->; reflexivity.
Qed.

End CodecTheorems.

Section CodecExamples.
Import Go Tx Wire Examples.

(** The opaque [Any] keeps the contract of the codec. *)
Lemma OpaqueAny_writes (a : list Z) : @Any_writes OpaqueAny a a.
Proof.
  split; [reflexivity|]. intros head Hle. cbn [Any_MarshalToSizedBuffer OpaqueAny].
  pose proof (len_nonneg a) as Ha.
  set (n := Z.to_nat (len head - len a)).
  assert (Hsplit : head = take n head ++ drop n head ++ [])
    by (now rewrite app_nil_r, take_drop).
  assert (Hn : len head - len a = len (take n head)).
  { unfold len. rewrite length_take. subst n. unfold len in *. lia. }
  rewrite Hsplit at 1. rewrite Hn. rewrite copy_at_app.
  - cbn [obind]. now rewrite app_nil_r.
  - rewrite length_drop. subst n. unfold len in *. lia.
Qed.

Lemma OpaqueAny_reads (a : list Z) : @Any_reads OpaqueAny a a.
Proof. reflexivity. Qed.

Local Abbreviation revoke1 := (MsgRevokeFeeAllowance.mk (Some [65]) (Some [66; 67])).
Local Abbreviation grant1 :=
  (@MsgGrantFeeAllowance.mk OpaqueAny (Some [65]) (Some [66; 67]) (Some [7; 8])).

Lemma Marshal_length_is_Size_witness :
  MsgRevoke_size revoke1 < 2 ^ 63
  /\ @MsgGrant_size OpaqueAny grant1 < 2 ^ 63
  /\ (exists bs, MsgRevokeFeeAllowance.Marshal revoke1 = Ok bs
                 /\ len bs = MsgRevokeFeeAllowance.Size revoke1)
  /\ (exists bs, MsgGrantFeeAllowance.Marshal grant1 = Ok bs
                 /\ len bs = MsgGrantFeeAllowance.Size grant1).
Proof.
  assert (Hr : MsgRevoke_size revoke1 < 2 ^ 63) by (vm_compute; reflexivity).
  assert (Hg : @MsgGrant_size OpaqueAny grant1 < 2 ^ 63) by (vm_compute; reflexivity).
  assert (Hsize : forall a, MsgGrantFeeAllowance.Allowance grant1 = Some a ->
                            0 <= @Any_Size OpaqueAny a)
    by (intros a _; apply len_nonneg).
  assert (Hany : forall a, MsgGrantFeeAllowance.Allowance grant1 = Some a ->
                           @Any_writes OpaqueAny a [7; 8])
    by (intros a [= <-]; apply OpaqueAny_writes).
  destruct Marshal_length_is_Size as [HR HG].
  destruct (HR revoke1 Hr) as [_ HRm].
  destruct (HG OpaqueAny grant1 Hsize Hg) as (_ & HGm & _).
  exact (conj Hr (conj Hg (conj HRm (HGm [7; 8] Hany)))).
Defined.

Lemma round_trip_nonempty_witness :
  (exists bs, MsgRevokeFeeAllowance.Marshal revoke1 = Ok bs
     /\ MsgRevokeFeeAllowance.Unmarshal MsgRevokeFeeAllowance.zero bs
        = (revoke1, Ok tt))
  /\ (exists bs, MsgGrantFeeAllowance.Marshal grant1 = Ok bs
     /\ MsgGrantFeeAllowance.Unmarshal MsgGrantFeeAllowance.zero bs
        = (grant1, Ok tt)).
Proof.
  assert (Hr : MsgRevoke_size revoke1 < 2 ^ 63) by (vm_compute; reflexivity).
  assert (Hg : @MsgGrant_size OpaqueAny grant1 < 2 ^ 63) by (vm_compute; reflexivity).
  assert (H65 : [65] <> @nil Z) by discriminate.
  assert (H66 : [66; 67] <> @nil Z) by discriminate.
  destruct round_trip_nonempty as [HR HG].
  exact (conj (HR [65] [66; 67] H65 H66 Hr)
              (HG OpaqueAny [65] [66; 67] [7; 8] [7; 8] H65 H66
                  (OpaqueAny_writes [7; 8]) (OpaqueAny_reads [7; 8]) Hg)).
Defined.

Local Abbreviation revoke0 := (MsgRevokeFeeAllowance.mk (Some []) (Some [66])).

Lemma empty_bytes_read_back_absent_witness :
  MsgRevoke_size revoke0 < 2 ^ 63
  /\ exists bs m',
       MsgRevokeFeeAllowance.Marshal revoke0 = Ok bs
       /\ MsgRevokeFeeAllowance.Unmarshal MsgRevokeFeeAllowance.zero bs = (m', Ok tt)
       /\ MsgRevokeFeeAllowance.Granter m' = None
       /\ MsgRevokeFeeAllowance.Marshal (MsgRevokeFeeAllowance.mk None (Some [66]))
          = Ok bs.
Proof.
  assert (Hr : MsgRevoke_size revoke0 < 2 ^ 63) by (vm_compute; reflexivity).
  split; [exact Hr|].
  destruct (proj1 empty_bytes_read_back_absent revoke0 Hr)
    as (bs & m' & Hm & Hu & HG & _).
  exists bs, m'. destruct (HG eq_refl) as [Hnone Hsame].
  exact (conj Hm (conj Hu (conj Hnone Hsame))).
Defined.

(** The sentence of the design document does not hold: a [Granter] set to the
    empty slice is not read back as empty but as absent. *)
Lemma empty_Granter_not_read_back :
  let m := MsgRevokeFeeAllowance.mk (Some []) None in
  MsgRevokeFeeAllowance.Marshal m = Ok []
  /\ MsgRevokeFeeAllowance.Unmarshal MsgRevokeFeeAllowance.zero []
     = (MsgRevokeFeeAllowance.zero, Ok tt)
  /\ MsgRevokeFeeAllowance.Granter MsgRevokeFeeAllowance.zero = None
  /\ MsgRevokeFeeAllowance.Granter MsgRevokeFeeAllowance.zero
     <> MsgRevokeFeeAllowance.Granter m.
Proof.
  intros m. split; [vm_compute; reflexivity|]. split; [vm_compute; reflexivity|].
  split; [reflexivity|]. discriminate.
Qed.

End CodecExamples.

(** ** The readers always come back

    The loops of the embedding are bounded by a number of rounds: ten for
    a varint, the length of the buffer for [skipTx] and [Unmarshal].
    These bounds are never reached, and no read panics: on a buffer a
    slice can hold, every reader returns a value or an error. *)

Section Totality.
Import Go Tx.

Lemma returns_obind {A B} (o : outcome A) (k : A -> outcome B) :
  returns o -> (forall a, o = Ok a -> returns (k a)) -> returns (obind o k).
Proof. destruct o; cbn; intros Ho Hk; try contradiction; auto. Qed.

Lemma varint_loop_returns fuel : forall dAtA l iNdEx shift acc,
  63 < shift + 7 * Z.of_nat fuel ->
  returns (varint_loop fuel dAtA l iNdEx shift acc).
Proof.
  induction fuel as [|fuel IH]; intros dAtA l iNdEx shift acc Hs;
    rewrite varint_loop_eq;
    destruct (64 <=? shift) eqn:H64; try exact I;
    destruct (l <=? iNdEx); try exact I; cbv zeta;
    destruct (index dAtA iNdEx <? 128); try exact I.
  - apply Z.leb_gt in H64. lia.
  - apply IH. lia.
Qed.

Lemma read_varint_returns dAtA l iNdEx : returns (read_varint dAtA l iNdEx).
Proof. apply varint_loop_returns. lia. Qed.

Lemma skipTx_switch_returns dAtA l iNdEx depth wireType :
  returns (skipTx_switch dAtA l iNdEx depth wireType).
Proof.
  unfold skipTx_switch.
  destruct (wireType =? 0).
  { apply returns_obind; [apply read_varint_returns|]. now intros [v j] _. }
  destruct (wireType =? 1); [exact I|].
  destruct (wireType =? 2).
  { apply returns_obind; [apply read_varint_returns|]. intros [v j] _.
    now destruct (wrap_int v <? 0). }
  destruct (wireType =? 3); [exact I|].
  destruct (wireType =? 4); [now destruct (depth =? 0)|].
  now destruct (wireType =? 5).
Qed.

(** The switch of [skipTx] moves the index forward, or makes it
    negative. *)
Lemma skipTx_switch_progress dAtA l iNdEx depth wireType i' d' :
  0 <= iNdEx <= l -> l < 2 ^ 63 ->
  skipTx_switch dAtA l iNdEx depth wireType = Ok (i', d') ->
  i' < 0 \/ iNdEx <= i' < 2 ^ 63.
Proof.
  intros Hi Hl. unfold skipTx_switch.
  assert (Hfwd : forall k, 0 <= k < 2 ^ 63 -> forall j, iNdEx <= j <= l ->
            wrap_int (j + k) < 0 \/ iNdEx <= wrap_int (j + k) < 2 ^ 63).
  { intros k Hk j Hj.
    destruct (wrap_int_add_forward j k ltac:(lia) Hk) as [[-> ?]|?]; lia. }
  destruct (wireType =? 0).
  { destruct (read_varint dAtA l iNdEx) as [[v j]| | |] eqn:Hv; try discriminate.
    apply read_varint_progress in Hv. intros [= <- <-]. lia. }
  destruct (wireType =? 1).
  { intros [= <- <-]. apply Hfwd; lia. }
  destruct (wireType =? 2).
  { destruct (read_varint dAtA l iNdEx) as [[v j]| | |] eqn:Hv; try discriminate.
    apply read_varint_progress in Hv. cbn [obind].
    destruct (wrap_int v <? 0) eqn:Hneg; [discriminate|].
    apply Z.ltb_ge in Hneg. pose proof (wrap_int_range v).
    intros [= <- <-]. apply Hfwd; lia. }
  destruct (wireType =? 3).
  { intros [= <- <-]. lia. }
  destruct (wireType =? 4).
  { destruct (depth =? 0); [discriminate|]. intros [= <- <-]. lia. }
  destruct (wireType =? 5); [|discriminate].
  intros [= <- <-]. apply Hfwd; lia.
Qed.

Lemma skipTx_loop_returns fuel : forall dAtA l iNdEx depth,
  0 <= iNdEx -> l < 2 ^ 63 -> l - iNdEx <= Z.of_nat fuel ->
  returns (skipTx_loop fuel dAtA l iNdEx depth)
  /\ forall n, skipTx_loop fuel dAtA l iNdEx depth = Ok n -> iNdEx < n < 2 ^ 63.
Proof.
  induction fuel as [|fuel IH]; intros dAtA l iNdEx depth Hi Hl Hfuel.
  - cbn [skipTx_loop].
    replace (l <=? iNdEx) with true by (symmetry; apply Z.leb_le; lia).
    split; [exact I | discriminate].
  - rewrite skipTx_loop_eq. destruct (l <=? iNdEx) eqn:Hend.
    { split; [exact I | discriminate]. }
    apply Z.leb_gt in Hend.
    pose proof (read_varint_returns dAtA l iNdEx) as Hr.
    destruct (read_varint dAtA l iNdEx) as [[wire j]| | |] eqn:Hv;
      try contradiction; [|split; [exact I | discriminate]].
    apply read_varint_progress in Hv. cbn [obind].
    pose proof (skipTx_switch_returns dAtA l j depth (Z.land wire 7)) as Hs.
    destruct (skipTx_switch dAtA l j depth (Z.land wire 7)) as [[i' d']| | |] eqn:Hsw;
      try contradiction; [|split; [exact I | discriminate]].
    apply skipTx_switch_progress in Hsw; [|lia..]. cbn [obind].
    destruct (i' <? 0) eqn:Hneg; [split; [exact I | discriminate]|].
    apply Z.ltb_ge in Hneg.
    destruct (d' =? 0).
    + split; [exact I|]. intros n [= <-]. lia.
    + destruct (IH dAtA l i' d') as [Hret Hok]; [lia..|].
      split; [exact Hret|]. intros n Hn. apply Hok in Hn. lia.
Qed.

Lemma skipTx_returns dAtA :
  len dAtA < 2 ^ 63 ->
  returns (skipTx dAtA) /\ forall n, skipTx dAtA = Ok n -> 0 < n < 2 ^ 63.
Proof.
  intros Hl. unfold skipTx. apply skipTx_loop_returns; [lia | exact Hl |].
  unfold len. lia.
Qed.

Lemma read_length_ok dAtA l iNdEx :
  0 <= iNdEx -> l < 2 ^ 63 ->
  returns (read_length dAtA l iNdEx)
  /\ forall i post, read_length dAtA l iNdEx = Ok (i, post) ->
       iNdEx < post < 2 ^ 63.
Proof.
  intros Hi Hl. unfold read_length.
  pose proof (read_varint_returns dAtA l iNdEx) as Hr.
  destruct (read_varint dAtA l iNdEx) as [[v j]| | |] eqn:Hv;
    try contradiction; [|split; [exact I | discriminate]].
  apply read_varint_progress in Hv. cbn [obind].
  destruct (wrap_int v <? 0) eqn:Hneg; [split; [exact I | discriminate]|].
  apply Z.ltb_ge in Hneg. pose proof (wrap_int_range v).
  destruct (wrap_int (j + wrap_int v) <? 0) eqn:Hneg';
    [split; [exact I | discriminate]|].
  apply Z.ltb_ge in Hneg'.
  destruct (l <? wrap_int (j + wrap_int v)); [split; [exact I | discriminate]|].
  split; [exact I|]. intros i post [= <- <-].
  destruct (wrap_int_add_forward j (wrap_int v)) as [[-> ?]|?]; lia.
Qed.

Lemma arm_bytes_ok {Msg} (m : Msg) field dAtA l preIndex iNdEx wireType set :
  0 <= preIndex < iNdEx -> l < 2 ^ 63 ->
  arm_ok preIndex (arm m (unmarshal_bytes field dAtA l iNdEx wireType) set).
Proof.
  intros Hi Hl. unfold unmarshal_bytes.
  destruct (negb (wireType =? 2)); [split; [exact I | discriminate]|].
  destruct (read_length_ok dAtA l iNdEx ltac:(lia) Hl) as [Hret Hok].
  destruct (read_length dAtA l iNdEx) as [[i post]| | |];
    try contradiction; [|split; [exact I | discriminate]].
  cbn [obind arm]. split; [exact I|]. cbn [snd]. intros i' [= <-].
  specialize (Hok i post eq_refl). lia.
Qed.

Lemma arm_skip_ok {Msg} (m : Msg) dAtA preIndex set :
  0 <= preIndex <= len dAtA -> len dAtA < 2 ^ 63 ->
  arm_ok preIndex
    (arm m (do i <-- unmarshal_skip dAtA (len dAtA) preIndex ;; Ok (tt, i)) set).
Proof.
  intros Hp Hl. unfold unmarshal_skip.
  assert (Hlen : len (slice_from dAtA preIndex) < 2 ^ 63).
  { unfold slice_from, len in *. rewrite length_drop. lia. }
  destruct (skipTx_returns (slice_from dAtA preIndex) Hlen) as [Hret Hok].
  destruct (skipTx (slice_from dAtA preIndex)) as [n| | |];
    try contradiction; [|split; [exact I | discriminate]].
  specialize (Hok n eq_refl). cbn [obind].
  replace (n <? 0) with false by (symmetry; apply Z.ltb_ge; lia).
  destruct (wrap_int (preIndex + n) <? 0) eqn:Hneg;
    [split; [exact I | discriminate]|].
  apply Z.ltb_ge in Hneg.
  destruct (len dAtA <? wrap_int (preIndex + n)) eqn:Hpast;
    [split; [exact I | discriminate]|].
  apply Z.ltb_ge in Hpast.
  cbn [obind arm]. split; [exact I|]. cbn [snd]. intros i' [= <-].
  destruct (wrap_int_add_forward preIndex n) as [[-> ?]|?]; lia.
Qed.

Section Loop.
Context {Msg : Type}.
Variable name : string.
Variable switch : Msg -> list Z -> Z -> Z -> Z -> Z -> Z -> Msg * outcome Z.
Hypothesis switch_ok : forall m dAtA preIndex iNdEx fieldNum wireType,
  0 <= preIndex < iNdEx -> iNdEx <= len dAtA -> len dAtA < 2 ^ 63 ->
  arm_ok preIndex (switch m dAtA (len dAtA) preIndex iNdEx fieldNum wireType).

Lemma Unmarshal_loop_returns fuel : forall m dAtA iNdEx,
  0 <= iNdEx -> len dAtA < 2 ^ 63 -> len dAtA - iNdEx <= Z.of_nat fuel ->
  returns (snd (Unmarshal_loop name switch fuel m dAtA (len dAtA) iNdEx)).
Proof.
  induction fuel as [|fuel IH]; intros m dAtA iNdEx Hi Hl Hfuel.
  - cbn [Unmarshal_loop].
    replace (len dAtA <=? iNdEx) with true by (symmetry; apply Z.leb_le; lia).
    now destruct (len dAtA <? iNdEx).
  - rewrite Unmarshal_loop_eq. destruct (len dAtA <=? iNdEx) eqn:Hend.
    { now destruct (len dAtA <? iNdEx). }
    apply Z.leb_gt in Hend.
    pose proof (read_varint_returns dAtA (len dAtA) iNdEx) as Hr.
    destruct (read_varint dAtA (len dAtA) iNdEx) as [[wire next]| | |] eqn:Hv;
      try contradiction; [|exact I].
    apply read_varint_progress in Hv. cbv zeta.
    destruct (Z.land wire 7 =? 4); [exact I|].
    destruct (wrap_int32 (Z.shiftr wire 3) <=? 0); [exact I|].
    destruct (switch_ok m dAtA iNdEx next (wrap_int32 (Z.shiftr wire 3))
                (Z.land wire 7) ltac:(lia) ltac:(lia) Hl) as [Hret Hok].
    destruct (switch m dAtA (len dAtA) iNdEx next (wrap_int32 (Z.shiftr wire 3))
                (Z.land wire 7)) as [m1 [i1| | |]]; cbn [snd] in *;
      try contradiction; [|exact I].
    specialize (Hok i1 eq_refl). apply IH; lia.
Qed.

Lemma Unmarshal_with_returns m dAtA :
  len dAtA < 2 ^ 63 -> returns (snd (Unmarshal_with name switch m dAtA)).
Proof.
  intros Hl. unfold Unmarshal_with.
  apply Unmarshal_loop_returns; [lia | exact Hl | unfold len; lia].
Qed.
End Loop.

Lemma Revoke_Unmarshal_returns m dAtA :
  len dAtA < 2 ^ 63 -> returns (snd (MsgRevokeFeeAllowance.Unmarshal m dAtA)).
Proof.
  apply Unmarshal_with_returns. clear. intros m dAtA preIndex iNdEx fieldNum wireType Hi Hle Hl.
  unfold MsgRevokeFeeAllowance.switch.
  destruct (fieldNum =? 1); [now apply arm_bytes_ok|].
  destruct (fieldNum =? 2); [now apply arm_bytes_ok|].
  apply arm_skip_ok; [lia | exact Hl].
Qed.

Lemma RevokeResponse_Unmarshal_returns m dAtA :
  len dAtA < 2 ^ 63 -> returns (snd (MsgRevokeFeeAllowanceResponse.Unmarshal m dAtA)).
Proof.
  apply Unmarshal_with_returns. clear. intros m dAtA preIndex iNdEx fieldNum wireType Hi Hle Hl.
  unfold MsgRevokeFeeAllowanceResponse.switch.
  apply arm_skip_ok; [lia | exact Hl].
Qed.

Lemma GrantResponse_Unmarshal_returns m dAtA :
  len dAtA < 2 ^ 63 -> returns (snd (MsgGrantFeeAllowanceResponse.Unmarshal m dAtA)).
Proof.
  apply Unmarshal_with_returns. clear. intros m dAtA preIndex iNdEx fieldNum wireType Hi Hle Hl.
  unfold MsgGrantFeeAllowanceResponse.switch.
  apply arm_skip_ok; [lia | exact Hl].
Qed.

(** For [MsgGrantFeeAllowance], as long as the [Unmarshal] of the [Any]
    comes back. *)
Lemma Grant_Unmarshal_returns `{AnyMethods} m dAtA :
  (forall a data, returns (snd (Any_Unmarshal a data))) ->
  len dAtA < 2 ^ 63 -> returns (snd (MsgGrantFeeAllowance.Unmarshal m dAtA)).
Proof.
  intros Hany. apply Unmarshal_with_returns. clear m dAtA.
  intros m dAtA preIndex iNdEx fieldNum wireType Hi Hle Hl.
  unfold MsgGrantFeeAllowance.switch.
  destruct (fieldNum =? 1); [now apply arm_bytes_ok|].
  destruct (fieldNum =? 2); [now apply arm_bytes_ok|].
  destruct (fieldNum =? 3); [|apply arm_skip_ok; [lia | exact Hl]].
  unfold MsgGrantFeeAllowance.unmarshal_Allowance.
  destruct (negb (wireType =? 2)); [split; [exact I | discriminate]|].
  destruct (read_length_ok dAtA (len dAtA) iNdEx ltac:(lia) Hl) as [Hret Hok].
  destruct (read_length dAtA (len dAtA) iNdEx) as [[i post]| | |];
    try contradiction; [|split; [exact I | discriminate]].
  specialize (Hok i post eq_refl).
  set (a0 := match MsgGrantFeeAllowance.Allowance m with
             | Some a => a | None => Any_zero end).
  specialize (Hany a0 (slice dAtA i post)).
  destruct (Any_Unmarshal a0 (slice dAtA i post)) as [a [[]| | |]];
    cbn [snd obind] in *; try contradiction.
  - split; [exact I|]. intros i' [= <-]. lia.
  - split; [exact I | discriminate].
Qed.

End Totality.

(** * Further properties of the codec *)

(** ** Varints *)

Section VarintMore.
Import Go Tx Wire.

(** X1.  [encodeVarintTx] followed by the reading loop.  With room for
    [sovTx v] bytes in front of [offset], [encodeVarintTx] returns
    [offset - sovTx v], changes no byte in front of that index and none
    from [offset] on, and reading a varint at the returned index gives
    [v] back and ends at [offset]. *)
Theorem encodeVarintTx_read_varint (dAtA : list Z) (offset v : Z) :
  0 <= v < 2 ^ 64 ->
  sovTx v <= offset <= len dAtA ->
  len dAtA < 2 ^ 63 ->
  let base := offset - sovTx v in
  exists dAtA',
    encodeVarintTx dAtA offset v = Ok (dAtA', base)
    /\ length dAtA' = length dAtA
    /\ take (Z.to_nat base) dAtA' = take (Z.to_nat base) dAtA
    /\ drop (Z.to_nat offset) dAtA' = drop (Z.to_nat offset) dAtA
    /\ read_varint dAtA' (len dAtA') base = Ok (v, offset).
Proof.
  intros Hv Hoff Hlen base.
  pose proof (sovTx_bound v Hv) as Hsov.
  pose proof (sovTx_varint9 v Hv) as Hvar.
  set (pre := take (Z.to_nat base) dAtA).
  set (old := take (Z.to_nat (sovTx v)) (drop (Z.to_nat base) dAtA)).
  set (suf := drop (Z.to_nat offset) dAtA).
  assert (Hpre : len pre = base)
    by (subst pre base; unfold len in *; rewrite length_take; lia).
  assert (Hold : len old = sovTx v)
    by (subst old base; unfold len in *; rewrite length_take, length_drop; lia).
  assert (HD : dAtA = pre ++ old ++ suf).
  { subst pre old suf.
    replace (Z.to_nat offset) with (Z.to_nat base + Z.to_nat (sovTx v))%nat
      by (subst base; lia).
    rewrite <- drop_drop, take_drop. now rewrite take_drop. }
  exists (pre ++ varint 9 v ++ suf).
  assert (Hbase : Z.to_nat base = length pre) by (unfold len in Hpre; lia).
  assert (Hoffset : Z.to_nat offset = length (pre ++ varint 9 v))
    by (rewrite length_app; unfold len in *; lia).
  split; [|split; [|split; [|split]]].
  - rewrite HD at 1. replace offset with (len pre + len old) by lia.
    rewrite <- Hpre.
    apply encodeVarintTx_app; [exact Hv | unfold len in *; lia | now rewrite <- HD].
  - assert (Hsuf : length suf = (length dAtA - Z.to_nat offset)%nat)
      by (subst suf; apply length_drop).
    rewrite !length_app. unfold len in *. lia.
  - fold pre. rewrite Hbase. apply take_app_length.
  - fold suf. rewrite Hoffset, app_assoc. apply drop_app_length.
  - rewrite <- Hpre. rewrite read_varint_varint by exact Hv.
    do 2 f_equal. lia.
Qed.

Lemma encodeVarintTx_read_varint_witness :
  encodeVarintTx [1; 2; 0; 0; 5] 4 300 = Ok ([1; 2; 172; 2; 5], 2)
  /\ read_varint [1; 2; 172; 2; 5] 5 2 = Ok (300, 4).
Proof.
  destruct (encodeVarintTx_read_varint [1; 2; 0; 0; 5] 4 300)
    as (d & He & _ & _ & _ & Hr);
    [vm_compute; split; [discriminate | reflexivity]
    | vm_compute; split; discriminate | vm_compute; reflexivity |].
  cbv zeta in He. vm_compute in He. injection He as <-.
  vm_compute in Hr. split; [vm_compute; reflexivity | exact Hr].
Defined.

(** X2.  A varint without its last byte.  The bytes [encodeVarintTx]
    writes for [v] are read back as [v]; cut before the last of them,
    they end in bytes that all ask for more, and the reading loop
    answers with [io.ErrUnexpectedEOF]. *)
Theorem truncated_varint_is_unexpected_EOF (v : Z) (enc : list Z) :
  0 <= v < 2 ^ 64 ->
  encodeVarintTx (make (sovTx v)) (sovTx v) v = Ok (enc, 0) ->
  read_varint enc (len enc) 0 = Ok (v, len enc)
  /\ read_varint (removelast enc) (len (removelast enc)) 0 = Err ErrUnexpectedEOF.
Proof.
  intros Hv Henc.
  pose proof (sovTx_bound v Hv) as Hsov.
  pose proof (sovTx_varint9 v Hv) as Hvar.
  assert (Hw : encodeVarintTx (make (sovTx v)) (sovTx v) v = Ok (varint 9 v, 0)).
  { pose proof (encodeVarintTx_app [] (make (sovTx v)) [] v Hv) as H.
    rewrite !app_nil_r in H. cbn [app] in H. change (len []) with 0 in H.
    rewrite len_make, Z.add_0_l in H by lia.
    rewrite H; [reflexivity | | lia].
    unfold make. rewrite length_replicate. unfold len in Hvar. lia. }
  assert (Hena : enc = varint 9 v) by congruence. subst enc. clear Henc Hw.
  destruct (varint_split 9 v) as (cs & b & Heq & Hcs & Hb & Hlen & Hval).
  { pose proof pow2_64_70. lia. }
  rewrite Heq. split.
  - pose proof (read_varint_value [] cs b [] Hcs ltac:(lia) Hb) as H.
    cbn [app] in H. change (len []) with 0 in H. rewrite H, Hval.
    rewrite Z.mod_small by lia. do 2 f_equal. len_lia.
  - rewrite removelast_last.
    apply (read_varint_truncated [] cs Hcs). lia.
Qed.

Lemma truncated_varint_is_unexpected_EOF_witness :
  read_varint [172; 2] 2 0 = Ok (300, 2)
  /\ read_varint [172] 1 0 = Err ErrUnexpectedEOF.
Proof.
  assert (He : encodeVarintTx (make (sovTx 300)) (sovTx 300) 300 = Ok ([172; 2], 0))
    by (vm_compute; reflexivity).
  assert (Hv : 0 <= 300 < 2 ^ 64) by (vm_compute; split; discriminate || reflexivity).
  exact (truncated_varint_is_unexpected_EOF 300 [172; 2] Hv He).
Defined.

(** X3.  [sovTx]: the size of the varint of a [uint64] is the least
    number [n] of seven-bit groups, at least one, that hold it. *)
Theorem sovTx_least_groups (v : Z) (n : nat) :
  0 <= v < 2 ^ 64 ->
  (sovTx v <= Z.of_nat (S n) <-> v < 2 ^ (7 * Z.of_nat (S n)))
  /\ 1 <= sovTx v <= 10.
Proof.
  intros Hv. split; [|now apply sovTx_bound].
  clear Hv. revert v. induction n as [|n IH]; intros v.
  - change (2 ^ (7 * Z.of_nat 1)) with 128.
    destruct (Z_lt_ge_dec v 128) as [Hlt|Hge].
    + destruct (Z_lt_ge_dec v 0) as [Hneg|Hpos].
      * split; [lia|]. intros _. unfold sovTx, Len64.
        (* a negative number is no [uint64]; the formula still gives 1 *)
        assert (Hl : Z.lor v 1 < 0) by (apply Z.lor_neg; lia).
        replace (Z.lor v 1 =? 0) with false by (symmetry; apply Z.eqb_neq; lia).
        rewrite Z.log2_nonpos by lia. reflexivity.
      * rewrite sovTx_small by lia. split; lia.
    + rewrite sovTx_step by lia. split; [|lia].
      intros Hle. exfalso.
      assert (1 <= sovTx (v / 128)); [|lia].
      assert (Hd : 0 <= v / 128) by (apply Z.div_pos; lia).
      destruct (Z_lt_ge_dec (v / 128) 128).
      -- rewrite sovTx_small; lia.
      -- rewrite sovTx_step by lia.
         unfold sovTx at 1. unfold Len64.
         assert (0 <= (if Z.lor (v / 128 / 128) 1 =? 0 then 0
                       else Z.log2 (Z.lor (v / 128 / 128) 1) + 1)).
         { destruct (_ =? 0); [lia|]. pose proof (Z.log2_nonneg (Z.lor (v / 128 / 128) 1)). lia. }
         assert (0 <= ((if Z.lor (v / 128 / 128) 1 =? 0 then 0
                       else Z.log2 (Z.lor (v / 128 / 128) 1) + 1) + 6) / 7)
           by (apply Z.div_pos; lia).
         lia.
  - replace (2 ^ (7 * Z.of_nat (S (S n)))) with (128 * 2 ^ (7 * Z.of_nat (S n))).
    2:{ replace (7 * Z.of_nat (S (S n))) with (7 + 7 * Z.of_nat (S n)) by lia.
        now rewrite Z.pow_add_r by lia. }
    assert (Hp : 0 < 2 ^ (7 * Z.of_nat (S n))) by (apply Z.pow_pos_nonneg; lia).
    destruct (Z_lt_ge_dec v 128) as [Hlt|Hge].
    + destruct (Z_lt_ge_dec v 0) as [Hneg|Hpos].
      * split; [lia|]. intros _. unfold sovTx, Len64.
        assert (Hl : Z.lor v 1 < 0) by (apply Z.lor_neg; lia).
        replace (Z.lor v 1 =? 0) with false by (symmetry; apply Z.eqb_neq; lia).
        rewrite Z.log2_nonpos by lia. change ((0 + 1 + 6) / 7) with 1. lia.
      * rewrite sovTx_small by lia. split; lia.
    + rewrite sovTx_step by lia. specialize (IH (v / 128)).
      split.
      * intros Hle. assert (v / 128 < 2 ^ (7 * Z.of_nat (S n))) by (apply IH; lia).
        pose proof (Z.div_mod v 128 ltac:(lia)).
        pose proof (Z.mod_pos_bound v 128 ltac:(lia)). lia.
      * intros Hlt. assert (sovTx (v / 128) <= Z.of_nat (S n)); [|lia].
        apply IH. apply Z.div_lt_upper_bound; lia.
Qed.

Lemma sovTx_least_groups_witness :
  0 <= 300 < 2 ^ 64
  /\ (sovTx 300 <= Z.of_nat 2 <-> 300 < 2 ^ (7 * Z.of_nat 2))
  /\ 1 <= sovTx 300 <= 10.
Proof.
  assert (Hv : 0 <= 300 < 2 ^ 64) by (split; [discriminate | reflexivity]).
  exact (conj Hv (sovTx_least_groups 300 1 Hv)).
Defined.

End VarintMore.

(** ** skipTx on well-formed fields *)

Section SkipExact.
Import Go Tx Wire.

Lemma wfield_ind' (P : wfield -> Prop) :
  (forall num v, P (WVarint num v)) ->
  (forall num bs, P (WFixed64 num bs)) ->
  (forall num p, P (WBytes num p)) ->
  (forall num fs, Forall P fs -> P (WGroup num fs)) ->
  (forall num bs, P (WFixed32 num bs)) ->
  forall f, P f.
Proof.
  intros Hv H64 Hb Hg H32. fix IH 1. intros [num v|num bs|num p|num fs|num bs].
  - apply Hv.
  - apply H64.
  - apply Hb.
  - apply Hg. induction fs as [|f fs IHfs]; [apply Forall_nil_2|].
    apply Forall_cons_2; [apply IH | exact IHfs].
  - apply H32.
Qed.

Lemma wfields_bytes_cons f fs :
  wfields_bytes (f :: fs) = wfield_bytes f ++ wfields_bytes fs.
Proof. reflexivity. Qed.

Lemma wfields_tags_cons f fs :
  wfields_tags (f :: fs) = (wfield_tags f + wfields_tags fs)%nat.
Proof. reflexivity. Qed.

Lemma wfields_ok_cons f fs : wfields_ok (f :: fs) <-> wfield_ok f /\ wfields_ok fs.
Proof. reflexivity. Qed.

Lemma WGroup_bytes num fs :
  wfield_bytes (WGroup num fs) = tag num 3 ++ wfields_bytes fs ++ tag num 4.
Proof. reflexivity. Qed.

Lemma WGroup_tags num fs : wfield_tags (WGroup num fs) = S (S (wfields_tags fs)).
Proof. reflexivity. Qed.

Lemma WGroup_ok num fs : wfield_ok (WGroup num fs) <-> num_ok num /\ wfields_ok fs.
Proof. reflexivity. Qed.

(** The number a tag is the varint of. *)
Lemma tag_number num wt :
  num_ok num -> 0 <= wt < 8 ->
  let t := Z.lor (Z.shiftl num 3) wt in
  0 <= t < 2 ^ 64 /\ Z.land t 0x7 = wt /\ Z.shiftr t 3 = num.
Proof.
  intros [Hn0 Hn1] Hwt t. subst t.
  rewrite Z.shiftl_mul_pow2 by lia. rewrite Z.lor_comm.
  rewrite lor_disjoint by (simpl; lia). change (2 ^ 3) with 8.
  change (2 ^ 61) with 2305843009213693952 in Hn1.
  change (2 ^ 64) with 18446744073709551616.
  split; [lia|]. split.
  - rewrite land_7. rewrite Z.mod_add by lia. apply Z.mod_small. lia.
  - rewrite Z.shiftr_div_pow2 by lia. change (2 ^ 3) with 8.
    rewrite Z.div_add by lia. rewrite Z.div_small by lia. lia.
Qed.

Lemma len_tag_pos num wt : 0 < len (tag num wt).
Proof.
  unfold tag. generalize (Z.lor (Z.shiftl num 3) wt). intros t.
  unfold len. cbn [varint]. destruct (128 <=? t); cbn [length]; lia.
Qed.

Lemma read_varint_at_tag pre num wt rest :
  num_ok num -> 0 <= wt < 8 ->
  read_varint (pre ++ tag num wt ++ rest) (len (pre ++ tag num wt ++ rest)) (len pre)
  = Ok (Z.lor (Z.shiftl num 3) wt, len pre + len (tag num wt)).
Proof.
  intros Hn Hwt. destruct (tag_number num wt Hn Hwt) as (Ht & _ & _).
  unfold tag. now rewrite read_varint_varint.
Qed.

(** A round of the loop of [skipTx] on a tag, given what the switch
    does behind it. *)
Lemma skipTx_round fuel pre num wt rest d i' d' :
  num_ok num -> 0 <= wt < 8 ->
  let dAtA := pre ++ tag num wt ++ rest in
  skipTx_switch dAtA (len dAtA) (len pre + len (tag num wt)) d wt = Ok (i', d') ->
  0 <= i' ->
  skipTx_loop (S fuel) dAtA (len dAtA) (len pre) d
  = if d' =? 0 then Ok i' else skipTx_loop fuel dAtA (len dAtA) i' d'.
Proof.
  intros Hn Hwt dAtA Hsw Hi. rewrite skipTx_loop_eq.
  pose proof (len_tag_pos num wt).
  replace (len dAtA <=? len pre) with false
    by (symmetry; apply Z.leb_gt; subst dAtA; len_lia).
  subst dAtA. rewrite read_varint_at_tag by assumption. cbn [obind].
  destruct (tag_number num wt Hn Hwt) as (_ & -> & _).
  rewrite Hsw. cbn [obind].
  now replace (i' <? 0) with false by (symmetry; apply Z.ltb_ge; lia).
Qed.

Lemma skips_fields fs :
  Forall (fun f => skips (wfield_bytes f) (wfield_tags f)) fs ->
  forall pre rest d fuel,
    let dAtA := pre ++ wfields_bytes fs ++ rest in
    len dAtA < 2 ^ 63 -> 0 < d -> d + len (wfields_bytes fs) < 2 ^ 63 ->
    skipTx_loop (wfields_tags fs + fuel) dAtA (len dAtA) (len pre) d
    = skipTx_loop fuel dAtA (len dAtA) (len pre + len (wfields_bytes fs)) d.
Proof.
  induction fs as [|f fs IH]; intros Hall pre rest d fuel dAtA Hlen Hd Hdl.
  - cbn. now rewrite Z.add_0_r.
  - apply Forall_cons in Hall as [Hf Hfs]. subst dAtA.
    rewrite wfields_bytes_cons, wfields_tags_cons in *.
    rewrite <- Nat.add_assoc.
    replace (pre ++ (wfield_bytes f ++ wfields_bytes fs) ++ rest)
      with (pre ++ wfield_bytes f ++ (wfields_bytes fs ++ rest)) in * by app_eq.
    rewrite (Hf pre (wfields_bytes fs ++ rest) d) by (assumption || len_lia).
    replace (d =? 0) with false by (symmetry; apply Z.eqb_neq; lia).
    replace (pre ++ wfield_bytes f ++ wfields_bytes fs ++ rest)
      with ((pre ++ wfield_bytes f) ++ wfields_bytes fs ++ rest) in * by app_eq.
    replace (len pre + len (wfield_bytes f)) with (len (pre ++ wfield_bytes f))
      by len_lia.
    rewrite (IH Hfs (pre ++ wfield_bytes f) rest d fuel) by (assumption || len_lia).
    f_equal. len_lia.
Qed.

End SkipExact.

Section SkipExact2.
Import Go Tx Wire.

Lemma wfield_skips : forall f, wfield_ok f -> skips (wfield_bytes f) (wfield_tags f).
Proof.
  assert (Hwt : forall k, k = 0 \/ k = 1 \/ k = 2 \/ k = 3 \/ k = 4 \/ k = 5 ->
                          0 <= k < 8) by lia.
  apply (wfield_ind' (fun f => wfield_ok f -> skips (wfield_bytes f) (wfield_tags f))).
  - (* varint *)
    intros num v [Hn Hv] pre rest d fuel dAtA Hlen Hd Hdl. subst dAtA.
    cbn [wfield_bytes wfield_tags Nat.add] in *.
    replace (pre ++ (tag num 0 ++ varint 9 v) ++ rest)
      with (pre ++ tag num 0 ++ (varint 9 v ++ rest)) in * by app_eq.
    rewrite (skipTx_round fuel pre num 0 (varint 9 v ++ rest) d
               (len pre + len (tag num 0 ++ varint 9 v)) d);
      [reflexivity | exact Hn | lia | | len_lia].
    unfold skipTx_switch. cbn [Z.eqb].
    replace (pre ++ tag num 0 ++ varint 9 v ++ rest)
      with ((pre ++ tag num 0) ++ varint 9 v ++ rest) by app_eq.
    replace (len pre + len (tag num 0)) with (len (pre ++ tag num 0)) by len_lia.
    rewrite read_varint_varint by exact Hv. cbn [obind]. do 2 f_equal. len_lia.
  - (* fixed64 *)
    intros num bs [Hn Hbs] pre rest d fuel dAtA Hlen Hd Hdl. subst dAtA.
    cbn [wfield_bytes wfield_tags Nat.add] in *.
    replace (pre ++ (tag num 1 ++ bs) ++ rest)
      with (pre ++ tag num 1 ++ (bs ++ rest)) in * by app_eq.
    rewrite (skipTx_round fuel pre num 1 (bs ++ rest) d
               (len pre + len (tag num 1 ++ bs)) d);
      [reflexivity | exact Hn | lia | | len_lia].
    unfold skipTx_switch. cbn [Z.eqb Pos.eqb].
    rewrite wrap_int_small by len_lia. do 2 f_equal. len_lia.
  - (* bytes *)
    intros num p Hn pre rest d fuel dAtA Hlen Hd Hdl. subst dAtA.
    cbn [wfield_bytes wfield_tags Nat.add] in *.
    replace (pre ++ (tag num 2 ++ varint 9 (len p) ++ p) ++ rest)
      with (pre ++ tag num 2 ++ (varint 9 (len p) ++ p ++ rest)) in * by app_eq.
    assert (Hp : 0 <= len p < 2 ^ 63) by (split; [apply len_nonneg | len_lia]).
    rewrite (skipTx_round fuel pre num 2 (varint 9 (len p) ++ p ++ rest) d
               (len pre + len (tag num 2 ++ varint 9 (len p) ++ p)) d);
      [reflexivity | exact Hn | lia | | len_lia].
    unfold skipTx_switch. cbn [Z.eqb Pos.eqb].
    replace (pre ++ tag num 2 ++ varint 9 (len p) ++ p ++ rest)
      with ((pre ++ tag num 2) ++ varint 9 (len p) ++ p ++ rest) by app_eq.
    replace (len pre + len (tag num 2)) with (len (pre ++ tag num 2)) by len_lia.
    rewrite read_varint_varint by lia. cbn [obind].
    rewrite (wrap_int_small (len p)) by lia.
    replace (len p <? 0) with false by (symmetry; apply Z.ltb_ge; lia).
    rewrite wrap_int_small by len_lia. do 2 f_equal. len_lia.
  - (* group *)
    intros num fs IH Hok pre rest d fuel dAtA Hlen Hd Hdl. subst dAtA.
    apply WGroup_ok in Hok as [Hn Hfs].
    rewrite WGroup_bytes, WGroup_tags in *.
    assert (Hall : Forall (fun f => skips (wfield_bytes f) (wfield_tags f)) fs).
    { clear -IH Hfs. induction fs as [|f fs IHfs]; [apply Forall_nil_2|].
      apply Forall_cons in IH as [Hf IH]. apply wfields_ok_cons in Hfs as [Hokf Hokfs].
      apply Forall_cons_2; [now apply Hf | now apply IHfs]. }
    pose proof (len_tag_pos num 3) as Ht3. pose proof (len_tag_pos num 4) as Ht4.
    pose proof (len_nonneg (wfields_bytes fs)) as Hfb.
    (* the start tag *)
    replace (pre ++ (tag num 3 ++ wfields_bytes fs ++ tag num 4) ++ rest)
      with (pre ++ tag num 3 ++ (wfields_bytes fs ++ tag num 4 ++ rest)) in * by app_eq.
    cbn [Nat.add].
    rewrite (skipTx_round _ pre num 3 (wfields_bytes fs ++ tag num 4 ++ rest) d
               (len pre + len (tag num 3)) (d + 1));
      [| exact Hn | lia | | len_lia].
    2:{ unfold skipTx_switch. cbn [Z.eqb Pos.eqb].
        rewrite wrap_int_small; [reflexivity|]. revert Hdl. len_lia. }
    replace (d + 1 =? 0) with false by (symmetry; apply Z.eqb_neq; lia).
    (* the fields of the group *)
    replace (S (wfields_tags fs + fuel)) with (wfields_tags fs + S fuel)%nat by lia.
    replace (pre ++ tag num 3 ++ wfields_bytes fs ++ tag num 4 ++ rest)
      with ((pre ++ tag num 3) ++ wfields_bytes fs ++ (tag num 4 ++ rest)) in * by app_eq.
    replace (len pre + len (tag num 3)) with (len (pre ++ tag num 3)) by len_lia.
    rewrite (skips_fields fs Hall (pre ++ tag num 3) (tag num 4 ++ rest) (d + 1) (S fuel));
      [| exact Hlen | lia | revert Hdl; len_lia].
    (* the end tag *)
    replace ((pre ++ tag num 3) ++ wfields_bytes fs ++ (tag num 4 ++ rest))
      with (((pre ++ tag num 3) ++ wfields_bytes fs) ++ tag num 4 ++ rest) in * by app_eq.
    replace (len (pre ++ tag num 3) + len (wfields_bytes fs))
      with (len ((pre ++ tag num 3) ++ wfields_bytes fs)) by len_lia.
    rewrite (skipTx_round fuel ((pre ++ tag num 3) ++ wfields_bytes fs) num 4 rest (d + 1)
               (len pre + len (tag num 3 ++ wfields_bytes fs ++ tag num 4)) d);
      [reflexivity | exact Hn | lia | | len_lia].
    unfold skipTx_switch. cbn [Z.eqb Pos.eqb].
    replace (d + 1 =? 0) with false by (symmetry; apply Z.eqb_neq; lia).
    replace (d + 1 - 1) with d by lia.
    rewrite wrap_int_small by (revert Hdl; len_lia). do 2 f_equal. len_lia.
  - (* fixed32 *)
    intros num bs [Hn Hbs] pre rest d fuel dAtA Hlen Hd Hdl. subst dAtA.
    cbn [wfield_bytes wfield_tags Nat.add] in *.
    replace (pre ++ (tag num 5 ++ bs) ++ rest)
      with (pre ++ tag num 5 ++ (bs ++ rest)) in * by app_eq.
    rewrite (skipTx_round fuel pre num 5 (bs ++ rest) d
               (len pre + len (tag num 5 ++ bs)) d);
      [reflexivity | exact Hn | lia | | len_lia].
    unfold skipTx_switch. cbn [Z.eqb Pos.eqb].
    rewrite wrap_int_small by len_lia. do 2 f_equal. len_lia.
Qed.

Lemma wfield_tags_le f : (wfield_tags f <= length (wfield_bytes f))%nat.
Proof.
  induction f as [num v|num bs|num p|num fs IH|num bs] using wfield_ind';
    try (cbn [wfield_bytes wfield_tags]; rewrite length_app;
         pose proof (len_tag_pos num 0); pose proof (len_tag_pos num 1);
         pose proof (len_tag_pos num 2); pose proof (len_tag_pos num 5);
         unfold len in *; lia).
  rewrite WGroup_bytes, WGroup_tags, !length_app.
  pose proof (len_tag_pos num 3). pose proof (len_tag_pos num 4).
  assert (wfields_tags fs <= length (wfields_bytes fs))%nat.
  { induction fs as [|f fs IHfs]; [cbn; lia|].
    apply Forall_cons in IH as [Hf IH].
    rewrite wfields_tags_cons, wfields_bytes_cons, length_app.
    specialize (IHfs IH). lia. }
  unfold len in *. lia.
Qed.

Lemma skipTx_wfield (f : wfield) (trailer : list Z) :
  wfield_ok f ->
  len (wfield_bytes f ++ trailer) < 2 ^ 63 ->
  skipTx (wfield_bytes f ++ trailer) = Ok (len (wfield_bytes f)).
Proof.
  intros Hok Hlen. unfold skipTx.
  pose proof (wfield_tags_le f) as Htags.
  replace (length (wfield_bytes f ++ trailer))
    with (wfield_tags f + (length (wfield_bytes f ++ trailer) - wfield_tags f))%nat
    by (rewrite length_app; lia).
  pose proof (wfield_skips f Hok [] trailer 0
                (length (wfield_bytes f ++ trailer) - wfield_tags f)%nat) as H.
  cbn [app] in H. change (len []) with 0 in H.
  rewrite H; [reflexivity | exact Hlen | lia | revert Hlen; len_lia].
Qed.

(** X4.  [skipTx] is exact on a well-formed field of any wire type,
    groups within groups included: on the bytes of the field followed
    by anything, it returns the number of bytes of the field. *)
Theorem skipTx_exact (f : wfield) (trailer : list Z) :
  wfield_ok f ->
  len (wfield_bytes f ++ trailer) < 2 ^ 63 ->
  skipTx (wfield_bytes f ++ trailer) = Ok (len (wfield_bytes f)).
Proof. apply skipTx_wfield. Qed.

Lemma skipTx_exact_witness :
  let f := WGroup 7 [WVarint 1 300; WGroup 2 [WBytes 3 [65; 66]]; WFixed32 4 [1; 2; 3; 4]] in
  wfield_bytes f = [59; 8; 172; 2; 19; 26; 2; 65; 66; 20; 37; 1; 2; 3; 4; 60]
  /\ skipTx (wfield_bytes f ++ [9; 9]) = Ok 16.
Proof.
  intros f.
  assert (Hok : wfield_ok f) by (vm_compute; intuition discriminate).
  assert (Hlen : len (wfield_bytes f ++ [9; 9]) < 2 ^ 63) by (vm_compute; reflexivity).
  split; [vm_compute; reflexivity|].
  rewrite (skipTx_exact f [9; 9] Hok Hlen). vm_compute. reflexivity.
Defined.

End SkipExact2.

(** ** Decoding field by field *)

Section FieldRounds.
Import Go Tx Wire.

Lemma wfield_bytes_tag f :
  exists body, wfield_bytes f = tag (wfield_num f) (wfield_wireType f) ++ body.
Proof.
  destruct f; cbn [wfield_num wfield_wireType]; eexists; reflexivity.
Qed.

Lemma wfield_wireType_range f :
  0 <= wfield_wireType f < 8 /\ wfield_wireType f <> 4.
Proof. destruct f; cbn; lia. Qed.

Lemma wfield_ok_num f : wfield_ok f -> num_ok (wfield_num f).
Proof.
  destruct f; cbn; tauto.
Qed.

Lemma slice_from_app pre x : slice_from (pre ++ x) (len pre) = x.
Proof. unfold slice_from, len. rewrite Nat2Z.id. apply drop_app_length. Qed.

(** The [default] arm on a well-formed field. *)
Lemma unmarshal_skip_field pre f rest :
  wfield_ok f ->
  let dAtA := pre ++ wfield_bytes f ++ rest in
  len dAtA < 2 ^ 63 ->
  unmarshal_skip dAtA (len dAtA) (len pre) = Ok (len pre + len (wfield_bytes f)).
Proof.
  intros Hok dAtA Hlen. subst dAtA. unfold unmarshal_skip.
  rewrite slice_from_app.
  rewrite skipTx_wfield by (exact Hok || (revert Hlen; len_lia)).
  cbn [obind].
  pose proof (len_nonneg (wfield_bytes f)) as H0. pose proof (len_nonneg pre) as H1.
  replace (len (wfield_bytes f) <? 0) with false by (symmetry; apply Z.ltb_ge; lia).
  rewrite wrap_int_small by (revert Hlen; len_lia).
  replace (len pre + len (wfield_bytes f) <? 0) with false
    by (symmetry; apply Z.ltb_ge; lia).
  replace (len (pre ++ wfield_bytes f ++ rest) <? len pre + len (wfield_bytes f))
    with false by (symmetry; apply Z.ltb_ge; len_lia).
  reflexivity.
Qed.


Context {Msg : Type}.
Variable name : string.
Variable switch : Msg -> list Z -> Z -> Z -> Z -> Z -> Z -> Msg * outcome Z.

(** A round of the loop of [Unmarshal] on a tag that is not refused,
    given what the switch does behind it. *)
Lemma Unmarshal_loop_tag fuel m pre num wt rest :
  num_ok num -> 0 <= wt < 8 -> wt <> 4 -> 0 < wrap_int32 num ->
  let dAtA := pre ++ tag num wt ++ rest in
  Unmarshal_loop name switch (S fuel) m dAtA (len dAtA) (len pre)
  = match switch m dAtA (len dAtA) (len pre) (len pre + len (tag num wt))
            (wrap_int32 num) wt with
    | (m', Ok next) => Unmarshal_loop name switch fuel m' dAtA (len dAtA) next
    | (m', Err e) => (m', Err e)
    | (m', Panic p) => (m', Panic p)
    | (m', OutOfFuel) => (m', OutOfFuel)
    end.
Proof.
  intros Hn Hwt Hwt4 Hfn dAtA. rewrite Unmarshal_loop_eq.
  pose proof (len_tag_pos num wt).
  replace (len dAtA <=? len pre) with false
    by (symmetry; apply Z.leb_gt; subst dAtA; len_lia).
  subst dAtA. rewrite read_varint_at_tag by assumption. cbv zeta.
  destruct (tag_number num wt Hn Hwt) as (_ & -> & ->).
  replace (wt =? 4) with false by (symmetry; now apply Z.eqb_neq).
  replace (wrap_int32 num <=? 0) with false by (symmetry; apply Z.leb_gt; lia).
  reflexivity.
Qed.

(** The same on a readable field which the switch gets past. *)
Lemma Unmarshal_loop_field fuel m m' pre f rest :
  readable f ->
  let dAtA := pre ++ wfield_bytes f ++ rest in
  switch m dAtA (len dAtA) (len pre)
    (len pre + len (tag (wfield_num f) (wfield_wireType f)))
    (wfield_fieldNum f) (wfield_wireType f)
  = (m', Ok (len pre + len (wfield_bytes f))) ->
  Unmarshal_loop name switch (S fuel) m dAtA (len dAtA) (len pre)
  = Unmarshal_loop name switch fuel m' dAtA (len dAtA) (len pre + len (wfield_bytes f)).
Proof.
  intros [Hok Hfn] dAtA Hsw. subst dAtA.
  destruct (wfield_bytes_tag f) as [body Hbody].
  destruct (wfield_wireType_range f) as [Hwt Hwt4].
  pose proof (wfield_ok_num f Hok) as Hn.
  rewrite Hbody in *.
  replace (pre ++ (tag (wfield_num f) (wfield_wireType f) ++ body) ++ rest)
    with (pre ++ tag (wfield_num f) (wfield_wireType f) ++ (body ++ rest)) in *
    by app_eq.
  rewrite Unmarshal_loop_tag by assumption.
  fold (wfield_fieldNum f). now rewrite Hsw.
Qed.

(** A run of fields, each of which the switch gets past. *)
Lemma Unmarshal_loop_fields (set : Msg -> wfield -> Msg) (P : wfield -> Prop) :
  (forall m pre f rest, P f -> readable f ->
     let dAtA := pre ++ wfield_bytes f ++ rest in
     len dAtA < 2 ^ 63 ->
     switch m dAtA (len dAtA) (len pre)
       (len pre + len (tag (wfield_num f) (wfield_wireType f)))
       (wfield_fieldNum f) (wfield_wireType f)
     = (set m f, Ok (len pre + len (wfield_bytes f)))) ->
  forall fs fuel m pre rest,
    Forall readable fs -> Forall P fs ->
    let dAtA := pre ++ wfields_bytes fs ++ rest in
    len dAtA < 2 ^ 63 ->
    Unmarshal_loop name switch (length fs + fuel) m dAtA (len dAtA) (len pre)
    = Unmarshal_loop name switch fuel (fold_left set fs m) dAtA (len dAtA)
        (len pre + len (wfields_bytes fs)).
Proof.
  intros Hsw. induction fs as [|f fs IH]; intros fuel m pre rest Hr HP dAtA Hlen.
  - cbn. now rewrite Z.add_0_r.
  - apply Forall_cons in Hr as [Hf Hr]. apply Forall_cons in HP as [HPf HP].
    subst dAtA. rewrite wfields_bytes_cons in *. cbn [length Nat.add fold_left].
    replace (pre ++ (wfield_bytes f ++ wfields_bytes fs) ++ rest)
      with (pre ++ wfield_bytes f ++ (wfields_bytes fs ++ rest)) in * by app_eq.
    rewrite (Unmarshal_loop_field _ m (set m f) pre f (wfields_bytes fs ++ rest) Hf)
      by (apply Hsw; assumption).
    replace (pre ++ wfield_bytes f ++ wfields_bytes fs ++ rest)
      with ((pre ++ wfield_bytes f) ++ wfields_bytes fs ++ rest) in * by app_eq.
    replace (len pre + len (wfield_bytes f)) with (len (pre ++ wfield_bytes f))
      by len_lia.
    rewrite (IH fuel (set m f) (pre ++ wfield_bytes f) rest Hr HP Hlen).
    f_equal. len_lia.
Qed.

Lemma wfields_length fs : (length fs <= length (wfields_bytes fs))%nat.
Proof.
  induction fs as [|f fs IH]; [cbn; lia|].
  rewrite wfields_bytes_cons, length_app. cbn [length].
  pose proof (wfield_tags_le f). destruct f; cbn [wfield_tags] in *; lia.
Qed.

(** [Unmarshal] on the bytes of a run of such fields. *)
Lemma Unmarshal_with_fields (set : Msg -> wfield -> Msg) (P : wfield -> Prop) :
  (forall m pre f rest, P f -> readable f ->
     let dAtA := pre ++ wfield_bytes f ++ rest in
     len dAtA < 2 ^ 63 ->
     switch m dAtA (len dAtA) (len pre)
       (len pre + len (tag (wfield_num f) (wfield_wireType f)))
       (wfield_fieldNum f) (wfield_wireType f)
     = (set m f, Ok (len pre + len (wfield_bytes f)))) ->
  forall fs m,
    Forall readable fs -> Forall P fs ->
    len (wfields_bytes fs) < 2 ^ 63 ->
    Unmarshal_with name switch m (wfields_bytes fs) = (fold_left set fs m, Ok tt).
Proof.
  intros Hsw fs m Hr HP Hlen. unfold Unmarshal_with.
  pose proof (wfields_length fs) as Hfs.
  replace (length (wfields_bytes fs))
    with (length fs + (length (wfields_bytes fs) - length fs))%nat by lia.
  pose proof (Unmarshal_loop_fields set P Hsw fs
                (length (wfields_bytes fs) - length fs) m [] [] Hr HP) as H.
  cbv zeta in H. rewrite app_nil_r in H. cbn [app] in H.
  change (len (@nil Z)) with 0 in H. rewrite Z.add_0_l in H.
  rewrite H by exact Hlen. apply Unmarshal_loop_end.
Qed.

End FieldRounds.

Section RevokeFields.
Import Go Tx Wire MsgRevokeFeeAllowance.





End RevokeFields.

Section ResponseFields.
Import Go Tx Wire.

Lemma fold_left_const {A B} (l : list B) (a : A) : fold_left (fun a _ => a) l a = a.
Proof. induction l; [reflexivity | assumption]. Qed.

(** X6.  The two responses have no fields: their [Unmarshal] accepts
    every run of well-formed fields with positive numbers and leaves the
    destination as it was. *)
Theorem Response_Unmarshal_fields (fs : list wfield) :
  Forall readable fs ->
  len (wfields_bytes fs) < 2 ^ 63 ->
  (forall m, MsgGrantFeeAllowanceResponse.Unmarshal m (wfields_bytes fs) = (m, Ok tt))
  /\ (forall m, MsgRevokeFeeAllowanceResponse.Unmarshal m (wfields_bytes fs) = (m, Ok tt)).
Proof.
  intros Hr Hlen.
  assert (HT : Forall (fun _ : wfield => True) fs) by (apply Forall_forall; auto).
  split; intros m.
  - unfold MsgGrantFeeAllowanceResponse.Unmarshal.
    rewrite (Unmarshal_with_fields _ _ (fun m _ => m) (fun _ => True));
      [now rewrite fold_left_const | | assumption..].
    intros m0 pre f rest _ [Hok _] dAtA Hl. subst dAtA.
    unfold MsgGrantFeeAllowanceResponse.switch.
    now rewrite unmarshal_skip_field.
  - unfold MsgRevokeFeeAllowanceResponse.Unmarshal.
    rewrite (Unmarshal_with_fields _ _ (fun m _ => m) (fun _ => True));
      [now rewrite fold_left_const | | assumption..].
    intros m0 pre f rest _ [Hok _] dAtA Hl. subst dAtA.
    unfold MsgRevokeFeeAllowanceResponse.switch.
    now rewrite unmarshal_skip_field.
Qed.

Lemma Response_Unmarshal_fields_witness :
  let fs := [WBytes 1 [65]; WVarint 7 300] in
  wfields_bytes fs = [10; 1; 65; 56; 172; 2]
  /\ MsgRevokeFeeAllowanceResponse.Unmarshal MsgRevokeFeeAllowanceResponse.zero
       (wfields_bytes fs)
     = (MsgRevokeFeeAllowanceResponse.zero, Ok tt).
Proof.
  intros fs.
  assert (Hr : Forall readable fs).
  { repeat apply Forall_cons_2; try apply Forall_nil_2;
      vm_compute; intuition discriminate. }
  assert (Hlen : len (wfields_bytes fs) < 2 ^ 63) by (vm_compute; reflexivity).
  split; [vm_compute; reflexivity|].
  apply (proj2 (Response_Unmarshal_fields fs Hr Hlen)).
Defined.

End ResponseFields.

Section FieldRoundsAny.
Import Go Tx Wire.
Context {Msg : Type}.
Variable name : string.
Variable switch : Msg -> list Z -> Z -> Z -> Z -> Z -> Z -> Msg * outcome Z.


End FieldRoundsAny.

Section GrantFields.
Import Go Tx Wire MsgGrantFeeAllowance.
Context `{AnyMethods}.





End GrantFields.

Section GrantFieldsExample.
Import Go Tx Wire Examples.


End GrantFieldsExample.

Section RevokeErrors.
Import Go Tx Wire MsgRevokeFeeAllowance.




End RevokeErrors.

Section LengthErrors.
Import Go Tx Wire MsgRevokeFeeAllowance.

Lemma wrap_int_negative z : 2 ^ 63 <= z < 2 ^ 64 -> wrap_int z = z - 2 ^ 64.
Proof.
  intros Hz. unfold wrap_int.
  replace (z + 2 ^ 63) with (z - 2 ^ 63 + 1 * 2 ^ 64) by lia.
  rewrite Z.mod_add by lia. rewrite Z.mod_small; lia.
Qed.







End LengthErrors.

Section MarshalMore.
Import Go Tx Wire.

Lemma prefix_app a b : prefix (a ++ b) (len a) = Ok a.
Proof.
  unfold prefix.
  replace ((0 <=? len a) && (len a <=? len (a ++ b))) with true.
  - unfold len. now rewrite Nat2Z.id, take_app_length.
  - symmetry. apply andb_true_iff. split; apply Z.leb_le; len_lia.
Qed.

Lemma prefix_short dAtA n : len dAtA < n -> prefix dAtA n = Panic PanicSliceBounds.
Proof.
  intros Hn. unfold prefix.
  replace (n <=? len dAtA) with false by (symmetry; apply Z.leb_gt; lia).
  now rewrite andb_false_r.
Qed.

Lemma split_at (dAtA : list Z) (n : Z) :
  0 <= n <= len dAtA ->
  exists a b, dAtA = a ++ b /\ len a = n /\ b = drop (Z.to_nat n) dAtA.
Proof.
  intros Hn. exists (take (Z.to_nat n) dAtA), (drop (Z.to_nat n) dAtA).
  split; [now rewrite take_drop|]. split; [|reflexivity].
  unfold len in *. rewrite length_take. lia.
Qed.

(** X10.  The encoding of [MsgRevokeFeeAllowance] tells two messages
    apart exactly when they differ by more than a field that is nil in
    one and empty in the other. *)
Theorem Revoke_Marshal_injective (m1 m2 : MsgRevokeFeeAllowance.t) :
  MsgRevoke_size m1 < 2 ^ 63 -> MsgRevoke_size m2 < 2 ^ 63 ->
  (MsgRevokeFeeAllowance.Marshal m1 = MsgRevokeFeeAllowance.Marshal m2
   <-> absent_if_empty (MsgRevokeFeeAllowance.Granter m1)
       = absent_if_empty (MsgRevokeFeeAllowance.Granter m2)
       /\ absent_if_empty (MsgRevokeFeeAllowance.Grantee m1)
          = absent_if_empty (MsgRevokeFeeAllowance.Grantee m2)).
Proof.
  intros H1 H2. rewrite <- len_MsgRevoke in H1, H2.
  rewrite !Revoke_Marshal by assumption. split.
  - intros [= Heq].
    pose proof (Revoke_Unmarshal_wire m1 H1) as U1.
    pose proof (Revoke_Unmarshal_wire m2 H2) as U2.
    rewrite Heq in U1. rewrite U1 in U2. now injection U2.
  - intros [Hg He]. f_equal. unfold MsgRevoke, bytes_field.
    assert (Hb : forall f1 f2, absent_if_empty f1 = absent_if_empty f2 ->
              forall tag, (if flen f1 >? 0 then field tag (fdata f1) else [])
                          = (if flen f2 >? 0 then field tag (fdata f2) else [])).
    { intros [[|b1 p1]|] [[|b2 p2]|]; cbn; try discriminate; try reflexivity.
      now intros [= -> ->]. }
    now rewrite (Hb _ _ Hg), (Hb _ _ He).
Qed.

Lemma Revoke_Marshal_injective_witness :
  MsgRevokeFeeAllowance.Marshal (MsgRevokeFeeAllowance.mk (Some []) (Some [66]))
  = MsgRevokeFeeAllowance.Marshal (MsgRevokeFeeAllowance.mk None (Some [66])).
Proof.
  apply (proj2 (Revoke_Marshal_injective
                  (MsgRevokeFeeAllowance.mk (Some []) (Some [66]))
                  (MsgRevokeFeeAllowance.mk None (Some [66]))
                  ltac:(vm_compute; reflexivity) ltac:(vm_compute; reflexivity))).
  split; reflexivity.
Defined.

(** X11.  [MarshalToSizedBuffer] and [MarshalTo] of
    [MsgRevokeFeeAllowance] write the bytes [Marshal] returns and return
    their number: the former over the end of its buffer, the latter over
    the start; the other bytes of the buffer stay.  [MarshalTo] panics on
    a buffer whose capacity is below [Size]. *)
Theorem Revoke_MarshalTo (m : MsgRevokeFeeAllowance.t) (dAtA : list Z) :
  MsgRevoke_size m < 2 ^ 63 -> len dAtA < 2 ^ 63 ->
  exists bs,
    MsgRevokeFeeAllowance.Marshal m = Ok bs
    /\ (len bs <= len dAtA ->
        MsgRevokeFeeAllowance.MarshalToSizedBuffer m dAtA
        = Ok (take (Z.to_nat (len dAtA - len bs)) dAtA ++ bs, len bs)
        /\ MsgRevokeFeeAllowance.MarshalTo m dAtA
           = Ok (bs ++ drop (Z.to_nat (len bs)) dAtA, len bs))
    /\ (len dAtA < len bs ->
        MsgRevokeFeeAllowance.MarshalTo m dAtA = Panic PanicSliceBounds).
Proof.
  intros Hsize Hlen. rewrite <- len_MsgRevoke in Hsize.
  exists (MsgRevoke m). split; [now apply Revoke_Marshal|].
  pose proof (len_nonneg (MsgRevoke m)) as Hn.
  split.
  - intros Hfit. split.
    + destruct (split_at dAtA (len dAtA - len (MsgRevoke m))) as (a & b & Hd & Ha & _);
        [lia|].
      rewrite Hd at 1.
      rewrite Revoke_MarshalToSizedBuffer.
      * do 2 f_equal. rewrite Hd at 2. rewrite <- Ha.
        unfold len. now rewrite Nat2Z.id, take_app_length.
      * apply Nat2Z.inj. fold (len b). fold (len (MsgRevoke m)).
        rewrite Hd in Ha. revert Ha. len_lia.
      * now rewrite <- Hd.
    + unfold MsgRevokeFeeAllowance.MarshalTo.
      rewrite Revoke_Size by exact Hsize.
      destruct (split_at dAtA (len (MsgRevoke m))) as (a & b & Hd & Ha & Hb); [lia|].
      rewrite Hd at 1. rewrite <- Ha at 1. rewrite prefix_app. cbn [obind].
      rewrite <- (app_nil_l a).
      rewrite Revoke_MarshalToSizedBuffer.
      * reflexivity.
      * apply Nat2Z.inj. exact Ha.
      * cbn [app]. rewrite Ha. lia.
  - intros Hshort. unfold MsgRevokeFeeAllowance.MarshalTo.
    rewrite Revoke_Size by exact Hsize.
    now rewrite prefix_short.
Qed.

Lemma Revoke_MarshalTo_witness :
  MsgRevokeFeeAllowance.MarshalTo (MsgRevokeFeeAllowance.mk (Some [65]) None)
    [1; 2; 3; 4; 5]
  = Ok ([10; 1; 65; 4; 5], 3).
Proof.
  destruct (Revoke_MarshalTo (MsgRevokeFeeAllowance.mk (Some [65]) None) [1; 2; 3; 4; 5]
              ltac:(vm_compute; reflexivity) ltac:(vm_compute; reflexivity))
    as (bs & Hbs & Hfit & _).
  vm_compute in Hbs. injection Hbs as <-.
  exact (proj2 (Hfit ltac:(vm_compute; discriminate))).
Defined.

End MarshalMore.

Section GrantMarshalTo.
Import Go Tx Wire.

(** X12.  [MarshalToSizedBuffer] and [MarshalTo] of
    [MsgGrantFeeAllowance] write the bytes [Marshal] returns and return
    their number, the former over the end of its buffer, the latter over
    the start, and the other bytes of the buffer stay; [MarshalTo]
    panics on a buffer whose capacity is below [Size].  The [Allowance],
    if the message has one, is taken to write its encoding over the end
    of the slice it is given. *)
Theorem Grant_MarshalTo `{AnyMethods} (m : MsgGrantFeeAllowance.t)
    (w dAtA : list Z) :
  (forall a, MsgGrantFeeAllowance.Allowance m = Some a -> Any_writes a w) ->
  MsgGrant_size m < 2 ^ 63 -> len dAtA < 2 ^ 63 ->
  exists bs,
    MsgGrantFeeAllowance.Marshal m = Ok bs
    /\ (len bs <= len dAtA ->
        MsgGrantFeeAllowance.MarshalToSizedBuffer m dAtA
        = Ok (take (Z.to_nat (len dAtA - len bs)) dAtA ++ bs, len bs)
        /\ MsgGrantFeeAllowance.MarshalTo m dAtA
           = Ok (bs ++ drop (Z.to_nat (len bs)) dAtA, len bs))
    /\ (len dAtA < len bs ->
        MsgGrantFeeAllowance.MarshalTo m dAtA = Panic PanicSliceBounds).
Proof.
  intros Hany Hsize Hlen.
  assert (Hw : forall a, MsgGrantFeeAllowance.Allowance m = Some a ->
                         Any_Size a = len w)
    by (intros a Ha; apply (Hany a Ha)).
  assert (HS : MsgGrantFeeAllowance.Size m = len (MsgGrant w m)).
  { rewrite Grant_Size;
      [| intros a Ha; rewrite (Hw a Ha); apply len_nonneg | exact Hsize].
    symmetry. now apply len_MsgGrant. }
  exists (MsgGrant w m). split; [now apply Grant_Marshal|].
  pose proof (len_nonneg (MsgGrant w m)) as Hn.
  split.
  - intros Hfit. split.
    + destruct (split_at dAtA (len dAtA - len (MsgGrant w m)))
        as (a & b & Hd & Ha & _); [lia|].
      rewrite Hd at 1.
      rewrite (Grant_MarshalToSizedBuffer m w).
      * do 2 f_equal. rewrite Hd at 2. rewrite <- Ha.
        unfold len. now rewrite Nat2Z.id, take_app_length.
      * exact Hany.
      * apply Nat2Z.inj. fold (len b). fold (len (MsgGrant w m)).
        rewrite Hd in Ha. revert Ha. len_lia.
      * now rewrite <- Hd.
    + unfold MsgGrantFeeAllowance.MarshalTo. rewrite HS.
      destruct (split_at dAtA (len (MsgGrant w m))) as (a & b & Hd & Ha & Hb); [lia|].
      rewrite Hd at 1. rewrite <- Ha at 1. rewrite prefix_app. cbn [obind].
      rewrite <- (app_nil_l a).
      rewrite (Grant_MarshalToSizedBuffer m w).
      * reflexivity.
      * exact Hany.
      * apply Nat2Z.inj. exact Ha.
      * cbn [app]. rewrite Ha. lia.
  - intros Hshort. unfold MsgGrantFeeAllowance.MarshalTo. rewrite HS.
    now rewrite prefix_short.
Qed.

End GrantMarshalTo.

Section GrantMarshalToExample.
Import Go Tx Wire Examples.

Local Abbreviation grant2 :=
  (@MsgGrantFeeAllowance.mk OpaqueAny (Some [65]) None (Some [7; 8])).

Lemma Grant_MarshalTo_witness :
  MsgGrantFeeAllowance.MarshalTo grant2 [1; 2; 3; 4; 5; 6; 7; 8; 9]
  = Ok ([10; 1; 65; 26; 2; 7; 8; 8; 9], 7).
Proof.
  assert (Hany : forall a, MsgGrantFeeAllowance.Allowance grant2 = Some a ->
                           @Any_writes OpaqueAny a [7; 8])
    by (intros a [= <-]; apply OpaqueAny_writes).
  assert (Hsize : @MsgGrant_size OpaqueAny grant2 < 2 ^ 63) by (vm_compute; reflexivity).
  assert (Hlen : len [1; 2; 3; 4; 5; 6; 7; 8; 9] < 2 ^ 63) by (vm_compute; reflexivity).
  destruct (Grant_MarshalTo grant2 [7; 8] [1; 2; 3; 4; 5; 6; 7; 8; 9] Hany Hsize Hlen)
    as (bs & Hbs & Hfit & _).
  vm_compute in Hbs. injection Hbs as <-.
  exact (proj2 (Hfit ltac:(vm_compute; discriminate))).
Defined.

End GrantMarshalToExample.

(** ** The router, and the client on it *)

Section AddRouteFacts.
Import Go Baseapp.
Context {Ctx : Type}.

(** X13.  What a successful [AddRoute] has done: the path was
    alphanumeric and not routed, it is now routed to the querier given,
    every other path is routed as before, and another [AddRoute] of the
    path panics; unless the querier given was nil, which leaves the path
    free for another [AddRoute]. *)
Theorem AddRoute_reserves_path (qrt qrt' : QueryRouter Ctx) (path : string)
    (q : option (Querier Ctx)) :
  AddRoute qrt path q = Ok qrt' ->
  isAlphaNumeric path = true /\ Route qrt path = None
  /\ Route qrt' path = q
  /\ (forall p, p <> path -> Route qrt' p = Route qrt p)
  /\ (forall q2,
        match q with
        | Some _ => AddRoute qrt' path q2 = Panic (PanicRouteInitialized path)
        | None => exists qrt'', AddRoute qrt' path q2 = Ok qrt''
                                /\ Route qrt'' path = q2
        end).
Proof.
  unfold AddRoute. destruct (isAlphaNumeric path) eqn:Halnum; [|discriminate].
  cbn [negb]. destruct (Route qrt path) eqn:Hroute; [discriminate|].
  intros [= <-].
  assert (Hnew : Route {| routes := <[path := q]> (routes qrt) |} path = q)
    by (rewrite Route_insert; now rewrite decide_True).
  split; [reflexivity|]. split; [reflexivity|]. split; [exact Hnew|].
  split.
  - intros p Hp. rewrite Route_insert. now rewrite decide_False.
  - intros q2. rewrite Hnew. destruct q as [q1|]; [reflexivity|].
    eexists. split; [reflexivity|].
    rewrite Route_insert. now rewrite decide_True.
Qed.

End AddRouteFacts.

Section ClientServer.
Import Go Tx Wire Baseapp Feegrant.
Context `{AnyMethods} {Ctx : Type}.

Local Abbreviation Invoke := (Invoke protoCodec_Marshal protoCodec_Unmarshal).

Lemma Route_RegisterMsgServer (qrt : QueryRouter Ctx) (srv : MsgServer Ctx) :
  Route (RegisterMsgServer qrt srv) "cosmos.feegrant.v1beta1.Msg"
  = Some (service_querier protoCodec_Marshal protoCodec_Unmarshal _Msg_serviceDesc srv).
Proof.
  unfold RegisterMsgServer, RegisterService. rewrite Route_insert.
  now rewrite decide_True.
Qed.

(** X14.  Client and server of RevokeFeeAllowance joined by the test
    helper: on a helper whose router has the Msg service registered,
    whatever else it routes, the call of the client is the call of the
    server's method on the message sent, its empty fields read as nil;
    the client returns what the server returns, be it a response or an
    error. *)
Theorem msgClient_RevokeFeeAllowance_served (qrt : QueryRouter Ctx) (ctx : Ctx)
    (srv : MsgServer Ctx) (in_ : MsgRevokeFeeAllowance.t) :
  MsgRevoke_size in_ < 2 ^ 63 ->
  let q := {| router := RegisterMsgServer qrt srv; ctx := ctx |} in
  msgClient_RevokeFeeAllowance (Invoke q) in_
  = RevokeFeeAllowance srv ctx
      (MsgRevokeFeeAllowance.mk
         (absent_if_empty (MsgRevokeFeeAllowance.Granter in_))
         (absent_if_empty (MsgRevokeFeeAllowance.Grantee in_))).
Proof.
  intros Hsize q. rewrite <- len_MsgRevoke in Hsize.
  unfold msgClient_RevokeFeeAllowance. cbv zeta.
  assert (Hs : Split "/cosmos.feegrant.v1beta1.Msg/RevokeFeeAllowance" "/"
               = [""; "cosmos.feegrant.v1beta1.Msg"; "RevokeFeeAllowance"])
    by (vm_compute; reflexivity).
  rewrite (Invoke_three _ _ q _ _ _ _ _ _ Hs).
  subst q. cbn [router Baseapp.ctx]. rewrite Route_RegisterMsgServer.
  cbn [protoCodec_Marshal]. rewrite Revoke_Marshal by exact Hsize.
  cbn [or_return]. unfold service_querier.
  unfold _Msg_serviceDesc. cbn [Methods Baseapp.scan_methods MethodName Handler].
  change (String.eqb "GrantFeeAllowance" "RevokeFeeAllowance") with false.
  change (String.eqb "RevokeFeeAllowance" "RevokeFeeAllowance") with true.
  cbn [negb]. unfold _Msg_RevokeFeeAllowance_Handler.
  cbn [protoCodec_Unmarshal]. rewrite Revoke_Unmarshal_wire by exact Hsize.
  destruct (RevokeFeeAllowance srv ctx _) as [[]| | |]; reflexivity.
Qed.

(** X15.  Client and server of GrantFeeAllowance joined by the test
    helper: on a helper whose router has the Msg service registered, the
    call of the client is the call of the server's method on the message
    sent, its empty Granter and Grantee read as nil, and the client
    returns what the server returns.  The [Any] of the message, if it
    has one, is taken to write an encoding that its [Unmarshal] reads
    back. *)
Theorem msgClient_GrantFeeAllowance_served (qrt : QueryRouter Ctx) (ctx : Ctx)
    (srv : MsgServer Ctx) (in_ : MsgGrantFeeAllowance.t) (w : list Z) :
  (forall a, MsgGrantFeeAllowance.Allowance in_ = Some a ->
             Any_writes a w /\ Any_reads a w) ->
  MsgGrant_size in_ < 2 ^ 63 ->
  let q := {| router := RegisterMsgServer qrt srv; ctx := ctx |} in
  msgClient_GrantFeeAllowance (Invoke q) in_
  = GrantFeeAllowance srv ctx
      (MsgGrantFeeAllowance.mk
         (absent_if_empty (MsgGrantFeeAllowance.Granter in_))
         (absent_if_empty (MsgGrantFeeAllowance.Grantee in_))
         (MsgGrantFeeAllowance.Allowance in_)).
Proof.
  intros Hany Hsize q.
  assert (Hw : forall a, MsgGrantFeeAllowance.Allowance in_ = Some a -> Any_writes a w)
    by (intros a Ha; apply (Hany a Ha)).
  assert (Hr : forall a, MsgGrantFeeAllowance.Allowance in_ = Some a -> Any_reads a w)
    by (intros a Ha; apply (Hany a Ha)).
  assert (Hlen : len (MsgGrant w in_) < 2 ^ 63).
  { rewrite len_MsgGrant; [exact Hsize|]. intros a Ha. apply (Hw a Ha). }
  unfold msgClient_GrantFeeAllowance. cbv zeta.
  assert (Hs : Split "/cosmos.feegrant.v1beta1.Msg/GrantFeeAllowance" "/"
               = [""; "cosmos.feegrant.v1beta1.Msg"; "GrantFeeAllowance"])
    by (vm_compute; reflexivity).
  rewrite (Invoke_three _ _ q _ _ _ _ _ _ Hs).
  subst q. cbn [router Baseapp.ctx]. rewrite Route_RegisterMsgServer.
  cbn [protoCodec_Marshal]. rewrite (Grant_Marshal in_ w Hw Hsize).
  cbn [or_return]. unfold service_querier.
  unfold _Msg_serviceDesc. cbn [Methods Baseapp.scan_methods MethodName Handler].
  change (String.eqb "GrantFeeAllowance" "GrantFeeAllowance") with true.
  cbn [negb]. unfold _Msg_GrantFeeAllowance_Handler.
  cbn [protoCodec_Unmarshal]. rewrite (Grant_Unmarshal_wire in_ w Hlen Hr).
  destruct (GrantFeeAllowance srv ctx _) as [[]| | |]; reflexivity.
Qed.

End ClientServer.

Section ClientServerExamples.
Import Go Tx Wire Baseapp Feegrant Examples.

Local Abbreviation M := (@protoCodec_Marshal OpaqueAny).
Local Abbreviation U := (@protoCodec_Unmarshal OpaqueAny).

(** A querier that answers with its request. *)
Local Abbreviation echo := (fun (_ : unit) (_ : list string) (req : list Z) => Ok req).

Lemma AddRoute_reserves_path_witness :
  exists qrt',
    AddRoute (Ctx := unit) NewQueryRouter "bank" (Some echo) = Ok qrt'
    /\ Route qrt' "bank" = Some echo
    /\ AddRoute qrt' "bank" (Some echo) = Panic (PanicRouteInitialized "bank").
Proof.
  assert (Hadd : AddRoute (Ctx := unit) NewQueryRouter "bank" (Some echo)
                 = Ok {| routes := <["bank" := Some echo]> ∅ |}).
  { unfold AddRoute, Route, NewQueryRouter. cbn [routes].
    rewrite lookup_empty.
    replace (isAlphaNumeric "bank") with true by (vm_compute; reflexivity).
    reflexivity. }
  eexists. split; [exact Hadd|].
  destruct (AddRoute_reserves_path _ _ _ _ Hadd) as (_ & _ & Hroute & _ & Hagain).
  split; [exact Hroute | exact (Hagain (Some echo))].
Defined.

Lemma msgClient_RevokeFeeAllowance_served_witness :
  msgClient_RevokeFeeAllowance
    (Invoke M U {| router := RegisterMsgServer NewQueryRouter UnimplementedMsgServer;
                   ctx := tt |})
    (MsgRevokeFeeAllowance.mk (Some [65]) (Some []))
  = Err (ErrExternal "method RevokeFeeAllowance not implemented").
Proof.
  exact (msgClient_RevokeFeeAllowance_served NewQueryRouter tt UnimplementedMsgServer
           (MsgRevokeFeeAllowance.mk (Some [65]) (Some []))
           ltac:(vm_compute; reflexivity)).
Defined.

Local Abbreviation grant3 :=
  (@MsgGrantFeeAllowance.mk OpaqueAny (Some [65]) (Some [66]) (Some [7; 8])).

Lemma msgClient_GrantFeeAllowance_served_witness :
  msgClient_GrantFeeAllowance
    (Invoke M U {| router := RegisterMsgServer NewQueryRouter AcceptingMsgServer;
                   ctx := tt |})
    grant3
  = Ok MsgGrantFeeAllowanceResponse.zero.
Proof.
  assert (Hany : forall a, MsgGrantFeeAllowance.Allowance grant3 = Some a ->
                           @Any_writes OpaqueAny a [7; 8] /\ @Any_reads OpaqueAny a [7; 8])
    by (intros a [= <-]; split; [apply OpaqueAny_writes | apply OpaqueAny_reads]).
  assert (Hsize : @MsgGrant_size OpaqueAny grant3 < 2 ^ 63) by (vm_compute; reflexivity).
  exact (msgClient_GrantFeeAllowance_served NewQueryRouter tt AcceptingMsgServer
           grant3 [7; 8] Hany Hsize).
Defined.

End ClientServerExamples.

Section MethodNames.
Import Go Baseapp.
Context {Ctx Iface : Type}.
Variable protoCodec_Marshal : Iface -> outcome (list Z).
Variable protoCodec_Unmarshal : list Z -> Iface -> Iface * outcome unit.

Local Abbreviation Invoke := (Invoke protoCodec_Marshal protoCodec_Unmarshal).

Lemma Split_nonempty s sep : Split s sep <> [].
Proof.
  destruct s as [|c s]; cbn [Split]; [discriminate|].
  destruct (Ascii.eqb c sep); [discriminate|].
  destruct (Split s sep); discriminate.
Qed.

(** As many segments as separators, and one. *)
Lemma Split_length s sep :
  length (Split s sep)
  = S (count_occ Ascii.ascii_dec (String.list_ascii_of_string s) sep).
Proof.
  induction s as [|c s IH]; [reflexivity|].
  cbn [Split String.list_ascii_of_string count_occ].
  destruct (Ascii.eqb c sep) eqn:Heq.
  - apply Ascii.eqb_eq in Heq. subst c.
    destruct (Ascii.ascii_dec sep sep); [|contradiction].
    cbn [length]. now rewrite IH.
  - apply Ascii.eqb_neq in Heq.
    destruct (Ascii.ascii_dec c sep); [contradiction|].
    rewrite <- IH. pose proof (Split_nonempty s sep).
    destruct (Split s sep); [contradiction | reflexivity].
Qed.

Lemma concat_cons_char sep c seg segs :
  String.concat sep (String c seg :: segs)
  = String c (String.concat sep (seg :: segs)).
Proof. destruct segs; reflexivity. Qed.

(** The segments, joined by the separator, are the string. *)
Lemma Split_concat s sep :
  String.concat (String sep EmptyString) (Split s sep) = s.
Proof.
  induction s as [|c s IH]; [reflexivity|].
  cbn [Split]. pose proof (Split_nonempty s sep).
  destruct (Ascii.eqb c sep) eqn:Heq.
  - apply Ascii.eqb_eq in Heq. subst c.
    destruct (Split s sep) as [|seg segs] eqn:Hs; [contradiction|].
    change (String sep (String.concat (String sep EmptyString) (seg :: segs))
            = String sep s).
    now rewrite IH.
  - destruct (Split s sep) as [|seg segs] eqn:Hs; [contradiction|].
    now rewrite concat_cons_char, IH.
Qed.

(** X16.  [Invoke] goes by the number of "/" in the method name: with
    any number but two the name is refused, before the router is looked
    at and with [reply] as it was; with two, the name is [p0/p1/p2], of
    which [p1], be it empty, is the key of the route and [p2] the path
    given to the querier. *)
Theorem Invoke_counts_slashes (q : QueryServiceTestHelper Ctx) (method : string)
    (args reply : Iface) :
  let n := count_occ Ascii.ascii_dec (String.list_ascii_of_string method) "/"%char in
  (n <> 2%nat ->
   Invoke q method args reply = (reply, Err (ErrUnexpectedMethodName method)))
  /\ (n = 2%nat ->
      exists p0 p1 p2,
        method = String.append p0 (String "/" (String.append p1 (String "/" p2)))
        /\ Invoke q method args reply
           = match Route (router q) p1 with
             | None => (reply, Err (ErrHandlerNotFound p1))
             | Some querier =>
               or_return reply (protoCodec_Marshal args) (fun reqBz =>
               or_return reply (querier (ctx q) [p2] reqBz) (fun resBz =>
               protoCodec_Unmarshal resBz reply))
             end).
Proof.
  intros n. pose proof (Split_length method "/") as Hlen. fold n in Hlen.
  split.
  - intros Hn. unfold Baseapp.Invoke.
    replace (len (Split method "/") =? 3) with false; [reflexivity|].
    symmetry. apply Z.eqb_neq. unfold len. lia.
  - intros Hn. rewrite Hn in Hlen.
    pose proof (Split_concat method "/") as Hcat.
    destruct (Split method "/") as [|p0 [|p1 [|p2 [|]]]] eqn:Hs; try discriminate.
    exists p0, p1, p2. split.
    + rewrite <- Hcat. reflexivity.
    + now apply Invoke_three with (p0 := p0).
Qed.

End MethodNames.

Section MethodNamesExample.
Import Go Baseapp Feegrant Examples.

Lemma Invoke_counts_slashes_witness :
  Invoke (@protoCodec_Marshal OpaqueAny) (@protoCodec_Unmarshal OpaqueAny)
    (helper_with svc_serviceDesc AcceptingMsgServer) "/svc/Do/"
    (Revoke MsgRevokeFeeAllowance.zero)
    (RevokeResponse MsgRevokeFeeAllowanceResponse.zero)
  = (RevokeResponse MsgRevokeFeeAllowanceResponse.zero,
     Err (ErrUnexpectedMethodName "/svc/Do/")).
Proof.
  apply (proj1 (Invoke_counts_slashes
                  (@protoCodec_Marshal OpaqueAny) (@protoCodec_Unmarshal OpaqueAny)
                  (helper_with svc_serviceDesc AcceptingMsgServer) "/svc/Do/"
                  (Revoke MsgRevokeFeeAllowance.zero)
                  (RevokeResponse MsgRevokeFeeAllowanceResponse.zero))).
  vm_compute. discriminate.
Defined.

End MethodNamesExample.

Section IllegalWireType.
Import Go Tx Wire MsgRevokeFeeAllowance.



End IllegalWireType.

Section ZigZag.
Import Go Tx Wire.

Lemma lxor_ones_64 y : 0 <= y < 2 ^ 64 -> Z.lxor y (2 ^ 64 - 1) = 2 ^ 64 - 1 - y.
Proof.
  intros Hy. pose proof (Z.add_lxor_2land y (Z.ones 64)) as H.
  rewrite Z.land_ones in H by lia. rewrite Z.mod_small in H by lia.
  change (Z.ones 64) with (2 ^ 64 - 1) in H. lia.
Qed.

(** X18.  [sozTx] is the size of the varint of the zigzag code of its
    argument read as a signed number: [2 s] for a number [s] that is
    not negative, [- 2 s - 1] for a negative one; it is one byte
    exactly for the numbers from -64 to 63. *)
Theorem sozTx_zigzag (x : Z) :
  0 <= x < 2 ^ 64 ->
  let s := wrap_int x in
  sozTx x = sovTx (if 0 <=? s then 2 * s else - 2 * s - 1)
  /\ (sozTx x = 1 <-> - 64 <= s < 64).
Proof.
  intros Hx s.
  assert (Hz : sozTx x = sovTx (if 0 <=? s then 2 * s else - 2 * s - 1)).
  { unfold sozTx. subst s. f_equal.
    rewrite Z.shiftl_mul_pow2, Z.shiftr_div_pow2 by lia. change (2 ^ 1) with 2.
    destruct (Z.lt_ge_cases x (2 ^ 63)) as [Hsmall | Hbig].
    - rewrite (wrap_int_small x) by lia.
      replace (0 <=? x) with true by (symmetry; apply Z.leb_le; lia).
      rewrite (Z.div_small x) by lia.
      change (wrap_uint64 0) with 0. rewrite Z.lxor_0_r.
      unfold wrap_uint64. rewrite Z.mod_mod by lia. rewrite Z.mod_small; lia.
    - rewrite (wrap_int_negative x) by lia.
      replace (0 <=? x - 2 ^ 64) with false by (symmetry; apply Z.leb_gt; lia).
      replace ((x - 2 ^ 64) / 2 ^ 63) with (- 1)
        by (apply Z.div_unique with (r := x - 2 ^ 63); lia).
      change (wrap_uint64 (- 1)) with (2 ^ 64 - 1).
      assert (H2 : wrap_uint64 (x * 2) = x * 2 - 2 ^ 64).
      { unfold wrap_uint64.
        replace (x * 2) with (x * 2 - 2 ^ 64 + 1 * 2 ^ 64) at 1 by lia.
        rewrite Z.mod_add by lia. apply Z.mod_small. lia. }
      rewrite H2, lxor_ones_64 by lia.
      rewrite wrap_uint64_small; lia. }
  split; [exact Hz|]. rewrite Hz.
  pose proof (wrap_int_range x) as Hs. fold s in Hs.
  set (z := if 0 <=? s then 2 * s else - 2 * s - 1).
  assert (Hzr : 0 <= z < 2 ^ 64)
    by (subst z; destruct (0 <=? s) eqn:E;
        [apply Z.leb_le in E | apply Z.leb_gt in E]; lia).
  assert (Hone : sovTx z = 1 <-> z < 128).
  { split.
    - intros H1. destruct (Z.lt_ge_cases z 128) as [|Hge]; [assumption|].
      rewrite sovTx_step in H1 by lia.
      pose proof (sovTx_bound (z / 128)
                    ltac:(split; [apply Z.div_pos; lia
                                 | apply Z.div_lt_upper_bound; lia])).
      lia.
    - intros Hlt. apply sovTx_small. lia. }
  rewrite Hone. subst z.
  destruct (0 <=? s) eqn:E; [apply Z.leb_le in E | apply Z.leb_gt in E]; lia.
Qed.

Lemma sozTx_zigzag_witness :
  wrap_int (2 ^ 64 - 64) = - 64 /\ sozTx (2 ^ 64 - 64) = 1.
Proof.
  split; [vm_compute; reflexivity|].
  assert (Hx : 0 <= 2 ^ 64 - 64 < 2 ^ 64) by lia.
  apply (proj2 (sozTx_zigzag (2 ^ 64 - 64) Hx)).
  vm_compute. split; [discriminate | reflexivity].
Defined.

End ZigZag.

Section ShortBuffer.
Import Go Tx Wire.

Lemma store_negative dAtA i b : i < 0 -> store dAtA i b = Panic PanicIndexOutOfRange.
Proof.
  intros Hi. unfold store.
  now replace (0 <=? i) with false by (symmetry; apply Z.leb_gt; lia).
Qed.

Lemma encodeVarintTx_loop_negative fuel dAtA offset v :
  offset < 0 ->
  encodeVarintTx_loop (S fuel) dAtA offset v = Panic PanicIndexOutOfRange.
Proof.
  intros Hi. cbn [encodeVarintTx_loop].
  destruct (128 <=? v); now rewrite store_negative.
Qed.

(** The block of a [bytes] field panics when the field does not fit in
    front of the cursor. *)
Lemma marshal_bytes_short tag f dAtA i :
  0 <= i <= len dAtA -> len dAtA < 2 ^ 63 -> flen f < 2 ^ 63 ->
  i < len (bytes_field tag f) ->
  exists p, marshal_bytes tag f dAtA i = Panic p.
Proof.
  intros Hi Hlen Hf Hshort. unfold marshal_bytes, bytes_field in *.
  destruct (flen f >? 0) eqn:Hpos; [| rewrite len_nil in Hshort; lia].
  apply Z.gtb_lt in Hpos. rewrite len_field, <- flen_fdata in Hshort.
  set (L := flen f) in *.
  rewrite wrap_uint64_small by lia.
  assert (HV : len (varint 9 L) = sovTx L) by (apply sovTx_varint9; lia).
  pose proof (sovTx_bound L ltac:(lia)) as HVb.
  rewrite HV in Hshort.
  rewrite wrap_int_small by lia.
  destruct (Z.lt_ge_cases i L) as [Ha | Hb].
  - (* the payload does not fit *)
    unfold copy_at.
    replace (0 <=? i - L) with false by (symmetry; apply Z.leb_gt; lia).
    cbn [andb obind]. now eexists.
  - unfold copy_at.
    replace ((0 <=? i - L) && (i - L <=? len dAtA)) with true
      by (symmetry; apply andb_true_iff; split; apply Z.leb_le; lia).
    cbn [obind].
    rewrite <- (flen_fdata f). fold L.
    replace (Z.min (len dAtA - (i - L)) L) with L by lia.
    set (d1 := take (Z.to_nat (i - L)) dAtA ++ take (Z.to_nat L) (fdata f)
               ++ drop (Z.to_nat (i - L + L)) dAtA).
    assert (Hd1 : len d1 = len dAtA).
    { subst d1. unfold len in *. rewrite !length_app, !length_take, length_drop.
      pose proof (flen_fdata f) as Hfd. fold L in Hfd. unfold len in Hfd. lia. }
    destruct (Z.lt_ge_cases (i - L) (sovTx L)) as [Hc | Hd].
    + (* the length does not fit *)
      unfold encodeVarintTx. rewrite wrap_int_small by lia.
      rewrite encodeVarintTx_loop_negative by lia. cbn [obind]. now eexists.
    + (* the tag does not fit *)
      assert (Hi' : i - L = sovTx L) by lia.
      destruct (split_at d1 (sovTx L)) as (old & suf & Hsplit & Hold & _); [lia|].
      rewrite Hsplit, Hi'.
      pose proof (encodeVarintTx_app [] old suf L ltac:(lia)) as Henc.
      cbn [app] in Henc. change (len (@nil Z)) with 0 in Henc.
      rewrite Z.add_0_l, Hold in Henc.
      rewrite Henc;
        [| apply Nat2Z.inj; fold (len old); fold (len (varint 9 L)); lia
         | rewrite <- Hsplit; lia].
      cbn [obind]. change (wrap_int (0 - 1)) with (- 1).
      rewrite store_negative by lia. cbn [obind]. now eexists.
Qed.

(** X19.  [MarshalToSizedBuffer] of [MsgRevokeFeeAllowance] on a
    buffer shorter than [Size] panics: it returns neither an error nor a
    part of the encoding. *)
Theorem Revoke_MarshalToSizedBuffer_short (m : MsgRevokeFeeAllowance.t)
    (dAtA : list Z) :
  MsgRevoke_size m < 2 ^ 63 ->
  len dAtA < MsgRevokeFeeAllowance.Size m ->
  exists p, MsgRevokeFeeAllowance.MarshalToSizedBuffer m dAtA = Panic p.
Proof.
  intros Hsize Hshort. rewrite <- len_MsgRevoke in Hsize.
  rewrite Revoke_Size in Hshort by exact Hsize.
  unfold MsgRevoke in *. rewrite len_app in *.
  unfold MsgRevokeFeeAllowance.MarshalToSizedBuffer.
  pose proof (len_nonneg dAtA) as H0.
  pose proof (len_nonneg (bytes_field 10 (MsgRevokeFeeAllowance.Granter m))) as H1.
  pose proof (len_nonneg (bytes_field 18 (MsgRevokeFeeAllowance.Grantee m))) as H2.
  assert (Hflen : forall tag f, len (bytes_field tag f) < 2 ^ 63 -> flen f < 2 ^ 63).
  { intros tag f. unfold bytes_field. destruct (flen f >? 0) eqn:E.
    - rewrite len_field, <- flen_fdata.
      pose proof (len_nonneg (varint 9 (flen f))). lia.
    - intros _. rewrite Z.gtb_ltb in E. apply Z.ltb_ge in E. lia. }
  destruct (Z.lt_ge_cases (len dAtA)
              (len (bytes_field 18 (MsgRevokeFeeAllowance.Grantee m)))) as [Ha | Hb].
  - destruct (marshal_bytes_short 18 (MsgRevokeFeeAllowance.Grantee m) dAtA (len dAtA))
      as [p Hp]; [lia | lia | apply (Hflen 18); lia | exact Ha |].
    rewrite Hp. cbn [obind]. now eexists.
  - destruct (split_at dAtA
                (len dAtA - len (bytes_field 18 (MsgRevokeFeeAllowance.Grantee m))))
      as (pre & old & Hsplit & Hpre & _); [lia|].
    assert (Hold : len old = len (bytes_field 18 (MsgRevokeFeeAllowance.Grantee m)))
      by (rewrite Hsplit in Hpre; revert Hpre; len_lia).
    rewrite Hsplit in *.
    replace (len (pre ++ old)) with (len pre + len old) by len_lia.
    pose proof (marshal_bytes_app 18 (MsgRevokeFeeAllowance.Grantee m) pre old [])
      as Hm.
    rewrite !app_nil_r in Hm.
    rewrite Hm; [| apply Nat2Z.inj; exact Hold | lia].
    cbn [obind].
    destruct (marshal_bytes_short 10 (MsgRevokeFeeAllowance.Granter m)
                (pre ++ bytes_field 18 (MsgRevokeFeeAllowance.Grantee m)) (len pre))
      as [p Hp].
    + pose proof (len_nonneg pre). len_lia.
    + revert H0. len_lia.
    + apply (Hflen 10). lia.
    + revert Hshort. len_lia.
    + rewrite Hp. cbn [obind]. now eexists.
Qed.

Lemma Revoke_MarshalToSizedBuffer_short_witness :
  exists p,
    MsgRevokeFeeAllowance.MarshalToSizedBuffer
      (MsgRevokeFeeAllowance.mk (Some [65]) (Some [66])) [0; 0; 0; 0; 0]
    = Panic p.
Proof.
  apply Revoke_MarshalToSizedBuffer_short; vm_compute; reflexivity.
Defined.

End ShortBuffer.

Section XXXMarshal.
Import Go Tx Wire MsgRevokeFeeAllowance.
Variable info_Marshal : list Z -> t -> bool -> outcome (list Z).

(** X20.  [XXX_Marshal] without [deterministic] returns the bytes of
    [Marshal] when the capacity of its buffer is [Size] exactly.
    [MarshalToSizedBuffer] writes over the end of the buffer and
    [XXX_Marshal] returns the start of it: on a buffer of twice the
    size or more, what it returns is what the buffer had in its first
    [Size] bytes, and not the encoding. *)
Theorem XXX_Marshal_capacity (m : t) (b : list Z) :
  MsgRevoke_size m < 2 ^ 63 -> len b < 2 ^ 63 ->
  exists bs,
    Marshal m = Ok bs
    /\ (len b = len bs -> XXX_Marshal info_Marshal m b false = Ok bs)
    /\ (2 * len bs <= len b ->
        XXX_Marshal info_Marshal m b false = Ok (take (Z.to_nat (len bs)) b)).
Proof.
  intros Hsize Hlen. rewrite <- len_MsgRevoke in Hsize.
  exists (MsgRevoke m). split; [now apply Revoke_Marshal|].
  pose proof (len_nonneg (MsgRevoke m)) as Hn.
  unfold XXX_Marshal. split.
  - intros Heq. rewrite <- (app_nil_l b).
    rewrite Revoke_MarshalToSizedBuffer;
      [| apply Nat2Z.inj; exact Heq | exact Hlen].
    cbn [obind app]. apply prefix_all.
  - intros Hbig.
    destruct (split_at b (len b - len (MsgRevoke m))) as (pre & old & Hb & Hpre & _);
      [lia|].
    assert (Hold : len old = len (MsgRevoke m))
      by (rewrite Hb in Hpre; revert Hpre; len_lia).
    rewrite Hb in *.
    rewrite Revoke_MarshalToSizedBuffer;
      [| apply Nat2Z.inj; exact Hold | exact Hlen].
    cbn [obind]. unfold prefix.
    replace ((0 <=? len (MsgRevoke m))
             && (len (MsgRevoke m) <=? len (pre ++ MsgRevoke m))) with true
      by (symmetry; apply andb_true_iff; split; apply Z.leb_le; len_lia).
    f_equal. rewrite !take_app_le; [reflexivity | |]; unfold len in *; lia.
Qed.

End XXXMarshal.

Section XXXMarshalExample.
Import Go Tx Wire MsgRevokeFeeAllowance.

Lemma XXX_Marshal_capacity_witness :
  Marshal (mk (Some [65]) None) = Ok [10; 1; 65]
  /\ XXX_Marshal (fun _ _ _ => Err (ErrExternal "deterministic"))
       (mk (Some [65]) None) [1; 2; 3; 4; 5; 6; 7] false
     = Ok [1; 2; 3].
Proof.
  destruct (XXX_Marshal_capacity (fun _ _ _ => Err (ErrExternal "deterministic"))
              (mk (Some [65]) None) [1; 2; 3; 4; 5; 6; 7]
              ltac:(vm_compute; reflexivity) ltac:(vm_compute; reflexivity))
    as (bs & Hbs & _ & Hbig).
  split; [vm_compute; reflexivity|].
  vm_compute in Hbs. injection Hbs as <-.
  exact (Hbig ltac:(vm_compute; discriminate)).
Defined.

End XXXMarshalExample.

Section GroupEnds.
Import Go Tx Wire.

Lemma wfields_tags_le fs : (wfields_tags fs <= length (wfields_bytes fs))%nat.
Proof.
  induction fs as [|f fs IH]; [cbn; lia|].
  rewrite wfields_tags_cons, wfields_bytes_cons, length_app.
  pose proof (wfield_tags_le f). lia.
Qed.

Lemma wfields_skips fs :
  wfields_ok fs -> Forall (fun f => skips (wfield_bytes f) (wfield_tags f)) fs.
Proof.
  induction fs as [|f fs IH]; intros Hok; [apply Forall_nil_2|].
  apply wfields_ok_cons in Hok as [Hf Hfs].
  apply Forall_cons_2; [now apply wfield_skips | now apply IH].
Qed.

(** X21.  [skipTx] counts the tags that start and end a group and
    does not compare their numbers: a group is passed whatever the number
    of the tag that ends it; and a group that is not ended in the buffer
    gives [io.ErrUnexpectedEOF]. *)
Theorem skipTx_group_end (n1 n2 : Z) (fs : list wfield) (rest : list Z) :
  num_ok n1 -> num_ok n2 -> wfields_ok fs ->
  let open := tag n1 3 ++ wfields_bytes fs in
  (len (open ++ tag n2 4 ++ rest) < 2 ^ 63 ->
   skipTx (open ++ tag n2 4 ++ rest) = Ok (len (open ++ tag n2 4)))
  /\ (len open < 2 ^ 63 -> skipTx open = Err ErrUnexpectedEOF).
Proof.
  intros Hn1 Hn2 Hok open.
  pose proof (wfields_skips fs Hok) as Hall.
  pose proof (wfields_tags_le fs) as Htags.
  pose proof (len_tag_pos n1 3) as Ht3. pose proof (len_tag_pos n2 4) as Ht4.
  pose proof (len_nonneg (wfields_bytes fs)) as Hfb.
  (* the start tag and the fields, in any buffer that has them in front *)
  assert (Hin : forall tail fuel,
    len (open ++ tail) < 2 ^ 63 ->
    skipTx_loop (S (wfields_tags fs + fuel)) (open ++ tail) (len (open ++ tail)) 0 0
    = skipTx_loop fuel (open ++ tail) (len (open ++ tail)) (len open) 1).
  { intros tail fuel Hlen. subst open.
    replace ((tag n1 3 ++ wfields_bytes fs) ++ tail)
      with ([] ++ tag n1 3 ++ (wfields_bytes fs ++ tail)) in * by app_eq.
    change 0 with (len (@nil Z)) at 1.
    rewrite (skipTx_round _ [] n1 3 (wfields_bytes fs ++ tail) 0
               (len (@nil Z) + len (tag n1 3)) 1);
      [| exact Hn1 | lia | reflexivity | len_lia].
    cbn [Z.eqb].
    replace ([] ++ tag n1 3 ++ wfields_bytes fs ++ tail)
      with (([] ++ tag n1 3) ++ wfields_bytes fs ++ tail) in * by app_eq.
    replace (len (@nil Z) + len (tag n1 3)) with (len ([] ++ tag n1 3)) by len_lia.
    rewrite (skips_fields fs Hall ([] ++ tag n1 3) tail 1 fuel);
      [| exact Hlen | lia | revert Hlen; len_lia].
    f_equal. len_lia. }
  split.
  - intros Hlen. unfold skipTx.
    assert (Hfuel : exists k, length (open ++ tag n2 4 ++ rest)
                              = S (wfields_tags fs + S k)).
    { exists (length (open ++ tag n2 4 ++ rest) - wfields_tags fs - 2)%nat.
      subst open. revert Ht3 Ht4. len_lia. }
    destruct Hfuel as [k ->]. rewrite Hin by exact Hlen.
    rewrite (skipTx_round k open n2 4 rest 1 (len (open ++ tag n2 4)) 0);
      [reflexivity | exact Hn2 | lia | | apply len_nonneg].
    unfold skipTx_switch. cbn [Z.eqb Pos.eqb].
    change (wrap_int (1 - 1)) with 0. do 2 f_equal. len_lia.
  - intros Hlen. unfold skipTx.
    assert (Hfuel : exists k, length open = S (wfields_tags fs + k)).
    { exists (length open - wfields_tags fs - 1)%nat.
      subst open. revert Ht3. len_lia. }
    destruct Hfuel as [k Hk]. rewrite Hk.
    pose proof (Hin [] k) as H. rewrite !app_nil_r in H.
    rewrite H by exact Hlen.
    destruct k; cbn [skipTx_loop]; now rewrite Z.leb_refl.
Qed.

Lemma skipTx_group_end_witness :
  let open := tag 7 3 ++ wfields_bytes [WVarint 1 300] in
  open ++ tag 9 4 ++ [5] = [59; 8; 172; 2; 76; 5]
  /\ skipTx (open ++ tag 9 4 ++ [5]) = Ok 5
  /\ skipTx open = Err ErrUnexpectedEOF.
Proof.
  intros open.
  assert (H7 : num_ok 7) by (vm_compute; intuition discriminate).
  assert (H9 : num_ok 9) by (vm_compute; intuition discriminate).
  assert (Hok : wfields_ok [WVarint 1 300]) by (vm_compute; intuition discriminate).
  pose proof (skipTx_group_end 7 9 [WVarint 1 300] [5] H7 H9 Hok) as H.
  cbv zeta in H. fold open in H. destruct H as [Hclosed Hopen].
  split; [vm_compute; reflexivity|]. split.
  - rewrite Hclosed by (vm_compute; reflexivity). vm_compute. reflexivity.
  - apply Hopen. vm_compute. reflexivity.
Defined.

End GroupEnds.

(** ** Decoding a concatenation *)

Section Concat.
Import Go Tx Wire.

Lemma index_app_r pre x i : 0 <= i -> index (pre ++ x) (len pre + i) = index x i.
Proof.
  intros Hi. unfold index, len.
  replace (Z.to_nat (Z.of_nat (length pre) + i)) with (length pre + Z.to_nat i)%nat
    by lia.
  apply app_nth2_plus.
Qed.

(** Reading a varint behind bytes put in front of the buffer. *)
Lemma varint_loop_shift fuel : forall pre x i shift acc,
  0 <= i ->
  varint_loop fuel (pre ++ x) (len (pre ++ x)) (len pre + i) shift acc
  = match varint_loop fuel x (len x) i shift acc with
    | Ok (v, j) => Ok (v, len pre + j)
    | Err e => Err e
    | Panic p => Panic p
    | OutOfFuel => OutOfFuel
    end.
Proof.
  induction fuel as [|fuel IH]; intros pre x i shift acc Hi;
    rewrite !varint_loop_eq;
    (destruct (64 <=? shift); [reflexivity|]);
    (assert (Hc : (len (pre ++ x) <=? len pre + i) = (len x <=? i))
      by (rewrite len_app; destruct (Z.leb_spec (len x) i);
          [apply Z.leb_le | apply Z.leb_gt]; lia));
    rewrite Hc; (destruct (len x <=? i); [reflexivity|]);
    cbv zeta; rewrite index_app_r by exact Hi;
    (destruct (index x i <? 128); [do 2 f_equal; lia|]).
  - reflexivity.
  - replace (len pre + i + 1) with (len pre + (i + 1)) by lia. apply IH. lia.
Qed.

Lemma read_varint_shift pre x i v j :
  0 <= i ->
  read_varint x (len x) i = Ok (v, j) ->
  read_varint (pre ++ x) (len (pre ++ x)) (len pre + i) = Ok (v, len pre + j).
Proof.
  intros Hi Hv. unfold read_varint in *. rewrite varint_loop_shift by exact Hi.
  now rewrite Hv.
Qed.

Lemma skipTx_switch_extend x y j d wt i' d' :
  0 <= j ->
  skipTx_switch x (len x) j d wt = Ok (i', d') ->
  skipTx_switch (x ++ y) (len (x ++ y)) j d wt = Ok (i', d').
Proof.
  intros Hj. unfold skipTx_switch.
  destruct (wt =? 0).
  { destruct (read_varint x (len x) j) as [[v k]| | |] eqn:Hv; try discriminate.
    now rewrite (read_varint_extend _ y _ _ _ Hj Hv). }
  destruct (wt =? 1); [trivial|].
  destruct (wt =? 2); [|trivial].
  destruct (read_varint x (len x) j) as [[v k]| | |] eqn:Hv; try discriminate.
  now rewrite (read_varint_extend _ y _ _ _ Hj Hv).
Qed.

(** What [skipTx] returns it returns also with bytes added behind the
    buffer. *)
Lemma skipTx_loop_extend fuel : forall fuel' x y i d n,
  0 <= i -> (fuel <= fuel')%nat ->
  skipTx_loop fuel x (len x) i d = Ok n ->
  skipTx_loop fuel' (x ++ y) (len (x ++ y)) i d = Ok n.
Proof.
  induction fuel as [|fuel IH]; intros fuel' x y i d n Hi Hle.
  - cbn [skipTx_loop]. now destruct (len x <=? i).
  - destruct fuel' as [|fuel']; [lia|]. rewrite !skipTx_loop_eq.
    destruct (len x <=? i) eqn:Hend; [discriminate|]. apply Z.leb_gt in Hend.
    replace (len (x ++ y) <=? i) with false
      by (symmetry; apply Z.leb_gt; pose proof (len_nonneg y); len_lia).
    destruct (read_varint x (len x) i) as [[wire j]| | |] eqn:Hv; try discriminate.
    rewrite (read_varint_extend _ y _ _ _ Hi Hv). cbn [obind].
    apply read_varint_progress in Hv.
    destruct (skipTx_switch x (len x) j d (Z.land wire 7)) as [[i' d']| | |] eqn:Hsw;
      try discriminate.
    rewrite (skipTx_switch_extend x y j d _ i' d' ltac:(lia) Hsw). cbn [obind].
    destruct (i' <? 0) eqn:Hneg; [discriminate|]. apply Z.ltb_ge in Hneg.
    destruct (d' =? 0); [trivial|].
    apply IH; [exact Hneg | lia].
Qed.

Lemma skipTx_extend x y n : skipTx x = Ok n -> skipTx (x ++ y) = Ok n.
Proof.
  unfold skipTx. apply skipTx_loop_extend; [lia | rewrite length_app; lia].
Qed.

Lemma slice_from_extend x y i : i <= len x -> slice_from (x ++ y) i = slice_from x i ++ y.
Proof. intros Hi. unfold slice_from. apply drop_app_le. unfold len in Hi. lia. Qed.

Lemma slice_from_shift p x i : 0 <= i -> slice_from (p ++ x) (len p + i) = slice_from x i.
Proof.
  intros Hi. unfold slice_from, len.
  replace (Z.to_nat (Z.of_nat (length p) + i)) with (length p + Z.to_nat i)%nat by lia.
  apply drop_app_add.
Qed.

Lemma slice_extend x y s e : 0 <= s -> e <= len x -> slice (x ++ y) s e = slice x s e.
Proof.
  intros Hs He. unfold slice. unfold len in He.
  destruct (Z.le_gt_cases s e) as [Hse | Hse].
  - rewrite drop_app_le by lia. apply take_app_le. rewrite length_drop. lia.
  - now replace (Z.to_nat (e - s)) with 0%nat by lia.
Qed.

Lemma slice_shift p x s e :
  0 <= s -> slice (p ++ x) (len p + s) (len p + e) = slice x s e.
Proof.
  intros Hs. unfold slice. replace (len p + e - (len p + s)) with (e - s) by lia.
  f_equal. now apply slice_from_shift.
Qed.

(** What a length that [read_length] accepts is like. *)
Lemma read_length_inv d l i s post :
  0 <= i -> l < 2 ^ 63 ->
  read_length d l i = Ok (s, post) ->
  exists v, read_varint d l i = Ok (v, s) /\ 0 <= wrap_int v
            /\ post = s + wrap_int v /\ i < s /\ post <= l.
Proof.
  intros Hi Hl. unfold read_length.
  destruct (read_varint d l i) as [[v j]| | |] eqn:Hv; try discriminate.
  apply read_varint_progress in Hv. cbn [obind].
  destruct (wrap_int v <? 0) eqn:Hneg; [discriminate|]. apply Z.ltb_ge in Hneg.
  pose proof (wrap_int_range v) as Hr.
  destruct (wrap_int (j + wrap_int v) <? 0) eqn:Hneg'; [discriminate|].
  apply Z.ltb_ge in Hneg'.
  destruct (l <? wrap_int (j + wrap_int v)) eqn:Hpast; [discriminate|].
  apply Z.ltb_ge in Hpast. intros [= <- <-].
  destruct (wrap_int_add_forward j (wrap_int v)) as [[Heq ?]|?]; [lia | lia | | lia].
  rewrite Heq in *. exists v. repeat split; try reflexivity; lia.
Qed.

Lemma read_length_intro d l i v s :
  read_varint d l i = Ok (v, s) -> 0 <= wrap_int v -> 0 <= s ->
  s + wrap_int v <= l -> l < 2 ^ 63 ->
  read_length d l i = Ok (s, s + wrap_int v).
Proof.
  intros Hv Hv0 Hs Hpost Hl. unfold read_length. rewrite Hv. cbn [obind].
  replace (wrap_int v <? 0) with false by (symmetry; apply Z.ltb_ge; lia).
  rewrite wrap_int_small by lia.
  replace (s + wrap_int v <? 0) with false by (symmetry; apply Z.ltb_ge; lia).
  now replace (l <? s + wrap_int v) with false by (symmetry; apply Z.ltb_ge; lia).
Qed.

Lemma read_length_extend x y i s post :
  0 <= i -> len (x ++ y) < 2 ^ 63 ->
  read_length x (len x) i = Ok (s, post) ->
  read_length (x ++ y) (len (x ++ y)) i = Ok (s, post)
  /\ i < s <= post /\ post <= len x.
Proof.
  intros Hi Hlen H. pose proof (len_nonneg y) as Hy.
  apply read_length_inv in H as (v & Hv & Hv0 & -> & His & Hpost);
    [| exact Hi | revert Hlen; len_lia].
  split; [|lia].
  apply read_length_intro; try lia; [now apply read_varint_extend | len_lia].
Qed.

Lemma read_length_shift p x i s post :
  0 <= i -> len (p ++ x) < 2 ^ 63 ->
  read_length x (len x) i = Ok (s, post) ->
  read_length (p ++ x) (len (p ++ x)) (len p + i) = Ok (len p + s, len p + post)
  /\ i < s <= post /\ post <= len x.
Proof.
  intros Hi Hlen H. pose proof (len_nonneg p) as Hp.
  apply read_length_inv in H as (v & Hv & Hv0 & -> & His & Hpost);
    [| exact Hi | revert Hlen; len_lia].
  split; [|lia].
  rewrite Z.add_assoc.
  apply read_length_intro; try lia; [now apply read_varint_shift | len_lia].
Qed.

Lemma unmarshal_bytes_extend name x y i wt b post :
  0 <= i -> len (x ++ y) < 2 ^ 63 ->
  unmarshal_bytes name x (len x) i wt = Ok (b, post) ->
  unmarshal_bytes name (x ++ y) (len (x ++ y)) i wt = Ok (b, post)
  /\ i < post <= len x.
Proof.
  intros Hi Hlen. unfold unmarshal_bytes.
  destruct (negb (wt =? 2)); [discriminate|].
  destruct (read_length x (len x) i) as [[s e]| | |] eqn:Hr; try discriminate.
  destruct (read_length_extend x y i s e Hi Hlen Hr) as (-> & Hs & He).
  cbn [obind]. intros [= <- <-]. split; [|lia].
  now rewrite slice_extend by lia.
Qed.

Lemma unmarshal_bytes_shift name p x i wt b post :
  0 <= i -> len (p ++ x) < 2 ^ 63 ->
  unmarshal_bytes name x (len x) i wt = Ok (b, post) ->
  unmarshal_bytes name (p ++ x) (len (p ++ x)) (len p + i) wt = Ok (b, len p + post)
  /\ i < post <= len x.
Proof.
  intros Hi Hlen. unfold unmarshal_bytes.
  destruct (negb (wt =? 2)); [discriminate|].
  destruct (read_length x (len x) i) as [[s e]| | |] eqn:Hr; try discriminate.
  destruct (read_length_shift p x i s e Hi Hlen Hr) as (-> & Hs & He).
  cbn [obind]. intros [= <- <-]. split; [|lia].
  now rewrite slice_shift by lia.
Qed.

(** What the [default] arm is like when it gets past a field. *)
Lemma unmarshal_skip_inv d l i i' :
  0 <= i <= len d -> len d < 2 ^ 63 ->
  unmarshal_skip d l i = Ok i' ->
  exists n, skipTx (slice_from d i) = Ok n /\ 0 < n /\ i' = i + n /\ i' <= l.
Proof.
  intros Hi Hl. unfold unmarshal_skip.
  assert (Hlen : len (slice_from d i) < 2 ^ 63).
  { unfold slice_from, len in *. rewrite length_drop. lia. }
  destruct (skipTx_returns (slice_from d i) Hlen) as [_ Hok].
  destruct (skipTx (slice_from d i)) as [n| | |]; try discriminate.
  specialize (Hok n eq_refl). cbn [obind].
  replace (n <? 0) with false by (symmetry; apply Z.ltb_ge; lia).
  destruct (wrap_int (i + n) <? 0) eqn:Hneg; [discriminate|].
  apply Z.ltb_ge in Hneg.
  destruct (l <? wrap_int (i + n)) eqn:Hpast; [discriminate|].
  apply Z.ltb_ge in Hpast. intros [= <-].
  destruct (wrap_int_add_forward i n) as [[Heq ?]|?]; [lia | lia | | lia].
  rewrite Heq in *. exists n. repeat split; try reflexivity; lia.
Qed.

Lemma unmarshal_skip_intro d l i n :
  skipTx (slice_from d i) = Ok n -> 0 <= n -> 0 <= i -> i + n <= l -> l < 2 ^ 63 ->
  unmarshal_skip d l i = Ok (i + n).
Proof.
  intros Hs Hn Hi Hpost Hl. unfold unmarshal_skip. rewrite Hs. cbn [obind].
  replace (n <? 0) with false by (symmetry; apply Z.ltb_ge; lia).
  rewrite wrap_int_small by lia.
  replace (i + n <? 0) with false by (symmetry; apply Z.ltb_ge; lia).
  now replace (l <? i + n) with false by (symmetry; apply Z.ltb_ge; lia).
Qed.

Lemma unmarshal_skip_extend x y i i' :
  0 <= i <= len x -> len (x ++ y) < 2 ^ 63 ->
  unmarshal_skip x (len x) i = Ok i' ->
  unmarshal_skip (x ++ y) (len (x ++ y)) i = Ok i' /\ i < i' <= len x.
Proof.
  intros Hi Hlen H. pose proof (len_nonneg y) as Hy.
  apply unmarshal_skip_inv in H as (n & Hs & Hn & -> & Hpost);
    [| exact Hi | revert Hlen; len_lia].
  split; [|lia].
  apply unmarshal_skip_intro; try lia; [| len_lia].
  rewrite slice_from_extend by lia. now apply skipTx_extend.
Qed.

Lemma unmarshal_skip_shift p x i i' :
  0 <= i <= len x -> len (p ++ x) < 2 ^ 63 ->
  unmarshal_skip x (len x) i = Ok i' ->
  unmarshal_skip (p ++ x) (len (p ++ x)) (len p + i) = Ok (len p + i')
  /\ i < i' <= len x.
Proof.
  intros Hi Hlen H. pose proof (len_nonneg p) as Hp.
  apply unmarshal_skip_inv in H as (n & Hs & Hn & -> & Hpost);
    [| exact Hi | revert Hlen; len_lia].
  split; [|lia].
  rewrite Z.add_assoc.
  apply unmarshal_skip_intro; try lia; [| len_lia].
  now rewrite slice_from_shift by lia.
Qed.

End Concat.

Section ConcatLoop.
Import Go Tx Wire.
Context {Msg : Type}.
Variable name : string.
Variable switch : Msg -> list Z -> Z -> Z -> Z -> Z -> Z -> Msg * outcome Z.

(** The arms that get past a field read nothing behind it, and know
    the buffer only from their index on. *)
Hypothesis switch_extend : forall m x y pre i fieldNum wireType m' i',
  0 <= pre < i -> i <= len x -> len (x ++ y) < 2 ^ 63 ->
  switch m x (len x) pre i fieldNum wireType = (m', Ok i') ->
  switch m (x ++ y) (len (x ++ y)) pre i fieldNum wireType = (m', Ok i')
  /\ pre < i' <= len x.
Hypothesis switch_shift : forall m p x pre i fieldNum wireType m' i',
  0 <= pre < i -> i <= len x -> len (p ++ x) < 2 ^ 63 ->
  switch m x (len x) pre i fieldNum wireType = (m', Ok i') ->
  switch m (p ++ x) (len (p ++ x)) (len p + pre) (len p + i) fieldNum wireType
  = (m', Ok (len p + i'))
  /\ pre < i' <= len x.

(** The loop on a buffer whose front it gets through. *)
Lemma Unmarshal_loop_front fuel : forall m x y i m1 fuel2 r,
  0 <= i -> len (x ++ y) < 2 ^ 63 ->
  Unmarshal_loop name switch fuel m x (len x) i = (m1, Ok tt) ->
  Unmarshal_loop name switch fuel2 m1 (x ++ y) (len (x ++ y)) (len x) = r ->
  snd r <> OutOfFuel ->
  Unmarshal_loop name switch (fuel + fuel2) m (x ++ y) (len (x ++ y)) i = r.
Proof.
  assert (Hend : forall (m : Msg) (x : list Z) i (m1 : Msg),
            (if len x <? i then (m, Err ErrUnexpectedEOF) else (m, Ok tt))
            = (m1, @Ok unit tt) ->
            (len x <=? i) = true -> i = len x /\ m1 = m).
  { intros m x i m1 H Hle. apply Z.leb_le in Hle.
    destruct (len x <? i) eqn:Hlt; [discriminate|]. apply Z.ltb_ge in Hlt.
    injection H as <-. split; [lia | reflexivity]. }
  induction fuel as [|fuel IH]; intros m x y i m1 fuel2 r Hi Hlen H1 H2 Hr.
  - cbn [Unmarshal_loop] in H1. destruct (len x <=? i) eqn:Hle; [|discriminate].
    destruct (Hend m x i m1 H1 Hle) as [-> ->]. exact H2.
  - rewrite Unmarshal_loop_eq in H1. destruct (len x <=? i) eqn:Hle.
    + destruct (Hend m x i m1 H1 Hle) as [-> ->].
      destruct r as [mr rr]. cbn [snd] in Hr.
      apply Unmarshal_loop_fuel with (fuel := fuel2); [exact H2 | exact Hr | lia].
    + apply Z.leb_gt in Hle. cbn [Nat.add]. rewrite Unmarshal_loop_eq.
      replace (len (x ++ y) <=? i) with false
        by (symmetry; apply Z.leb_gt; pose proof (len_nonneg y); len_lia).
      destruct (read_varint x (len x) i) as [[wire next]| | |] eqn:Hv;
        try discriminate.
      rewrite (read_varint_extend _ y _ _ _ Hi Hv).
      apply read_varint_progress in Hv. cbv zeta in *.
      destruct (Z.land wire 7 =? 4); [discriminate|].
      destruct (wrap_int32 (Z.shiftr wire 3) <=? 0); [discriminate|].
      destruct (switch m x (len x) i next (wrap_int32 (Z.shiftr wire 3))
                  (Z.land wire 7)) as [m' [i'| | |]] eqn:Hsw; try discriminate.
      destruct (switch_extend m x y i next _ _ m' i' ltac:(lia) ltac:(lia) Hlen Hsw)
        as [-> Hi'].
      apply (IH m' x y i' m1 fuel2 r); [lia | assumption..].
Qed.

(** The loop behind bytes put in front of the buffer. *)
Lemma Unmarshal_loop_back fuel : forall m p x i m2,
  0 <= i -> len (p ++ x) < 2 ^ 63 ->
  Unmarshal_loop name switch fuel m x (len x) i = (m2, Ok tt) ->
  Unmarshal_loop name switch fuel m (p ++ x) (len (p ++ x)) (len p + i) = (m2, Ok tt).
Proof.
  assert (Hc : forall (p x : list Z) i,
            (len (p ++ x) <=? len p + i) = (len x <=? i)
            /\ (len (p ++ x) <? len p + i) = (len x <? i)).
  { intros p x i. rewrite len_app. split.
    - destruct (Z.leb_spec (len x) i); [apply Z.leb_le | apply Z.leb_gt]; lia.
    - destruct (Z.ltb_spec (len x) i); [apply Z.ltb_lt | apply Z.ltb_ge]; lia. }
  induction fuel as [|fuel IH]; intros m p x i m2 Hi Hlen H.
  - cbn [Unmarshal_loop] in *. destruct (Hc p x i) as [-> ->].
    destruct (len x <=? i); [exact H | discriminate].
  - rewrite Unmarshal_loop_eq in *. destruct (Hc p x i) as [-> ->].
    destruct (len x <=? i) eqn:Hle; [exact H|]. apply Z.leb_gt in Hle.
    destruct (read_varint x (len x) i) as [[wire next]| | |] eqn:Hv;
      try discriminate.
    rewrite (read_varint_shift p _ _ _ _ Hi Hv).
    apply read_varint_progress in Hv. cbv zeta in *.
    destruct (Z.land wire 7 =? 4); [discriminate|].
    destruct (wrap_int32 (Z.shiftr wire 3) <=? 0); [discriminate|].
    destruct (switch m x (len x) i next (wrap_int32 (Z.shiftr wire 3))
                (Z.land wire 7)) as [m' [i'| | |]] eqn:Hsw; try discriminate.
    destruct (switch_shift m p x i next _ _ m' i' ltac:(lia) ltac:(lia) Hlen Hsw)
      as [-> Hi'].
    apply IH; [lia | assumption..].
Qed.

Lemma Unmarshal_with_app m x y m1 m2 :
  len (x ++ y) < 2 ^ 63 ->
  Unmarshal_with name switch m x = (m1, Ok tt) ->
  Unmarshal_with name switch m1 y = (m2, Ok tt) ->
  Unmarshal_with name switch m (x ++ y) = (m2, Ok tt).
Proof.
  unfold Unmarshal_with. intros Hlen H1 H2. rewrite length_app.
  apply (Unmarshal_loop_front (length x) m x y 0 m1 (length y) (m2, Ok tt));
    [lia | exact Hlen | exact H1 | | discriminate].
  pose proof (Unmarshal_loop_back (length y) m1 x y 0 m2 ltac:(lia) Hlen H2) as H.
  now rewrite Z.add_0_r in H.
Qed.

End ConcatLoop.

Section ConcatMessages.
Import Go Tx Wire.

Lemma arm_inv {Msg A} (m : Msg) (o : outcome (A * Z)) set m' i' :
  arm m o set = (m', Ok i') -> exists a, o = Ok (a, i') /\ m' = set a.
Proof.
  destruct o as [[a i]| | |]; cbn [arm]; try discriminate.
  intros [= <- <-]. now exists a.
Qed.

Lemma arm_skip_extend {Msg} (m : Msg) x y pre m' i' :
  0 <= pre <= len x -> len (x ++ y) < 2 ^ 63 ->
  arm m (do i <-- unmarshal_skip x (len x) pre ;; Ok (tt, i)) (fun _ => m) = (m', Ok i') ->
  arm m (do i <-- unmarshal_skip (x ++ y) (len (x ++ y)) pre ;; Ok (tt, i)) (fun _ => m)
  = (m', Ok i')
  /\ pre < i' <= len x.
Proof.
  intros Hpre Hlen H. apply arm_inv in H as ([] & Ho & ->).
  destruct (unmarshal_skip x (len x) pre) as [i| | |] eqn:Hs; try discriminate.
  injection Ho as <-.
  destruct (unmarshal_skip_extend x y pre i Hpre Hlen Hs) as [-> Hi].
  split; [reflexivity | exact Hi].
Qed.

Lemma arm_skip_shift {Msg} (m : Msg) p x pre m' i' :
  0 <= pre <= len x -> len (p ++ x) < 2 ^ 63 ->
  arm m (do i <-- unmarshal_skip x (len x) pre ;; Ok (tt, i)) (fun _ => m) = (m', Ok i') ->
  arm m (do i <-- unmarshal_skip (p ++ x) (len (p ++ x)) (len p + pre) ;; Ok (tt, i))
    (fun _ => m)
  = (m', Ok (len p + i'))
  /\ pre < i' <= len x.
Proof.
  intros Hpre Hlen H. apply arm_inv in H as ([] & Ho & ->).
  destruct (unmarshal_skip x (len x) pre) as [i| | |] eqn:Hs; try discriminate.
  injection Ho as <-.
  destruct (unmarshal_skip_shift p x pre i Hpre Hlen Hs) as [-> Hi].
  split; [reflexivity | exact Hi].
Qed.

Lemma arm_bytes_extend {Msg} (m : Msg) name x y i wt set m' i' :
  0 <= i -> len (x ++ y) < 2 ^ 63 ->
  arm m (unmarshal_bytes name x (len x) i wt) set = (m', Ok i') ->
  arm m (unmarshal_bytes name (x ++ y) (len (x ++ y)) i wt) set = (m', Ok i')
  /\ i < i' <= len x.
Proof.
  intros Hi Hlen H. apply arm_inv in H as (b & Ho & ->).
  destruct (unmarshal_bytes_extend name x y i wt b i' Hi Hlen Ho) as [-> Hi'].
  split; [reflexivity | exact Hi'].
Qed.

Lemma arm_bytes_shift {Msg} (m : Msg) name p x i wt set m' i' :
  0 <= i -> len (p ++ x) < 2 ^ 63 ->
  arm m (unmarshal_bytes name x (len x) i wt) set = (m', Ok i') ->
  arm m (unmarshal_bytes name (p ++ x) (len (p ++ x)) (len p + i) wt) set
  = (m', Ok (len p + i'))
  /\ i < i' <= len x.
Proof.
  intros Hi Hlen H. apply arm_inv in H as (b & Ho & ->).
  destruct (unmarshal_bytes_shift name p x i wt b i' Hi Hlen Ho) as [-> Hi'].
  split; [reflexivity | exact Hi'].
Qed.

Lemma Revoke_Unmarshal_app m x y m1 m2 :
  len (x ++ y) < 2 ^ 63 ->
  MsgRevokeFeeAllowance.Unmarshal m x = (m1, Ok tt) ->
  MsgRevokeFeeAllowance.Unmarshal m1 y = (m2, Ok tt) ->
  MsgRevokeFeeAllowance.Unmarshal m (x ++ y) = (m2, Ok tt).
Proof.
  unfold MsgRevokeFeeAllowance.Unmarshal. apply Unmarshal_with_app.
  - intros m0 x0 y0 pre i fn wt m' i' Hpre Hi Hlen.
    unfold MsgRevokeFeeAllowance.switch.
    destruct (fn =? 1); [|destruct (fn =? 2)].
    + intros H. apply arm_bytes_extend with (y := y0) in H; [|lia | exact Hlen].
      split; [apply H | lia].
    + intros H. apply arm_bytes_extend with (y := y0) in H; [|lia | exact Hlen].
      split; [apply H | lia].
    + intros H. apply arm_skip_extend with (y := y0) in H; [exact H | lia | exact Hlen].
  - intros m0 p x0 pre i fn wt m' i' Hpre Hi Hlen.
    unfold MsgRevokeFeeAllowance.switch.
    destruct (fn =? 1); [|destruct (fn =? 2)].
    + intros H. apply arm_bytes_shift with (p := p) in H; [|lia | exact Hlen].
      split; [apply H | lia].
    + intros H. apply arm_bytes_shift with (p := p) in H; [|lia | exact Hlen].
      split; [apply H | lia].
    + intros H. apply arm_skip_shift with (p := p) in H; [exact H | lia | exact Hlen].
Qed.

End ConcatMessages.

Section ConcatGrant.
Import Go Tx Wire MsgGrantFeeAllowance.
Context `{AnyMethods}.

Lemma unmarshal_Allowance_inv m d l i wt m' i' :
  unmarshal_Allowance m d l i wt = (m', Ok i') ->
  exists s,
    wt = 2 /\ read_length d l i = Ok (s, i')
    /\ forall d1 l1 i1 s1 post1,
         read_length d1 l1 i1 = Ok (s1, post1) ->
         slice d1 s1 post1 = slice d s i' ->
         unmarshal_Allowance m d1 l1 i1 wt = (m', Ok post1).
Proof.
  unfold unmarshal_Allowance.
  destruct (wt =? 2) eqn:Hwt; cbn [negb]; [|discriminate].
  apply Z.eqb_eq in Hwt. subst wt.
  destruct (read_length d l i) as [[s post]| | |] eqn:Hr; try discriminate.
  cbv zeta.
  destruct (Any_Unmarshal _ (slice d s post)) as [a r] eqn:Ha.
  intros [= <- Hres].
  destruct r as [[]| | |]; try discriminate. cbn [obind] in Hres.
  injection Hres as <-.
  exists s. split; [reflexivity|]. split; [reflexivity|].
  intros d1 l1 i1 s1 post1 Hr1 Hs. cbn [Z.eqb Pos.eqb negb].
  rewrite Hr1, Hs, Ha. reflexivity.
Qed.

Lemma Grant_Unmarshal_app m x y m1 m2 :
  len (x ++ y) < 2 ^ 63 ->
  Unmarshal m x = (m1, Ok tt) ->
  Unmarshal m1 y = (m2, Ok tt) ->
  Unmarshal m (x ++ y) = (m2, Ok tt).
Proof.
  unfold Unmarshal. apply Unmarshal_with_app.
  - intros m0 x0 y0 pre i fn wt m' i' Hpre Hi Hlen. unfold switch.
    destruct (fn =? 1); [|destruct (fn =? 2); [|destruct (fn =? 3)]].
    + intros Hsw. apply arm_bytes_extend with (y := y0) in Hsw; [|lia | exact Hlen].
      split; [apply Hsw | lia].
    + intros Hsw. apply arm_bytes_extend with (y := y0) in Hsw; [|lia | exact Hlen].
      split; [apply Hsw | lia].
    + intros Hsw. apply unmarshal_Allowance_inv in Hsw as (s & -> & Hr & Hsame).
      destruct (read_length_extend x0 y0 i s i' ltac:(lia) Hlen Hr) as (Hr' & Hs & He).
      split; [|lia]. apply (Hsame _ _ _ _ _ Hr'). apply slice_extend; lia.
    + intros Hsw. apply arm_skip_extend with (y := y0) in Hsw;
        [exact Hsw | lia | exact Hlen].
  - intros m0 p x0 pre i fn wt m' i' Hpre Hi Hlen. unfold switch.
    destruct (fn =? 1); [|destruct (fn =? 2); [|destruct (fn =? 3)]].
    + intros Hsw. apply arm_bytes_shift with (p := p) in Hsw; [|lia | exact Hlen].
      split; [apply Hsw | lia].
    + intros Hsw. apply arm_bytes_shift with (p := p) in Hsw; [|lia | exact Hlen].
      split; [apply Hsw | lia].
    + intros Hsw. apply unmarshal_Allowance_inv in Hsw as (s & -> & Hr & Hsame).
      destruct (read_length_shift p x0 i s i' ltac:(lia) Hlen Hr) as (Hr' & Hs & He).
      split; [|lia]. apply (Hsame _ _ _ _ _ Hr'). apply slice_shift; lia.
    + intros Hsw. apply arm_skip_shift with (p := p) in Hsw;
        [exact Hsw | lia | exact Hlen].
Qed.

End ConcatGrant.

Section ConcatTheorem.
Import Go Tx Wire.

(** X22.  Decoding a concatenation is decoding its parts one after
    the other into the same destination: when [Unmarshal] succeeds on
    [x] and then, on what that has left in the destination, on [y], it
    succeeds on [x ++ y] with the same result.  This holds for all
    buffers, whatever their bytes, and for every message of the file. *)
Theorem Unmarshal_concatenation (x y : list Z) :
  len (x ++ y) < 2 ^ 63 ->
  (forall m m1 m2,
     MsgRevokeFeeAllowance.Unmarshal m x = (m1, Ok tt) ->
     MsgRevokeFeeAllowance.Unmarshal m1 y = (m2, Ok tt) ->
     MsgRevokeFeeAllowance.Unmarshal m (x ++ y) = (m2, Ok tt))
  /\ (forall (H : AnyMethods) m m1 m2,
     MsgGrantFeeAllowance.Unmarshal m x = (m1, Ok tt) ->
     MsgGrantFeeAllowance.Unmarshal m1 y = (m2, Ok tt) ->
     MsgGrantFeeAllowance.Unmarshal m (x ++ y) = (m2, Ok tt))
  /\ (forall m m1 m2,
     MsgRevokeFeeAllowanceResponse.Unmarshal m x = (m1, Ok tt) ->
     MsgRevokeFeeAllowanceResponse.Unmarshal m1 y = (m2, Ok tt) ->
     MsgRevokeFeeAllowanceResponse.Unmarshal m (x ++ y) = (m2, Ok tt))
  /\ (forall m m1 m2,
     MsgGrantFeeAllowanceResponse.Unmarshal m x = (m1, Ok tt) ->
     MsgGrantFeeAllowanceResponse.Unmarshal m1 y = (m2, Ok tt) ->
     MsgGrantFeeAllowanceResponse.Unmarshal m (x ++ y) = (m2, Ok tt)).
Proof.
  intros Hlen. split; [|split; [|split]].
  - intros m m1 m2. now apply Revoke_Unmarshal_app.
  - intros H m m1 m2. now apply Grant_Unmarshal_app.
  - intros m m1 m2. unfold MsgRevokeFeeAllowanceResponse.Unmarshal.
    apply Unmarshal_with_app; [| | exact Hlen].
    + intros m0 x0 y0 pre i fn wt m' i' Hpre Hi Hl Hsw.
      unfold MsgRevokeFeeAllowanceResponse.switch in *.
      apply arm_skip_extend with (y := y0) in Hsw; [exact Hsw | lia | exact Hl].
    + intros m0 p x0 pre i fn wt m' i' Hpre Hi Hl Hsw.
      unfold MsgRevokeFeeAllowanceResponse.switch in *.
      apply arm_skip_shift with (p := p) in Hsw; [exact Hsw | lia | exact Hl].
  - intros m m1 m2. unfold MsgGrantFeeAllowanceResponse.Unmarshal.
    apply Unmarshal_with_app; [| | exact Hlen].
    + intros m0 x0 y0 pre i fn wt m' i' Hpre Hi Hl Hsw.
      unfold MsgGrantFeeAllowanceResponse.switch in *.
      apply arm_skip_extend with (y := y0) in Hsw; [exact Hsw | lia | exact Hl].
    + intros m0 p x0 pre i fn wt m' i' Hpre Hi Hl Hsw.
      unfold MsgGrantFeeAllowanceResponse.switch in *.
      apply arm_skip_shift with (p := p) in Hsw; [exact Hsw | lia | exact Hl].
Qed.

Lemma Unmarshal_concatenation_witness :
  MsgRevokeFeeAllowance.Unmarshal MsgRevokeFeeAllowance.zero
    ([10; 1; 65; 18; 1; 66] ++ [61; 1; 2; 3; 4; 10; 129; 0; 67])
  = (MsgRevokeFeeAllowance.mk (Some [67]) (Some [66]), Ok tt).
Proof.
  assert (Hlen : len ([10; 1; 65; 18; 1; 66] ++ [61; 1; 2; 3; 4; 10; 129; 0; 67])
                 < 2 ^ 63) by (vm_compute; reflexivity).
  apply (proj1 (Unmarshal_concatenation _ _ Hlen) MsgRevokeFeeAllowance.zero
           (MsgRevokeFeeAllowance.mk (Some [65]) (Some [66]))).
  - vm_compute. reflexivity.
  - vm_compute. reflexivity.
Defined.

End ConcatTheorem.
